(** * imap-hpsm: the mail-to-ticket pipeline of [imap.js] and [rest.js]

    A shallow embedding of the message pipeline: JavaScript strings as
    sequences of UTF-16 code units, the regular expressions of the source as
    a backtracking matcher, promise chains as finite trees of pending I/O, and
    the properties of the mailbox check, the body processor, the spam gate
    and the per-message dispatch; then the structure walkers, the buffer
    stream, the ids, the objects that are posted and the protocol the two
    flows keep between the ticket system and the mailbox. *)

From Stdlib Require Import String Ascii.
From Stdlib Require Import List NArith ZArith Lia Bool.
Import ListNotations.

Set Implicit Arguments.
Set Warnings "-register-all".

(* ===================================================================== *)
(** * JavaScript strings *)
(* ===================================================================== *)

(** A JavaScript string is a sequence of 16-bit code units. *)
Definition jschar := N.
Definition jsstring := list jschar.

Fixpoint js (s : string) : jsstring :=
  match s with
  | EmptyString => []
  | String a s' => N_of_ascii a :: js s'
  end.

Definition ch (a : ascii) : jschar := N_of_ascii a.

Fixpoint str_eqb (a b : jsstring) : bool :=
  match a, b with
  | [], [] => true
  | x :: a', y :: b' => N.eqb x y && str_eqb a' b'
  | _, _ => false
  end.

(** [s.substring(i, j)] for [i <= j]. *)
Definition substring (i j : nat) (s : jsstring) : jsstring :=
  firstn (j - i) (skipn i s).

(** Character predicates of ECMAScript regular expressions. *)
Definition in_range (lo hi c : N) : bool := N.leb lo c && N.leb c hi.

Definition is_digit (c : jschar) : bool := in_range 48 57 c.

Definition is_line_terminator (c : jschar) : bool :=
  N.eqb c 10 || N.eqb c 13 || N.eqb c 8232 || N.eqb c 8233.

(** [\s]: WhiteSpace and LineTerminator code units. *)
Definition is_space (c : jschar) : bool :=
  in_range 9 13 c || N.eqb c 32 || N.eqb c 160 || N.eqb c 5760
  || in_range 8192 8202 c || N.eqb c 8232 || N.eqb c 8233
  || N.eqb c 8239 || N.eqb c 8287 || N.eqb c 12288 || N.eqb c 65279.

(** [.] without the [s] flag. *)
Definition dot (c : jschar) : bool := negb (is_line_terminator c).

Definition chr_is (a : ascii) (c : jschar) : bool := N.eqb c (ch a).

(** Canonicalisation of the [i] flag.  A code unit above 127 never folds to
    an ASCII letter, so for ASCII pattern characters this is exact. *)
Definition upcase (c : jschar) : jschar :=
  if in_range 97 122 c then (c - 32)%N else c.

Definition is_ci (p : jschar) (c : jschar) : bool := N.eqb (upcase c) (upcase p).

Definition ascii_letter (c : jschar) : bool :=
  in_range 65 90 c || in_range 97 122 c.

(* ===================================================================== *)
(** * Regular expressions *)
(* ===================================================================== *)

(** The fragment of ECMAScript patterns the sources use, matched the way
    the standard prescribes: by backtracking with continuations, greedy and
    lazy quantifiers, numbered capture groups. *)
Module RegExp.

Inductive regex : Type :=
| Empty
| Chr (p : jschar -> bool)            (* a character class *)
| Seq (r1 r2 : regex)
| Opt (r : regex)                     (* r?  *)
| Star (greedy : bool) (r : regex)    (* r*  and  r*?  *)
| Group (n : nat) (r : regex)         (* the n-th capturing parentheses *)
| Bol.                                (* ^ without the m flag *)

(** [r{n}] *)
Fixpoint Rep (n : nat) (r : regex) : regex :=
  match n with
  | 0 => Empty
  | S n' => Seq r (Rep n' r)
  end.

(** [r+] *)
Definition Plus (r : regex) : regex := Seq r (Star true r).

(** A literal string; [ci] is the [i] flag. *)
Fixpoint Lit (ci : bool) (s : jsstring) : regex :=
  match s with
  | [] => Empty
  | c :: s' => Seq (Chr (if ci then is_ci c else N.eqb c)) (Lit ci s')
  end.

(** Captures: group number to (start, end) offsets, latest first. *)
Definition caps := list (nat * (nat * nat)).

Fixpoint cap (n : nat) (c : caps) : option (nat * nat) :=
  match c with
  | [] => None
  | (m, se) :: c' => if Nat.eqb m n then Some se else cap n c'
  end.

Definition orelse {A} (a b : option A) : option A :=
  match a with
  | Some x => Some x
  | None => b
  end.

Definition cont := nat -> jsstring -> caps -> option (nat * caps).

(** [m r i s c k]: match [r] at offset [i], where [s] is the input from
    offset [i] on, then continue with [k]. *)
Fixpoint m (r : regex) (i : nat) (s : jsstring) (c : caps) (k : cont)
  : option (nat * caps) :=
  match r with
  | Empty => k i s c
  | Chr p =>
      match s with
      | x :: s' => if p x then k (S i) s' c else None
      | [] => None
      end
  | Seq r1 r2 => m r1 i s c (fun i' s' c' => m r2 i' s' c' k)
  | Opt r1 => orelse (m r1 i s c k) (k i s c)
  | Star greedy r1 =>
      (fix star (fuel : nat) (i : nat) (s : jsstring) (c : caps)
         : option (nat * caps) :=
         match fuel with
         | 0 => k i s c
         | S fuel' =>
             let more :=
               m r1 i s c
                 (fun i' s' c' =>
                    (* an iteration that consumes nothing is rejected *)
                    if Nat.ltb (length s') (length s)
                    then star fuel' i' s' c' else None) in
             if greedy then orelse more (k i s c)
             else orelse (k i s c) more
         end) (length s) i s c
  | Group n r1 => m r1 i s c (fun i' s' c' => k i' s' ((n, (i, i')) :: c'))
  | Bol => if Nat.eqb i 0 then k i s c else None
  end.

Definition accept : cont := fun i _ c => Some (i, c).

Record matched := { m_start : nat; m_end : nat; m_caps : caps }.

(** [RegExpBuiltinExec] from [lastIndex = i], [s] the input from [i] on:
    the leftmost offset at which the pattern matches. *)
Fixpoint exec_from (r : regex) (i : nat) (s : jsstring) : option matched :=
  match m r i s [] accept with
  | Some (e, c) => Some {| m_start := i; m_end := e; m_caps := c |}
  | None =>
      match s with
      | [] => None
      | _ :: s' => exec_from r (S i) s'
      end
  end.

Definition exec (r : regex) (s : jsstring) : option matched := exec_from r 0 s.

(** [re.test(s)] *)
Definition test (r : regex) (s : jsstring) : bool :=
  match exec r s with Some _ => true | None => false end.

(** [s.search(re)]: [None] stands for -1. *)
Definition search (r : regex) (s : jsstring) : option nat :=
  option_map m_start (exec r s).

(** [s.match(re)] for a pattern without the [g] flag: the array of the
    whole match and the groups; only element 0 is modelled. *)
Definition match0 (r : regex) (s : jsstring) : option jsstring :=
  option_map (fun x => substring (m_start x) (m_end x) s) (exec r s).

(** The text of group [n] of a match, [None] for [undefined]. *)
Definition group (s : jsstring) (x : matched) (n : nat) : option jsstring :=
  option_map (fun se => substring (fst se) (snd se) s) (cap n (m_caps x)).

(** [s.replace(re, fn)] for a pattern without the [g] flag. *)
Definition replace_fn (r : regex) (fn : jsstring -> matched -> jsstring)
           (s : jsstring) : jsstring :=
  match exec r s with
  | None => s
  | Some x => firstn (m_start x) s ++ fn s x ++ skipn (m_end x) s
  end.

(** [s.replace(re, repl)] for a pattern with the [g] flag and a
    replacement without [$]: every match from left to right; after an
    empty match [lastIndex] advances by one code unit. *)
Fixpoint replace_all_from (fuel : nat) (r : regex) (repl : jsstring)
         (i : nat) (s : jsstring) : jsstring :=
  match fuel with
  | 0 => s
  | S fuel' =>
      match exec_from r i s with
      | None => s
      | Some x =>
          let pre := firstn (m_start x - i) s in
          let rest := skipn (m_end x - i) s in
          if Nat.eqb (m_end x) (m_start x) then
            match rest with
            | [] => pre ++ repl
            | y :: rest' =>
                pre ++ repl ++ y :: replace_all_from fuel' r repl (S (m_end x)) rest'
            end
          else pre ++ repl ++ replace_all_from fuel' r repl (m_end x) rest
      end
  end.

Definition replace_all (r : regex) (repl : jsstring) (s : jsstring) : jsstring :=
  replace_all_from (S (length s)) r repl 0 s.

End RegExp.
Import RegExp.


(* ===================================================================== *)
(** * JavaScript values *)
(* ===================================================================== *)

(** The values that flow through the promise chains and the JSON bodies of
    the REST interface.  Numbers are integers; objects keep their keys in
    insertion order. *)
Inductive val : Type :=
| VUndefined
| VNull
| VBool (b : bool)
| VNum (z : Z)
| VStr (s : jsstring)
| VArr (l : list val)
| VObj (o : list (jsstring * val))
| VError (name : string)                (* an Error object, by its name *)
| VMessage (uid : Z).                   (* the message object with this uid *)

(** A synchronous call either returns or throws. *)
Inductive completion (A : Type) : Type :=
| Normal (a : A)
| Throw (e : val).
Arguments Normal {A} a.
Arguments Throw {A} e.

Definition TypeError : val := VError "TypeError".

(** ToBoolean *)
Definition truthy (v : val) : bool :=
  match v with
  | VUndefined | VNull => false
  | VBool b => b
  | VNum z => negb (Z.eqb z 0)
  | VStr s => negb (Nat.eqb (length s) 0)
  | VArr _ | VObj _ | VError _ | VMessage _ => true
  end.

(** [a || b] *)
Definition js_or (a b : val) : val := if truthy a then a else b.

(** [a === b] on the primitive values that the sources compare. *)
Definition strict_eq (a b : val) : bool :=
  match a, b with
  | VUndefined, VUndefined => true
  | VNull, VNull => true
  | VBool x, VBool y => Bool.eqb x y
  | VNum x, VNum y => Z.eqb x y
  | VStr x, VStr y => str_eqb x y
  | _, _ => false
  end.

Fixpoint digits_of (fuel : nat) (n : N) (acc : jsstring) : jsstring :=
  match fuel with
  | 0 => acc
  | S fuel' =>
      let acc' := (48 + N.modulo n 10)%N :: acc in
      if N.ltb n 10 then acc' else digits_of fuel' (N.div n 10) acc'
  end.

Definition decimal (z : Z) : jsstring :=
  match z with
  | Z0 => js "0"
  | Zpos p => digits_of (S (N.to_nat (N.log2 (Npos p)))) (Npos p) []
  | Zneg p => ch "-" :: digits_of (S (N.to_nat (N.log2 (Npos p)))) (Npos p) []
  end.

Definition all_digits (s : jsstring) : bool :=
  forallb is_digit s && negb (Nat.eqb (length s) 0).

(** The number a run of decimal digits denotes. *)
Definition number_of (s : jsstring) : Z :=
  fold_left (fun acc c => (acc * 10 + Z.of_N (c - 48))%Z) s 0%Z.

(** A date-time of the form [YYYY-MM-DDTHH:MM:SS] that names a real day and
    time of day: what ISO 8601 allows as a local time. *)
Definition daysInMonth (year month : Z) : Z :=
  if Z.eqb month 2 then
    if (Z.eqb (year mod 4) 0 && negb (Z.eqb (year mod 100) 0)) || Z.eqb (year mod 400) 0
    then 29 else 28
  else if Z.eqb month 4 || Z.eqb month 6 || Z.eqb month 9 || Z.eqb month 11 then 30
  else 31.

Definition validIsoLocal (s : jsstring) : bool :=
  match s with
  | [y1; y2; y3; y4; a; m1; m2; b; d1; d2; t; h1; h2; c; n1; n2; d; s1; s2] =>
      let year := number_of [y1; y2; y3; y4] in
      let month := number_of [m1; m2] in
      let day := number_of [d1; d2] in
      forallb is_digit [y1; y2; y3; y4; m1; m2; d1; d2; h1; h2; n1; n2; s1; s2]
      && chr_is "-" a && chr_is "-" b && chr_is "T" t && chr_is ":" c && chr_is ":" d
      && Z.leb 1 month && Z.leb month 12
      && Z.leb 1 day && Z.leb day (daysInMonth year month)
      && Z.leb (number_of [h1; h2]) 23
      && Z.leb (number_of [n1; n2]) 59
      && Z.leb (number_of [s1; s2]) 59
  | _ => false
  end.

(** ToString, as template literals and [+] apply it; in an array
    [undefined] and [null] print as the empty string. *)
Fixpoint to_string (v : val) : jsstring :=
  match v with
  | VUndefined => js "undefined"
  | VNull => js "null"
  | VBool true => js "true"
  | VBool false => js "false"
  | VNum z => decimal z
  | VStr s => s
  | VArr l =>
      (fix join (l : list val) : jsstring :=
         match l with
         | [] => []
         | x :: l' =>
             let sx := match x with
                       | VUndefined | VNull => []
                       | _ => to_string x
                       end in
             match l' with
             | [] => sx
             | _ :: _ => sx ++ ch "," :: join l'
             end
         end) l
  | VObj _ => js "[object Object]"
  | VError name => js name
  | VMessage _ => js "[object Object]"
  end.

Fixpoint lookup {A} (k : jsstring) (o : list (jsstring * A)) : option A :=
  match o with
  | [] => None
  | (k', v) :: o' => if str_eqb k' k then Some v else lookup k o'
  end.

(** [k] is an own key of [o]. *)
Definition has_key {A} (k : jsstring) (o : list (jsstring * A)) : bool :=
  match lookup k o with Some _ => true | None => false end.

(** The property names of [Object.prototype], which every plain object
    inherits. *)
Definition objectPrototypeKeys : list jsstring :=
  map js ["constructor"; "hasOwnProperty"; "isPrototypeOf"; "propertyIsEnumerable";
          "toLocaleString"; "toString"; "valueOf"; "__proto__";
          "__defineGetter__"; "__defineSetter__";
          "__lookupGetter__"; "__lookupSetter__"]%string.

Definition inherited (k : jsstring) : bool := existsb (str_eqb k) objectPrototypeKeys.

(** [k in o] for a plain object: an own key, or a name that the prototype
    chain holds. *)
Definition js_in {A} (k : jsstring) (o : list (jsstring * A)) : bool :=
  has_key k o || inherited k.

(** [v.key]: a TypeError on [undefined] and [null], [undefined] for a
    missing property. *)
Definition prop (v : val) (k : jsstring) : completion val :=
  match v with
  | VUndefined | VNull => Throw TypeError
  | VObj o => Normal (match lookup k o with Some x => x | None => VUndefined end)
  | VArr l =>
      if str_eqb k (js "length") then Normal (VNum (Z.of_nat (length l)))
      else Normal VUndefined
  | VStr s =>
      if str_eqb k (js "length") then Normal (VNum (Z.of_nat (length s)))
      else Normal VUndefined
  | _ => Normal VUndefined
  end.

(** [v[0]] *)
Definition first (v : val) : completion val :=
  match v with
  | VUndefined | VNull => Throw TypeError
  | VArr (x :: _) => Normal x
  | VStr (c :: _) => Normal (VStr [c])
  | VObj o => Normal (match lookup (js "0") o with Some x => x | None => VUndefined end)
  | _ => Normal VUndefined
  end.

(** [target] extended with the keys of [src], later values overriding
    ([Object.assign]). *)
Fixpoint set_key {A} (k : jsstring) (v : A) (o : list (jsstring * A))
  : list (jsstring * A) :=
  match o with
  | [] => [(k, v)]
  | (k', v') :: o' => if str_eqb k' k then (k', v) :: o' else (k', v') :: set_key k v o'
  end.

Definition assign {A} (target src : list (jsstring * A)) : list (jsstring * A) :=
  fold_left (fun o kv => set_key (fst kv) (snd kv) o) src target.

Definition bind {A B} (c : completion A) (f : A -> completion B) : completion B :=
  match c with
  | Normal a => f a
  | Throw e => Throw e
  end.

Notation "'let!' x ':=' c 'in' k" := (bind c (fun x => k))
  (at level 10, x name, c at level 100, k at level 200).


(* ===================================================================== *)
(** * Configuration ([config.js]) *)
(* ===================================================================== *)

Record OnPersonNotFound := {
  createSystemIssue : bool;
  moveMsgToFailureFolder : bool
}.

Record Spam := {
  timeSpan : Z;
  maxNumOfIssues : Z;
  headers : list jsstring;
  dontCheckAuthors : list jsstring
}.

Record RestConfig := {
  user : jsstring;
  password : jsstring;
  protocol : jsstring;
  host : jsstring;
  port : Z;
  url : jsstring;
  paths : list (jsstring * jsstring);
  dbQueryUri : jsstring;
  maxQueryMessages : nat;
  onPersonNotFound : OnPersonNotFound;
  (* field name to type tag: date, id or string; keys are plain words *)
  permittedBodyAttributes : list (jsstring * jsstring);
  defaultIssueAttrs : list (jsstring * val);
  joinOriginalAsEml : bool;
  joinAttachments : bool;
  truncateCommentsAfterDelimiter : bool;
  (* a string delimiter is compiled by [search] and [new RegExp], so every
     delimiter is a pattern *)
  commentDelimiters : list regex;
  spam : Spam
}.

Record BoxConfig := { success : jsstring; failure : jsstring }.

Record ServerConfig := {
  imapHost : jsstring;
  mailboxConfig : list (jsstring * BoxConfig)
}.

(** What the pipeline takes from outside the repository: the cheerio DOM
    library, the clock and two built-ins whose results depend on the engine. *)
Record Runtime := {
  (* [cheerio.load(s)('body').text()] *)
  bodyText : jsstring -> jsstring;
  (* the HTML branch of [removeComments], which edits the cheerio DOM *)
  htmlRemoveComments : list regex -> jsstring -> jsstring;
  (* whether [Date.parse(s)] is truthy *)
  dateParses : jsstring -> bool;
  (* [new Date()] *)
  now : val;
  encodeURIComponent : jsstring -> jsstring
}.

(* ===================================================================== *)
(** * Pure helpers of [rest.js] *)
(* ===================================================================== *)

Definition Error : val := VError "Error".

Definition getModelPath (config : RestConfig) (modelName : jsstring)
  : completion jsstring :=
  match lookup modelName (paths config) with
  | Some (c :: p) =>
      let path := c :: p in
      Normal (protocol config ++ js "://" ++ host config ++ js ":"
              ++ decimal (port config) ++ js "/" ++ url config ++ js "/" ++ path)
  | _ => Throw Error       (* the path for the model is not defined *)
  end.

Definition getAuthObject (config : RestConfig) : val :=
  VObj [(js "user", VStr (user config));
        (js "pass", VStr (password config));
        (js "sendImmediately", VBool true)].

(** [/<.*>/] *)
Definition angleRe : regex :=
  Seq (Chr (chr_is "<")) (Seq (Star true (Chr dot)) (Chr (chr_is ">"))).

Definition is_bracket (c : jschar) : bool := chr_is "<" c || chr_is ">" c.

(** [/[<>]*/g] *)
Definition bracketsRe : regex := Star true (Chr is_bracket).

Definition parseEmailAddress (email : val) : completion jsstring :=
  match match0 angleRe (to_string email) with
  | None => Throw TypeError                    (* [null[0]] *)
  | Some parsed =>
      let address :=
        if truthy (VStr parsed) then replace_all bracketsRe [] parsed else parsed in
      Normal (if truthy (VStr address) then address else [])
  end.

(** [new RegExp(prefix + '\\d{12}')] *)
Definition idRe (prefix : jsstring) : regex :=
  Seq (Lit false prefix) (Rep 12 (Chr is_digit)).

Definition parseId (prefix : jsstring) (str : val) : jsstring :=
  match str with
  | VStr s =>
      match match0 (idRe prefix) s with
      | Some id => id
      | None => []
      end
  | _ => []
  end.

(* ===================================================================== *)
(** * The body processor of [imap.js] *)
(* ===================================================================== *)

Definition digit : regex := Chr is_digit.
Definition sep : regex := Chr (fun c => chr_is "-" c || chr_is "/" c).
Definition ws : regex := Chr is_space.

(** [/(\d{2})[-\/](\d{2})[-\/](\d{4})\s*(\d{2}:\d{2})?/] *)
Definition dateRe : regex :=
  Seq (Group 1 (Rep 2 digit))
 (Seq sep
 (Seq (Group 2 (Rep 2 digit))
 (Seq sep
 (Seq (Group 3 (Rep 4 digit))
 (Seq (Star true ws)
      (Opt (Group 4 (Seq (Rep 2 digit) (Seq (Chr (chr_is ":")) (Rep 2 digit)))))))))).

Definition or_empty (o : option jsstring) : jsstring :=
  match o with Some s => s | None => [] end.

Definition or_undefined (o : option val) : val :=
  match o with Some v => v | None => VUndefined end.

(** The replacer of [parseDate]. *)
Definition dateReplacer (s : jsstring) (x : matched) : jsstring :=
  let p1 := or_empty (group s x 1) in
  let p2 := or_empty (group s x 2) in
  let p3 := or_empty (group s x 3) in
  p3 ++ js "-" ++ p2 ++ js "-" ++ p1 ++ js "T"
     ++ (if truthy (VStr (or_empty (group s x 4)))
         then or_empty (group s x 4) ++ js ":00"
         else js "23:59:59").

(** [parseDate]: [None] stands for the [NaN] result. *)
Definition parseDate (dateStr : jsstring) : option jsstring :=
  let matched := replace_fn dateRe dateReplacer dateStr in
  (* [matched && new Date(matched)]: a Date object, valid or not, is truthy *)
  let date := truthy (VStr matched) in
  (* [date !== 'Invalid Date']: an object is never identical to a string *)
  let differs := true in
  if date && differs then Some matched else None.

(** [headRe = '\\s?[-;:]?\\s*'] *)
Definition headRe : regex :=
  Seq (Opt ws)
 (Seq (Opt (Chr (fun c => chr_is "-" c || chr_is ";" c || chr_is ":" c)))
      (Star true ws)).

(** [tailRe = '.*?\\s'] *)
Definition tailRe : regex := Seq (Star false (Chr dot)) ws.

Definition typeDate : regex :=
  Group 1
   (Seq (Rep 2 digit)
   (Seq sep
   (Seq (Rep 2 digit)
   (Seq sep
   (Seq (Rep 4 digit)
   (Seq (Star true ws)
        (Opt (Group 2
          (Seq (Chr (in_range 48 50))
          (Seq (Chr (in_range 48 57))
          (Seq (Chr (chr_is ":"))
          (Seq (Chr (in_range 48 53)) (Chr (in_range 48 57)))))))))))))).

Definition typeId : regex :=
  Group 1 (Seq (Rep 3 (Chr ascii_letter)) (Rep 12 digit)).

Definition typeString : regex := Group 1 (Plus (Chr dot)).

(** [types[type] || types.string] *)
Definition typeRe (type : jsstring) : regex :=
  if str_eqb type (js "date") then typeDate
  else if str_eqb type (js "id") then typeId
  else typeString.

(** [new RegExp(key + headRe + (types[type] || types.string) + tailRe, 'i')] *)
Definition attrRe (key type : jsstring) : regex :=
  Seq (Lit true key) (Seq headRe (Seq (typeRe type) tailRe)).

Definition parsePermittedAttributes (rt : Runtime) (config : RestConfig)
           (messageBody : jsstring) : list (jsstring * jsstring) :=
  let attrs := permittedBodyAttributes config in
  let body :=
    if truthy (VStr (bodyText rt messageBody)) then bodyText rt messageBody
    else messageBody in
  fold_left
    (fun fields kt =>
       let key := fst kt in
       let type := snd kt in
       match exec (attrRe key type) body with
       | Some x =>
           let m1 := or_empty (group body x 1) in
           if str_eqb type (js "date") then
             match parseDate m1 with
             | Some date => set_key key date fields
             | None => fields
             end
           else set_key key m1 fields
       | None => fields
       end)
    attrs [].

(** [/^<\s*html[^>]*>/i] *)
Definition htmlRe : regex :=
  Seq Bol
 (Seq (Chr (chr_is "<"))
 (Seq (Star true ws)
 (Seq (Lit true (js "html"))
 (Seq (Star true (Chr (fun c => negb (chr_is ">" c))))
      (Chr (chr_is ">")))))).

Definition isHtml (str : jsstring) : bool := test htmlRe str.

(** [/\r?\n/g] *)
Definition newlineRe : regex := Seq (Opt (Chr (N.eqb 13))) (Chr (N.eqb 10)).

(** One round of the text-mode loop of [removeComments]. *)
Definition cutAt (result : jsstring) (delimiter : regex) : jsstring :=
  match search delimiter result with
  | Some i => substring 0 i result
  | None => result
  end.

Definition removeComments (rt : Runtime) (config : RestConfig) (body : jsstring)
  : jsstring :=
  let delimiters := commentDelimiters config in
  let shouldTruncate :=
    truncateCommentsAfterDelimiter config && negb (Nat.eqb (length delimiters) 0) in
  if negb shouldTruncate then body
  else if negb (isHtml body) then
    let result := fold_left cutAt delimiters body in
    replace_all newlineRe (js "<br>") result
  else htmlRemoveComments rt delimiters body.

(* ===================================================================== *)
(** * The mailbox structure check of [imap.js] *)
(* ===================================================================== *)

(** A node of the hierarchy that [conn.getBoxes] returns: [children] is
    [null] or an object of boxes. *)
Inductive Box : Type :=
| mkBox (children : option (list (jsstring * Box))).

Definition children (b : Box) : option (list (jsstring * Box)) :=
  match b with mkBox c => c end.

(** The state of one round of the loop: the [checked] flag and the error
    lines written so far. *)
Definition logCheckResult (boxName : jsstring) (result : bool)
           (st : bool * list jsstring) : bool * list jsstring :=
  let '(checked, errors) := st in
  (if negb result && checked then false else checked,
   if negb result then errors ++ [boxName] else errors).

(** [children && box in children] *)
Definition childExists (c : option (list (jsstring * Box))) (box : jsstring) : bool :=
  match c with
  | None => false
  | Some o => js_in box o
  end.

(** [boxes[name].children] once [name in boxes] holds: the children of the
    box listed under the name; a name that is only inherited holds a
    built-in of [Object.prototype], which has no [children]. *)
Definition childrenOf (boxes : list (jsstring * Box)) (name : jsstring)
  : option (list (jsstring * Box)) :=
  match lookup name boxes with
  | Some b => children b
  | None => None
  end.

Definition checkName (delimiter : option jsstring)
           (boxes : list (jsstring * Box)) (name : jsstring) (cfg : BoxConfig)
           (errors : list jsstring) : bool * list jsstring :=
  if js_in name boxes then
    let st := logCheckResult name true (true, errors) in
    let children := childrenOf boxes name in
    let delimiter := match delimiter with
                     | Some (c :: d) => c :: d
                     | _ => js "/"
                     end in
    let box := success cfg in
    let tmpBoxName := name ++ delimiter ++ box in
    let st := logCheckResult tmpBoxName (childExists children box) st in
    let box := failure cfg in
    let tmpBoxName := name ++ delimiter ++ box in
    logCheckResult tmpBoxName (childExists children box) st
  else logCheckResult name true (true, errors).

Record CheckResult := {
  passed : list jsstring;
  failed : list jsstring;
  logged : list jsstring
}.

(** The [forEach] over [Object.keys(config)]. *)
Definition checkConfig (delimiter : option jsstring)
           (config : list (jsstring * BoxConfig)) (boxes : list (jsstring * Box))
  : CheckResult :=
  fold_left
    (fun acc nc =>
       let name := fst nc in
       let '(checked, errors) := checkName delimiter boxes name (snd nc) (logged acc) in
       if checked
       then {| passed := passed acc ++ [name]; failed := failed acc; logged := errors |}
       else {| passed := passed acc; failed := failed acc ++ [name]; logged := errors |})
    config {| passed := []; failed := []; logged := [] |}.


(* ===================================================================== *)
(** * Messages, requests and promises *)
(* ===================================================================== *)

Record Attachment := {
  fileName : jsstring;
  contentType : jsstring;
  att_length : Z;
  (* the decoded bytes; [None] when [content] is not a Buffer, as for the
     structural parts collected before the full fetch *)
  content : option (list N)
}.

(** The mutable message object.  [parsedFields] is [None] until the body
    has been fetched and parsed. *)
Record Message := {
  uid : Z;
  header : list (jsstring * list jsstring);
  attachments : list Attachment;
  body : jsstring;
  parsedFields : option (list (jsstring * jsstring))
}.

(** What MailParser hands over; [text] stands for [mail.text] of a mail
    that has a text alternative whenever [html] is missing or empty. *)
Record Mail := {
  html : option jsstring;
  text : jsstring;
  mail_attachments : option (list Attachment)
}.

(** The options object given to [request]. *)
Record request := {
  uri : jsstring;
  method : jsstring;
  auth : val;
  reqHeaders : list (jsstring * jsstring);
  reqBody : val;
  json : bool
}.

Inductive fetch_reply : Type :=
| FetchError
| FetchMail (mail : Mail).

(** The arguments of a [request] callback: a transport error without a
    response, or a response with its status and, when the body is JSON, the
    parsed body. *)
Inductive http_reply : Type :=
| TransportError
| Response (statusCode : Z) (body : option val).

Inductive outcome : Type :=
| Resolved (v : val)
| Rejected (v : val).

(** A promise is the tree of the I/O it still waits for.  [Crashed] is an
    exception thrown in a plain library callback: nothing catches it and the
    promise never settles. *)
Inductive promise : Type :=
| Settled (o : outcome)
| Crashed
| ReadMessage (k : Message -> promise)
| WriteMessage (m : Message) (k : promise)
| ImapFetch (uid : Z) (k : fetch_reply -> promise)
| ImapMove (uid : Z) (boxName : val) (k : bool -> promise)
| HttpRequest (options : request) (k : http_reply -> promise).

Definition resolve (v : val) : promise := Settled (Resolved v).
Definition reject (v : val) : promise := Settled (Rejected v).

(** Continue with [f] once [p] has settled. *)
Fixpoint settle (p : promise) (f : outcome -> promise) : promise :=
  match p with
  | Settled o => f o
  | Crashed => Crashed
  | ReadMessage k => ReadMessage (fun m => settle (k m) f)
  | WriteMessage m k => WriteMessage m (settle k f)
  | ImapFetch u k => ImapFetch u (fun r => settle (k r) f)
  | ImapMove u b k => ImapMove u b (fun r => settle (k r) f)
  | HttpRequest o k => HttpRequest o (fun r => settle (k r) f)
  end.

(** [p.then(f)] *)
Definition then_ (p : promise) (f : val -> promise) : promise :=
  settle p (fun o => match o with
                     | Resolved v => f v
                     | Rejected e => reject e
                     end).

(** [p.catch(f)] *)
Definition catch_ (p : promise) (f : val -> promise) : promise :=
  settle p (fun o => match o with
                     | Resolved v => resolve v
                     | Rejected e => f e
                     end).

(** Modelled from the spec: the repository's [promise-finally] module, which
    installs [Promise.prototype.finally], is not among the sources.  The
    callback runs however [p] settles; [p]'s settlement is passed on unless
    the callback returns a rejected promise, which
    alters the downstream state to that rejection. *)
Definition finally_ (p : promise) (cb : promise) : promise :=
  settle p (fun o =>
    settle cb (fun o' => match o' with
                         | Resolved _ => Settled o
                         | Rejected e => reject e
                         end)).

(** The body of a promise callback: a thrown exception rejects. *)
Definition callback (c : completion promise) : promise :=
  match c with
  | Normal p => p
  | Throw e => reject e
  end.

(** The body of a [try] block whose [catch] settles the promise with [h]. *)
Definition try_catch (c : completion outcome) (h : val -> outcome) : outcome :=
  match c with
  | Normal o => o
  | Throw e => h e
  end.

(** ** Running a promise against the outside world *)

Inductive event : Type :=
| EvFetch (uid : Z)
| EvMove (uid : Z) (boxName : val)
| EvRequest (options : request).

(** The replies of the IMAP server and of the REST interface, which may
    depend on everything issued so far. *)
Record World := {
  fetchReply : list event -> Z -> fetch_reply;
  moveError : list event -> Z -> val -> bool;
  httpReply : list event -> request -> http_reply
}.

Record Run := {
  settled : option outcome;             (* [None]: crashed *)
  final : Message;
  trace : list event
}.

Fixpoint run (w : World) (p : promise) (msg : Message) (tr : list event) : Run :=
  match p with
  | Settled o => {| settled := Some o; final := msg; trace := tr |}
  | Crashed => {| settled := None; final := msg; trace := tr |}
  | ReadMessage k => run w (k msg) msg tr
  | WriteMessage m k => run w k m tr
  | ImapFetch u k => run w (k (fetchReply w tr u)) msg (tr ++ [EvFetch u])
  | ImapMove u b k => run w (k (moveError w tr u b)) msg (tr ++ [EvMove u b])
  | HttpRequest o k => run w (k (httpReply w tr o)) msg (tr ++ [EvRequest o])
  end.

Definition is_move (e : event) : bool :=
  match e with EvMove _ _ => true | _ => false end.

Definition moves (tr : list event) : list event := filter is_move tr.

(* ===================================================================== *)
(** * The REST client ([rest.js]) *)
(* ===================================================================== *)

(** Lines written to the logger are not part of the model. *)
Module Rest.

Definition header0 (name : jsstring) (message : Message) : completion val :=
  match lookup name (header message) with
  | None => Throw TypeError             (* [undefined[0]] *)
  | Some [] => Normal VUndefined
  | Some (x :: _) => Normal (VStr x)
  end.

Definition default (config : RestConfig) (key : jsstring) : val :=
  match lookup key (defaultIssueAttrs config) with
  | Some v => v
  | None => VUndefined
  end.

Definition parsed (body : option val) : completion val :=
  match body with
  | Some v => Normal v
  | None => Throw (VError "SyntaxError")   (* [JSON.parse] throws *)
  end.

(** *** getPersonIdByEmail *)

Definition personOptions (config : RestConfig) (path address : jsstring) : request :=
  {| uri := path ++ js "?" ++ js "email=" ++ address;
     method := js "GET";
     auth := getAuthObject config;
     reqHeaders := [];
     reqBody := VUndefined;
     json := false |}.

Definition personResponse (email : val) (reply : http_reply) : outcome :=
  match reply with
  | TransportError => Rejected email
  | Response _ body =>
      try_catch
        (let! result := parsed body in
         let! returnCode := prop result (js "ReturnCode") in
         if negb (strict_eq returnCode (VNum 0)) then Normal (Rejected email)
         else
           let! count := prop result (js "@count") in
           if strict_eq count (VNum 0) then Normal (Rejected email)
           else
             let! resourceName := prop result (js "ResourceName") in
             let! content := prop result (js "content") in
             let! c0 := first content in
             let! resource := prop c0 (to_string resourceName) in
             let! id := prop resource (js "Id") in
             Normal (Resolved id))
        (fun _ => Rejected email)
  end.

(** The result is [Normal None] when the function falls off its end and
    returns [undefined]. *)
Definition getPersonIdByEmail (config : RestConfig) (email : val)
  : completion (option promise) :=
  let! path := getModelPath config (js "Persons") in
  let! address := parseEmailAddress email in
  if negb (truthy (VStr address)) then Normal None
  else Normal (Some (HttpRequest (personOptions config path address)
                       (fun reply => Settled (personResponse email reply)))).

(** *** getIssueFromSubject *)

Definition issueOptions (config : RestConfig) (path issueId : jsstring) : request :=
  {| uri := path ++ js "/" ++ issueId;
     method := js "GET";
     auth := getAuthObject config;
     reqHeaders := [];
     reqBody := VUndefined;
     json := false |}.

Definition issueResponse (issueId : jsstring) (reply : http_reply) : outcome :=
  match reply with
  | TransportError => Rejected (VStr issueId)
  | Response _ body =>
      try_catch
        (let! result := parsed body in
         let! returnCode := prop result (js "ReturnCode") in
         if negb (strict_eq returnCode (VNum 0)) then Normal (Rejected (VStr issueId))
         else
           let! issue := prop result (js "ZIssue") in
           let! _ := prop issue (js "Id") in      (* read for the log line *)
           Normal (Resolved issue))
        (fun _ => Rejected (VStr issueId))
  end.

Definition getIssueFromSubject (config : RestConfig) (message : Message)
  : completion promise :=
  let! subject := header0 (js "subject") message in
  let! path := getModelPath config (js "Issues") in
  let issueId := parseId (js "SRQ") subject in
  if negb (truthy (VStr issueId)) then Normal (reject (VStr issueId))
  else Normal (HttpRequest (issueOptions config path issueId)
                 (fun reply => Settled (issueResponse issueId reply))).

(** *** makeIssue

    The issue object without its [parsedFields] property, which is the
    very object that [message.parsedFields] refers to and is read and
    updated through the message. *)
Definition makeIssue (message : Message) : completion val :=
  let! title := header0 (js "subject") message in
  Normal (VObj [(js "id", VNull);
                (js "title", title);
                (js "description", VStr (body message));
                (js "externalId", VNum (uid message))]).

(** *** getTimezoneOffsetByPersonId *)

Definition timezoneQuery (personId : val) : jsstring :=
  js "SELECT ISNULL(tzo.offset, tzo1.offset) AS OFFSET" ++ js " " ++
  js "FROM dbo.z_persons AS p" ++ js " " ++
  js "LEFT JOIN dbo.z_time_zones tz ON p.time_zone_id = tz.id" ++ js " " ++
  js "LEFT JOIN dbo.z_time_zone_offsets tzo ON tz.id = tzo.time_zone_id" ++ js " " ++
  js "CROSS JOIN dbo.z_system_settings AS ss" ++ js " " ++
  js "LEFT JOIN dbo.z_time_zone_offsets AS tzo1 ON tzo1.time_zone_id = ss.time_zone_id" ++ js " " ++
  (js "WHERE p.id = '" ++ to_string personId
     ++ js "' AND (tzo.switched_on <= GETUTCDATE() OR tzo1.switched_on <= GETUTCDATE())")
  ++ js " " ++
  js "ORDER BY tzo.switched_on DESC, tzo1.switched_on DESC".

Definition dbOptions (config : RestConfig) (query : jsstring) : request :=
  {| uri := dbQueryUri config;
     method := js "POST";
     auth := VUndefined;
     reqHeaders := [(js "Content-Type", js "text/plain")];
     reqBody := VStr query;
     json := false |}.

Definition is200 (statusCode : Z) : bool := Z.eqb statusCode 200.

(** [!result.results || !result.results.length] *)
Definition noResults (result : val) : completion bool :=
  let! results := prop result (js "results") in
  if negb (truthy results) then Normal true
  else
    let! len := prop results (js "length") in
    Normal (negb (truthy len)).

Definition timezoneResponse (personId : val) (reply : http_reply) : outcome :=
  match reply with
  | TransportError => Rejected personId
  | Response statusCode body =>
      if negb (is200 statusCode) then Rejected personId
      else
        try_catch
          (let! result := parsed body in
           let! none := noResults result in
           if none then Normal (Rejected personId)
           else
             let! results := prop result (js "results") in
             let! r0 := first results in
             let! offset := prop r0 (js "OFFSET") in
             if negb (truthy offset) then Normal (Rejected personId)
             else Normal (Resolved offset))
          (fun _ => Rejected personId)
  end.

Definition getTimezoneOffsetByPersonId (config : RestConfig) (personId : val)
  : promise :=
  let id := parseId (js "PRS") personId in
  if negb (truthy (VStr id)) then reject personId
  else HttpRequest (dbOptions config (timezoneQuery personId))
         (fun reply => Settled (timezoneResponse personId reply)).

(** *** createIssue *)

(** [updateDates]: [Object.keys] throws on a missing object. *)
Definition updateDates (rt : Runtime) (obj : option (list (jsstring * jsstring)))
           (timeZone : val) : completion (list (jsstring * jsstring)) :=
  match obj with
  | None => Throw TypeError
  | Some fields =>
      Normal (map (fun kv =>
                     if dateParses rt (snd kv)
                     then (fst kv, snd kv ++ to_string (js_or timeZone (VStr (js "+00:00"))))
                     else kv)
                  fields)
  end.

Definition strings (o : list (jsstring * jsstring)) : list (jsstring * val) :=
  map (fun kv => (fst kv, VStr (snd kv))) o.

(** [Object.assign({}, defaults, issue.parsedFields, fields)] *)
Definition getIssueObj (config : RestConfig)
           (parsedFields : option (list (jsstring * jsstring)))
           (fields : list (jsstring * val)) : val :=
  let withDefaults := assign [] (defaultIssueAttrs config) in
  let withParsed := match parsedFields with
                    | Some pf => assign withDefaults (strings pf)
                    | None => withDefaults
                    end in
  VObj (assign withParsed fields).

Definition postOptions (config : RestConfig) (uri : jsstring)
           (resource : string) (obj : val) : request :=
  {| uri := uri;
     method := js "POST";
     auth := getAuthObject config;
     reqHeaders := [];
     reqBody := VObj [(js resource, obj)];
     json := true |}.

(** The [processResponse] of [createIssue] and [createComment], which
    differ in the id prefix and the error text.  On an error or a status
    other than 200 the handler first logs
    [response.body.Messages.join(', ')], which throws outside any promise
    unless the response carries an array of messages. *)
Definition createResponse (prefix : string) (err : string) (reply : http_reply)
  : promise :=
  match reply with
  | TransportError => Crashed           (* [response] is undefined *)
  | Response statusCode body =>
      if negb (is200 statusCode) then
        match body with
        | Some b =>
            match prop b (js "Messages") with
            | Normal (VArr _) => reject (VStr (js err))
            | _ => Crashed
            end
        | None => Crashed
        end
      else
        Settled
          (try_catch
             (match body with
              | None => Normal (Rejected VNull)
              | Some b =>
                  let! returnCode := prop b (js "ReturnCode") in
                  if negb (strict_eq returnCode (VNum 0)) then Normal (Rejected VNull)
                  else
                    let! messages := prop b (js "Messages") in
                    let! message := first messages in
                    let id := parseId (js prefix) message in
                    if truthy (VStr id) then Normal (Resolved (VStr id))
                    else Normal (Rejected VNull)
              end)
             (fun e => Rejected e))
  end.

Definition issueFields (rt : Runtime) (config : RestConfig) (issue : val)
  : completion (list (jsstring * val)) :=
  let! id := prop issue (js "id") in
  let! title := prop issue (js "title") in
  let! description := prop issue (js "description") in
  let! externalId := prop issue (js "externalId") in
  Normal [(js "authorId", js_or id (default config (js "authorId")));
          (js "customerId", js_or id VNull);
          (js "title", title);
          (js "description", description);
          (js "createdOn", now rt);
          (js "startedOn", now rt);
          (js "externalId", externalId)].

(** One branch of the timezone chain: update the date fields in place. *)
Definition storeDates (rt : Runtime) (timeZone : val) : promise :=
  ReadMessage (fun message =>
    callback
      (let! updated := updateDates rt (parsedFields message) timeZone in
       Normal (WriteMessage
                 {| uid := uid message; header := header message;
                    attachments := attachments message; body := body message;
                    parsedFields := Some updated |}
                 (resolve VUndefined)))).

(** The promise is settled by the response handler of the POST, which the
    [finally] callback issues however the timezone chain ends. *)
Definition createIssue (rt : Runtime) (config : RestConfig) (issue : val)
  : completion promise :=
  let! uri := getModelPath config (js "Issues") in
  let! fields := issueFields rt config issue in
  let person := js_or (or_undefined (lookup (js "customerId") fields))
                      (or_undefined (lookup (js "authorId") fields)) in
  Normal
    (settle
       (catch_
          (then_ (getTimezoneOffsetByPersonId config person)
                 (fun offset => storeDates rt offset))
          (fun _ => storeDates rt VUndefined))
       (fun _ =>
          ReadMessage (fun message =>
            HttpRequest
              (postOptions config uri "ZIssue"
                 (getIssueObj config (parsedFields message) fields))
              (createResponse "SRQ" "Error inserting a new issue")))).

(** *** createComment *)

Definition commentFields (rt : Runtime) (config : RestConfig) (comment : val)
  : completion (list (jsstring * val)) :=
  let! authorId := prop comment (js "authorId") in
  let! description := prop comment (js "description") in
  let! issueId := prop comment (js "issueId") in
  Normal [(js "authorId", js_or authorId (default config (js "authorId")));
          (js "comment", description);
          (js "createdOn", now rt);
          (js "foreignKey", issueId);
          (js "isPublic", VBool true)].

Definition createComment (rt : Runtime) (config : RestConfig) (comment : val)
  : completion promise :=
  let! uri := getModelPath config (js "Comments") in
  let! fields := commentFields rt config comment in
  let commentObj := VObj (assign [] fields) in
  Normal (HttpRequest (postOptions config uri "ZComment" commentObj)
            (createResponse "CMT" "Error inserting a new comment")).

(** *** The attachment streams *)

Definition attachmentOptions (rt : Runtime) (config : RestConfig)
           (path : jsstring) (id : val) (filename contentType : jsstring) : request :=
  {| uri := path ++ js "/" ++ to_string id ++ js "/attachments";
     method := js "POST";
     auth := getAuthObject config;
     reqHeaders :=
       [(js "Content-Type", contentType);
        (js "Content-Disposition",
         js "attachment;filename*=UTF-8''" ++ encodeURIComponent rt filename)];
     reqBody := VUndefined;
     json := false |}.

(** The [processResponse] of [getIssueAttachmentStream] resolves whatever
    happens. *)
Definition attachmentError (filename : jsstring) (messageUid : Z) : val :=
  VStr (js "Error saving attachment '" ++ filename
          ++ js "' for msg uid:" ++ decimal messageUid).

Definition issueAttachmentResponse (issueId : val) (err : val) (reply : http_reply)
  : outcome :=
  match reply with
  | TransportError => Resolved (VError "Error")
  | Response statusCode body =>
      if negb (is200 statusCode) then Resolved err
      else
        try_catch
          (let! result := parsed body in
           let! returnCode := prop result (js "ReturnCode") in
           if negb (strict_eq returnCode (VNum 0)) then Normal (Resolved VNull)
           else Normal (Resolved issueId))
          (fun e => Resolved e)
  end.

(** The [processResponse] of [getCommentAttachmentStream] rejects on
    every failure. *)
Definition commentAttachmentResponse (commentId : val) (err : val)
           (reply : http_reply) : outcome :=
  match reply with
  | TransportError => Rejected (VError "Error")
  | Response statusCode body =>
      if negb (is200 statusCode) then Rejected err
      else
        try_catch
          (let! result := parsed body in
           let! returnCode := prop result (js "ReturnCode") in
           if negb (strict_eq returnCode (VNum 0)) then Normal (Rejected VNull)
           else Normal (Resolved commentId))
          (fun e => Rejected e)
  end.

(** *** checkSpamByPersonId *)

Definition spamQuery (config : RestConfig) (personId : val) : jsstring :=
  js "SELECT COUNT(*) AS ISSUES" ++ js " " ++
  js "FROM Z_ISSUES" ++ js " " ++
  (js "WHERE CUSTOMER_ID = '" ++ to_string personId ++ js "'") ++ js " " ++
  (js "AND DATEDIFF(MINUTE, CREATED_ON, GETUTCDATE()) <= "
     ++ decimal (timeSpan (spam config))).

(** [indexOf(personId) !== -1] over the configured strings. *)
Definition indexOfFound (l : list jsstring) (v : val) : bool :=
  existsb (fun a => strict_eq (VStr a) v) l.

(** [spam.headers.some(header => !!message.header[header])]: a header
    that is present holds an array, which is truthy. *)
Definition hasSpamHeaders (config : RestConfig) (message : Message) : bool :=
  existsb (fun h => has_key h (header message)) (headers (spam config)).

(** [v > n] where the count is a number, a boolean, [null], [undefined]
    or a run of decimal digits.  The conversion of other strings and of
    arrays is not modelled: they compare as NaN does. *)
Definition js_gt (v : val) (n : Z) : bool :=
  match v with
  | VNum z => Z.ltb n z
  | VBool b => Z.ltb n (if b then 1 else 0)
  | VNull => Z.ltb n 0
  | VStr s => all_digits s && Z.ltb n (number_of s)
  | _ => false
  end.

Definition spamResponse (config : RestConfig) (personId : val) (reply : http_reply)
  : outcome :=
  match reply with
  | TransportError => Resolved personId
  | Response statusCode body =>
      if negb (is200 statusCode) then Resolved personId
      else
        try_catch
          (let! result := parsed body in
           let! none := noResults result in
           if none then Normal (Resolved personId)
           else
             let! results := prop result (js "results") in
             let! r0 := first results in
             let! issues := prop r0 (js "ISSUES") in
             if js_gt issues (maxNumOfIssues (spam config))
             then Normal (Rejected personId)
             else Normal (Resolved personId))
          (fun _ => Resolved personId)
  end.

Definition checkSpamByPersonId (config : RestConfig) (personId : val)
           (message : Message) : promise :=
  if indexOfFound (dontCheckAuthors (spam config)) personId then resolve personId
  else if hasSpamHeaders config message then reject personId
  else HttpRequest (dbOptions config (spamQuery config personId))
         (fun reply => Settled (spamResponse config personId reply)).

End Rest.

(* ===================================================================== *)
(** * The message pipeline of [imap.js] *)
(* ===================================================================== *)

Record Conn := {
  config : ServerConfig;
  delimiter : option jsstring;          (* the hierarchy delimiter, once known *)
  isRunning : bool
}.

Section Pipeline.

Variable rt : Runtime.
Variable restConfig : RestConfig.

(** [conn.delimiter || ''] *)
Definition delimiterOrEmpty (conn : Conn) : jsstring :=
  or_empty (delimiter conn).

(** [boxConfig[boxName].success]: a TypeError for a name that is not
    configured, unless the name is inherited: the built-in it holds has no
    [success], which prints as [undefined]. *)
Definition getSuccessBoxName (conn : Conn) (boxName : jsstring) : completion val :=
  match lookup boxName (mailboxConfig (config conn)) with
  | Some boxConfig =>
      Normal (VStr (boxName ++ delimiterOrEmpty conn ++ success boxConfig))
  | None =>
      if inherited boxName
      then Normal (VStr (boxName ++ delimiterOrEmpty conn ++ js "undefined"))
      else Throw TypeError
  end.

Definition getFailureBoxName (conn : Conn) (boxName : jsstring) : completion val :=
  match lookup boxName (mailboxConfig (config conn)) with
  | Some boxConfig =>
      Normal (VStr (boxName ++ delimiterOrEmpty conn ++ failure boxConfig))
  | None =>
      if inherited boxName
      then Normal (VStr (boxName ++ delimiterOrEmpty conn ++ js "undefined"))
      else Throw TypeError
  end.

(** [moveMessageFn(conn, boxName)(message)]: the guard on a missing box
    name drops its rejected promise, so the move is issued all the same. *)
Definition moveMessageFn (boxName : val) (message : Message) : promise :=
  ImapMove (uid message) boxName
    (fun err => if err then reject (VNum (uid message))
                else resolve (VNum (uid message))).

Definition withBody (message : Message) (mail : Mail) : Message :=
  let mailBody := match html mail with
                  | Some (c :: h) => c :: h
                  | _ => text mail
                  end in
  {| uid := uid message;
     header := header message;
     attachments := match mail_attachments mail with
                    | Some l => l
                    | None => []
                    end;
     body := removeComments rt restConfig mailBody;
     parsedFields := Some (parsePermittedAttributes rt restConfig mailBody) |}.

Definition getMessageBody (message : Message) : promise :=
  ImapFetch (uid message)
    (fun reply =>
       match reply with
       | FetchError => reject (VMessage (uid message))
       | FetchMail mail =>
           ReadMessage (fun message =>
             WriteMessage (withBody message mail)
               (resolve (VMessage (uid message))))
       end).

Definition saveEmlAsAttachment (message : Message) (issueId : val) : promise :=
  let messageUid := uid message in
  let filename := decimal messageUid ++ js "-message.eml" in
  if negb (joinOriginalAsEml restConfig) then resolve VUndefined
  else
    ImapFetch messageUid
      (fun reply =>
         match reply with
         | FetchError => resolve issueId
         | FetchMail _ =>
             (* the 'message' handler opens the upload *)
             match getModelPath restConfig (js "Issues") with
             | Throw _ => Crashed
             | Normal path =>
                 HttpRequest
                   (Rest.attachmentOptions rt restConfig path issueId filename
                      (js "message/rfc822"))
                   (fun reply =>
                      Settled (Rest.issueAttachmentResponse issueId
                                 (Rest.attachmentError filename messageUid) reply))
             end
         end).

(** [saveOneAttachment]: the request of one attachment, if its executor
    gets as far as issuing one; its own settlement is of no consequence,
    as the caller resolves with the message whatever happens. *)
Definition saveOneAttachment (isIssue : bool) (id : val) (attachment : Attachment)
           (next : promise) : promise :=
  match content attachment with
  | None => next                        (* [new BufferStream] throws *)
  | Some _ =>
      match getModelPath restConfig (js (if isIssue then "Issues" else "Comments")) with
      | Throw _ => next
      | Normal path =>
          HttpRequest
            (Rest.attachmentOptions rt restConfig path id
               (fileName attachment) (contentType attachment))
            (fun _ => next)
      end
  end.

(** The uploads are issued together by [Promise.all]; the model issues
    them in the same order and takes their replies one by one. *)
Definition saveMessageAttachments (isIssue : bool) (id : val) : promise :=
  if negb (joinAttachments restConfig) then resolve VUndefined
  else
    ReadMessage (fun message =>
      fold_right (saveOneAttachment isIssue id)
        (resolve (VMessage (uid message)))
        (attachments message)).

(** The [comment] literal of [doCreateComment]. *)
Definition commentOf (issueId : val) (message : Message) : list (jsstring * val) :=
  [(js "authorId", VNull);
   (js "issueId", issueId);
   (js "description", VStr (body message))].

(** [rest.createComment(comment).then(save).then(moveOk).catch(moveKo)],
    the part the two branches of [doCreateComment] share. *)
Definition commentAndMove (successBox failureBox : val) (message : Message)
           (comment : val) : completion promise :=
  let! created := Rest.createComment rt restConfig comment in
  Normal
    (catch_
       (then_
          (then_ created
                 (fun commentId => saveMessageAttachments false commentId))
          (fun _ => catch_ (moveMessageFn successBox message)
                           (fun _ => resolve VUndefined)))
       (fun _ => moveMessageFn failureBox message)).

(** The callback of [doCreateComment] that runs once the body is there. *)
Definition commentOnceFetched (successBox failureBox issue : val) : promise :=
  ReadMessage (fun message =>
    callback
      (let! email := Rest.header0 (js "from") message in
       let! issueId := prop issue (js "Id") in
       let comment := commentOf issueId message in
       let! person := Rest.getPersonIdByEmail restConfig email in
       match person with
       | None => Throw TypeError      (* [undefined.catch] *)
       | Some person =>
           Normal
             (finally_
                (then_
                   (then_
                      (then_
                         (catch_ person
                            (fun _ =>
                               callback
                                 (let! moved := commentAndMove successBox failureBox
                                                  message (VObj comment) in
                                  Normal (finally_ moved (reject VUndefined)))))
                         (fun authorId =>
                            catch_
                              (then_ (Rest.checkSpamByPersonId restConfig authorId message)
                                     (fun authorId => resolve authorId))
                              (fun _ => finally_ (moveMessageFn failureBox message)
                                                 (reject VUndefined))))
                      (fun authorId =>
                         resolve (VObj (assign (assign [] comment)
                                          [(js "authorId", authorId)]))))
                   (fun comment =>
                      callback
                        (let! moved := commentAndMove successBox failureBox
                                         message comment in
                         Normal (finally_ moved (resolve VUndefined)))))
                (resolve VUndefined))
       end)).

Definition doCreateComment (conn : Conn) (boxName : jsstring) (issue : val)
           (message : Message) : completion promise :=
  let! successBox := getSuccessBoxName conn boxName in
  let! failureBox := getFailureBoxName conn boxName in
  Normal
    (catch_
       (then_ (getMessageBody message)
              (fun _ => commentOnceFetched successBox failureBox issue))
       (fun _ => resolve VUndefined)).

(** [createIssue(issue).catch(ko).then(eml).then(save).then(moveOk)] *)
Definition issueAndMove (successBox : val) (message : Message)
           (created : promise) (onFailure : promise) : promise :=
  then_
    (then_
       (then_
          (catch_ created (fun _ => onFailure))
          (fun issueId => saveEmlAsAttachment message issueId))
       (fun issueId => saveMessageAttachments true issueId))
    (fun _ => moveMessageFn successBox message).

Definition doCreateIssue (conn : Conn) (boxName : jsstring) (message : Message)
  : completion promise :=
  let createSystemIssue := createSystemIssue (onPersonNotFound restConfig) in
  let! email := Rest.header0 (js "from") message in
  let! successBox := getSuccessBoxName conn boxName in
  let! failureBox := getFailureBoxName conn boxName in
  Normal
    (then_
       (then_
          (catch_
             (then_ (getMessageBody message)
                (fun _ =>
                   callback
                     (let! person := Rest.getPersonIdByEmail restConfig email in
                      match person with
                      | None => Normal (resolve VUndefined)
                      | Some person => Normal person
                      end)))
             (fun _ =>
                if createSystemIssue then
                  ReadMessage (fun message =>
                    callback
                      (let! issue := Rest.makeIssue message in
                       let! created := Rest.createIssue rt restConfig issue in
                       Normal
                         (finally_
                            (issueAndMove successBox message created
                               (finally_ (moveMessageFn failureBox message)
                                         (reject VUndefined)))
                            (reject VUndefined))))
                else
                  finally_ (moveMessageFn failureBox message) (reject VUndefined)))
          (fun authorId =>
             then_
               (catch_ (Rest.checkSpamByPersonId restConfig authorId message)
                       (fun _ => finally_ (moveMessageFn failureBox message)
                                          (reject VUndefined)))
               (fun authorId => resolve authorId)))
       (fun id =>
          ReadMessage (fun message =>
            callback
              (let! made := Rest.makeIssue message in
               let! fields := match made with
                              | VObj o => Normal o
                              | _ => Throw TypeError
                              end in
               let issue := VObj (assign (assign [] fields) [(js "id", id)]) in
               let! created := Rest.createIssue rt restConfig issue in
               Normal
                 (issueAndMove successBox message created
                    (then_ (moveMessageFn failureBox message)
                           (fun _ => reject VUndefined))))))).

(** [processMessage]: a synchronous throw of [getIssueFromSubject] leaves
    the function, the [map] and the event handler that called it. *)
Definition processMessage (conn : Conn) (boxName : jsstring) (message : Message)
  : completion promise :=
  if negb (isRunning conn) then Normal (reject VUndefined)
  else
    let! found := Rest.getIssueFromSubject restConfig message in
    Normal
      (catch_
         (then_ found
                (fun issue => callback (doCreateComment conn boxName issue message)))
         (fun _ => callback (doCreateIssue conn boxName message))).

End Pipeline.

(** ** The callback of [conn.getBoxes] in [checkBoxes] *)

Inductive getBoxes_reply : Type :=
| BoxesError (err : val)
| Boxes (boxes : list (jsstring * Box)).

(** How the promise of [checkBoxes] settles; [None] when the callback
    throws after its [reject(err)], there being no [return] in the error
    branch: [name in boxes] with [boxes] undefined. *)
Definition checkBoxes (conn : Conn) (reply : getBoxes_reply) : option outcome :=
  let names (l : list jsstring) := VArr (map VStr l) in
  match reply with
  | BoxesError err =>
      match mailboxConfig (config conn) with
      | [] => Some (Rejected err)
      | _ :: _ => None
      end
  | Boxes boxes =>
      let r := checkConfig (delimiter conn) (mailboxConfig (config conn)) boxes in
      if negb (Nat.eqb (length (passed r)) 0)
      then Some (Resolved (names (passed r)))
      else Some (Rejected (names (failed r)))
  end.

(** ** The dispatch of the fetched messages in [processBox]

    [Promise.all(messages.map(processMessage))]: the [map] calls
    [processMessage] on every message in turn, and only then do replies
    arrive, in any order, each for the one pipeline that awaits it. *)
Section Dispatch.

Variable rt : Runtime.
Variable restConfig : RestConfig.
Variable conn : Conn.
Variable boxName : jsstring.

(** One pipeline: what it waits for, its message object, and the calls
    that have been answered. *)
Record Task := {
  pending : promise;
  message : Message;
  answered : list event
}.

Inductive Notice : Type :=
| Started (uid : Z)                   (* [processMessage] is called *)
| Finished (uid : Z) (o : outcome)    (* its promise has settled *)
| Uncaught (uid : Z).                 (* an exception nobody catches *)

Record Loop := {
  tasks : list Task;
  journal : list Notice;
  crashed : bool
}.

(** The steps of a pipeline that need no reply. *)
Fixpoint advance (p : promise) (msg : Message) : promise * Message :=
  match p with
  | ReadMessage k => advance (k msg) msg
  | WriteMessage m k => advance k m
  | _ => (p, msg)
  end.

Definition startTask (p : promise) (m : Message) : Task :=
  {| pending := fst (advance p m); message := snd (advance p m); answered := [] |}.

(** [messages.map(processMessage)]: a throw ends the [map]. *)
Fixpoint mapProcess (messages : list Message) : list Task * list Notice * bool :=
  match messages with
  | [] => ([], [], false)
  | m :: rest =>
      match processMessage rt restConfig conn boxName m with
      | Throw _ => ([], [Started (uid m); Uncaught (uid m)], true)
      | Normal p =>
          let '(ts, notices, thrown) := mapProcess rest in
          (startTask p m :: ts, Started (uid m) :: notices, thrown)
      end
  end.

Definition notice (t : Task) : list Notice :=
  match pending t with
  | Settled o => [Finished (uid (message t)) o]
  | Crashed => [Uncaught (uid (message t))]
  | _ => []
  end.

Definition hasCrashed (t : Task) : bool :=
  match pending t with Crashed => true | _ => false end.

(** The state when the handler that ran the [map] returns; promises that
    are settled by then are noticed afterwards, callbacks being deferred. *)
Definition start (messages : list Message) : Loop :=
  let '(ts, notices, thrown) := mapProcess messages in
  {| tasks := ts;
     journal := notices ++ (if thrown then [] else flat_map notice ts);
     crashed := thrown |}.

Inductive Reply : Type :=
| FetchReply (r : fetch_reply)
| MoveReply (err : bool)
| HttpReply (r : http_reply).

Definition continue (t : Task) (p : promise) (e : event) : Task :=
  {| pending := fst (advance p (message t));
     message := snd (advance p (message t));
     answered := answered t ++ [e] |}.

(** A reply resumes a pipeline that waits for a call of its kind. *)
Definition answer (t : Task) (r : Reply) : option Task :=
  match pending t, r with
  | ImapFetch u k, FetchReply x => Some (continue t (k x) (EvFetch u))
  | ImapMove u b k, MoveReply x => Some (continue t (k x) (EvMove u b))
  | HttpRequest o k, HttpReply x => Some (continue t (k x) (EvRequest o))
  | _, _ => None
  end.

Fixpoint replace {A} (i : nat) (x : A) (l : list A) : list A :=
  match l, i with
  | [], _ => []
  | _ :: l', 0 => x :: l'
  | y :: l', S i' => y :: replace i' x l'
  end.

(** One turn of the event loop: the reply [r] arrives for pipeline [i]. *)
Definition deliver (l : Loop) (d : nat * Reply) : Loop :=
  if crashed l then l
  else
    match nth_error (tasks l) (fst d) with
    | None => l
    | Some t =>
        match answer t (snd d) with
        | None => l
        | Some t' =>
            {| tasks := replace (fst d) t' (tasks l);
               journal := journal l ++ notice t';
               crashed := hasCrashed t' |}
        end
    end.

Definition dispatch (messages : list Message) (schedule : list (nat * Reply)) : Loop :=
  fold_left deliver schedule (start messages).



End Dispatch.




(* ===================================================================== *)
(** * The structure walkers of [imap.js] *)
(* ===================================================================== *)

(** [toUpperCase] and [toLowerCase] of strings, which follow the Unicode
    tables of the engine. *)
Record Casing := {
  toUpperCase : jsstring -> jsstring;
  toLowerCase : jsstring -> jsstring
}.

(** [l.reduce(f, init)] with a callback that may throw. *)
Definition reduce {A B} (f : B -> A -> completion B) : list A -> B -> completion B :=
  fix reduce (l : list A) (acc : B) : completion B :=
    match l with
    | [] => Normal acc
    | x :: l' => let! acc' := f acc x in reduce l' acc'
    end.

Section Struct.

Variable cs : Casing.

(** [~['INLINE', 'ATTACHMENT'].indexOf(type.toUpperCase())] as a truth
    value; only a string has the method. *)
Definition isAttachment (type : val) : completion bool :=
  match type with
  | VStr s =>
      Normal (existsb (str_eqb (toUpperCase cs s)) [js "INLINE"; js "ATTACHMENT"])
  | _ => Throw TypeError
  end.

(** [part.disposition && isAttachment(part.disposition.type)] *)
Definition hasAttachment (part : val) : completion bool :=
  let! disposition := prop part (js "disposition") in
  if truthy disposition then
    let! type := prop disposition (js "type") in
    isAttachment type
  else Normal false.

(** The body structure of a message is an array of parts and of nested
    arrays; anything else has no [reduce]. *)
Fixpoint findAttachmentParts (struct : val) : completion (list val) :=
  match struct with
  | VArr parts =>
      reduce
        (fun all part =>
           match part with
           | VArr _ =>
               let! found := findAttachmentParts part in
               Normal (all ++ found)
           | _ =>
               let! attached := hasAttachment part in
               Normal (if attached then all ++ [part] else all)
           end)
        parts []
  | _ => Throw TypeError
  end.

(** [type.toLowerCase() === 'text'] *)
Definition isText (type : val) : completion bool :=
  match type with
  | VStr s => Normal (str_eqb (toLowerCase cs s) (js "text"))
  | _ => Throw TypeError
  end.

(** [part.type.toLowerCase() === 'text' && !part.disposition] *)
Definition isBody (part : val) : completion bool :=
  let! type := prop part (js "type") in
  let! text := isText type in
  if text then
    let! disposition := prop part (js "disposition") in
    Normal (negb (truthy disposition))
  else Normal false.

Fixpoint findBodyParts (struct : val) : completion (list val) :=
  match struct with
  | VArr parts =>
      reduce
        (fun all part =>
           match part with
           | VArr _ =>
               let! found := findBodyParts part in
               Normal (all ++ found)
           | _ =>
               let! body := isBody part in
               Normal (if body then all ++ [part] else all)
           end)
        parts []
  | _ => Throw TypeError
  end.

End Struct.

(* ===================================================================== *)
(** * The buffer stream ([buffer-stream.js]) *)
(* ===================================================================== *)

Module BufferStream.

Record t := {
  _source : list N;
  _offset : nat;
  _length : nat
}.

(** [new BufferStream(source)]: [None] is a source that is not a Buffer. *)
Definition new (source : option (list N)) : completion t :=
  match source with
  | None => Throw Error
  | Some bytes => Normal {| _source := bytes; _offset := 0; _length := length bytes |}
  end.

(** What [_read] hands to [push]: a chunk, or [null] for the end. *)
Inductive pushed : Type :=
| Chunk (bytes : list N)
| EndOfStream.

(** [buffer.slice(start, end)] for [start <= end]; [end] may lie beyond
    the buffer. *)
Definition slice (start finish : nat) (buffer : list N) : list N :=
  firstn (finish - start) (skipn start buffer).

Definition _read (size : nat) (s : t) : t * list pushed :=
  let '(s1, out) :=
    if Nat.ltb (_offset s) (_length s) then
      ({| _source := _source s; _offset := _offset s + size; _length := _length s |},
       [Chunk (slice (_offset s) (_offset s + size) (_source s))])
    else (s, []) in
  if Nat.leb (_length s1) (_offset s1) then (s1, out ++ [EndOfStream]) else (s1, out).

Definition isEnd (p : pushed) : bool :=
  match p with EndOfStream => true | Chunk _ => false end.

(** The stream in flowing mode: the consumer asks for the sizes of
    [sizes] in turn, until the end has been pushed. *)
Fixpoint flow (sizes : list nat) (s : t) : list pushed :=
  match sizes with
  | [] => []
  | size :: rest =>
      let '(s', out) := _read size s in
      if existsb isEnd out then out else out ++ flow rest s'
  end.

End BufferStream.

(* ===================================================================== *)
(** * The shipped configuration ([config.js]) *)
(* ===================================================================== *)

Module Config.

(** The Cyrillic names, by code unit. *)
Definition processed : jsstring :=
  [1054; 1073; 1088; 1072; 1073; 1086; 1090; 1072; 1085; 1085; 1099; 1077]%N.
Definition unprocessed : jsstring :=
  [1053; 1077; 1086; 1073; 1088; 1072; 1073; 1086; 1090; 1072; 1085; 1085; 1099; 1077]%N.
Definition regards : jsstring :=
  [1057; 32; 1091; 1074; 1072; 1078; 1077; 1085; 1080; 1077; 1084]%N.

Definition instance01 : ServerConfig :=
  {| imapHost := js "imap.example.ru";
     mailboxConfig :=
       [(js "INBOX", {| success := processed; failure := unprocessed |});
        (js "Drafts", {| success := processed; failure := unprocessed |})] |}.

Definition restConfig : RestConfig :=
  {| user := js "system";
     password := js "system";
     protocol := js "http";
     host := js "192.168.102.105";
     port := 16485;
     url := js "SM/9/rest";
     paths := [(js "Issues", js "zIssues");
               (js "Persons", js "zPersons");
               (js "Comments", js "zComments")];
     dbQueryUri := js "http://192.168.102.105:26485/search";
     maxQueryMessages := 1;
     onPersonNotFound :=
       {| createSystemIssue := false; moveMsgToFailureFolder := true |};
     permittedBodyAttributes :=
       [(js "requiredOn", js "date");
        (js "agreementId", js "id");
        (js "phaseId", js "id");
        (js "teamId", js "id")];
     defaultIssueAttrs :=
       [(js "authorId", VStr (js "PRS000000000001"));
        (js "statusId", VStr (js "STS000000000001"));
        (js "categoryId", VStr (js "CTG000000000101"));
        (js "priorityId", VStr (js "PRT000000000003"));
        (js "sourceId", VStr (js "SRC000000000003"))];
     joinOriginalAsEml := true;
     joinAttachments := true;
     truncateCommentsAfterDelimiter := true;
     commentDelimiters :=
       [Seq (Lit false (js "//")) (Plus (Chr (chr_is "-")));
        Lit false (js "Best regards");
        Lit false regards];
     spam :=
       {| timeSpan := 30;
          maxNumOfIssues := 5;
          headers := [js "auto-generated"; js "auto-replied"; js "auto-notified"];
          dontCheckAuthors := [js "PRS000000000001"] |} |}.

(** A connection to [instance01] whose server uses [/] in its hierarchy. *)
Definition conn : Conn :=
  {| config := instance01; delimiter := Some (js "/"); isRunning := true |}.

(** A runtime for the examples: cheerio returns the text of a plain
    body as it is, [Date.parse] takes the ISO local date-times, the clock
    stands still. *)
Definition runtime : Runtime :=
  {| bodyText := fun s => s;
     htmlRemoveComments := fun _ s => s;
     dateParses := validIsoLocal;
     now := VStr (js "2016-02-12T07:45:15.000Z");
     encodeURIComponent := fun s => s |}.

End Config.

(* ===================================================================== *)
(** * Two messages and the worlds they meet *)
(* ===================================================================== *)

Module Scenario.

Definition newline : jsstring := [10%N].

(** A reply to an earlier issue, from a sender the ticket system does not
    know (scenario S2). *)
Definition reply : Message :=
  {| uid := 7;
     header := [(js "from", [js "Bob <bob@x>"]);
                (js "subject", [js "Re: SRQ000000000354 update"])];
     attachments := [];
     body := [];
     parsedFields := None |}.

Definition replyMail : Mail :=
  {| html := None;
     text := js "please check" ++ newline ++ js "//-----" ++ newline
             ++ js "quoted prior email";
     mail_attachments := None |}.

Definition issue354 : val := VObj [(js "Id", VStr (js "SRQ000000000354"))].

(** A new request. *)
Definition request : Message :=
  {| uid := 5;
     header := [(js "from", [js "Alice <alice@x>"]);
                (js "subject", [js "Printer broken"])];
     attachments := [];
     body := [];
     parsedFields := None |}.

Definition requestMail : Mail :=
  {| html := None;
     text := js "Printer dead" ++ newline ++ js "Best regards" ++ newline ++ js "Alice";
     mail_attachments := None |}.

Definition ok (fields : list (jsstring * val)) : http_reply :=
  Response 200 (Some (VObj ((js "ReturnCode", VNum 0) :: fields))).

Definition nobody : http_reply := ok [(js "@count", VNum 0)].

Definition found354 : http_reply := ok [(js "ZIssue", issue354)].

Definition created (id : string) : http_reply :=
  ok [(js "Messages", VArr [VStr (js "Created " ++ js id)])].

(** The mail arrives, no person answers to the address, every POST
    creates its object, every move succeeds. *)
Definition unknownSender : World :=
  {| fetchReply := fun _ _ => FetchMail replyMail;
     moveError := fun _ _ _ => false;
     httpReply := fun _ o =>
       if str_eqb (method o) (js "POST") then created "CMT000000000001"
       else nobody |}.

(** The same REST interface behind an IMAP server that fails to deliver
    the body. *)
Definition fetchFails : World :=
  {| fetchReply := fun _ _ => FetchError;
     moveError := fun _ _ _ => false;
     httpReply := httpReply unknownSender |}.

(** The replies to the two pipelines of [request] and [reply], in the
    order of their arrival. *)
Definition arrivals : list (nat * Reply) :=
  [(0, FetchReply (FetchMail requestMail));
   (1, HttpReply found354);
   (0, HttpReply nobody);
   (1, FetchReply (FetchMail replyMail));
   (0, MoveReply false);
   (1, HttpReply nobody);
   (1, HttpReply (created "CMT000000000001"));
   (1, MoveReply false)].

End Scenario.

(* ===================================================================== *)
(** * A body structure *)
(* ===================================================================== *)

Module Sample.

Definition downcase (c : jschar) : jschar :=
  if in_range 65 90 c then (c + 32)%N else c.

(** The case mappings on ASCII text, where the Unicode tables agree with
    them. *)
Definition asciiCasing : Casing :=
  {| toUpperCase := map upcase; toLowerCase := map downcase |}.

Definition plainPart : val :=
  VObj [(js "partID", VStr (js "1")); (js "type", VStr (js "text"));
        (js "subtype", VStr (js "plain")); (js "disposition", VNull)].

Definition pdfPart : val :=
  VObj [(js "partID", VStr (js "2")); (js "type", VStr (js "application"));
        (js "subtype", VStr (js "pdf"));
        (js "disposition", VObj [(js "type", VStr (js "attachment"))])].

(** A multipart message as node-imap describes it: the multipart header,
    then every part in an array of its own. *)
Definition mixed : val :=
  VArr [VObj [(js "type", VStr (js "mixed")); (js "disposition", VNull)];
        VArr [plainPart]; VArr [pdfPart]].

End Sample.

(* ===================================================================== *)
(** * More messages and worlds *)
(* ===================================================================== *)

Module Cases.

(** [config.js] with the original mail no longer attached. *)
Definition withoutEml : RestConfig :=
  {| user := user Config.restConfig;
     password := password Config.restConfig;
     protocol := protocol Config.restConfig;
     host := host Config.restConfig;
     port := port Config.restConfig;
     url := url Config.restConfig;
     paths := paths Config.restConfig;
     dbQueryUri := dbQueryUri Config.restConfig;
     maxQueryMessages := maxQueryMessages Config.restConfig;
     onPersonNotFound := onPersonNotFound Config.restConfig;
     permittedBodyAttributes := permittedBodyAttributes Config.restConfig;
     defaultIssueAttrs := defaultIssueAttrs Config.restConfig;
     joinOriginalAsEml := false;
     joinAttachments := joinAttachments Config.restConfig;
     truncateCommentsAfterDelimiter := truncateCommentsAfterDelimiter Config.restConfig;
     commentDelimiters := commentDelimiters Config.restConfig;
     spam := spam Config.restConfig |}.

Definition pdf : Attachment :=
  {| fileName := js "manual.pdf";
     contentType := js "application/pdf";
     att_length := 3;
     content := Some [37; 80; 68]%N |}.

(** A part that the structure walker found, before the mail is parsed. *)
Definition stub : Attachment :=
  {| fileName := js "logo.png";
     contentType := js "image/png";
     att_length := 0;
     content := None |}.

(** A request with two attachments, its body already fetched. *)
Definition withFiles : Message :=
  {| uid := 5;
     header := [(js "from", [js "Alice <alice@x>"]);
                (js "subject", [js "Printer broken"])];
     attachments := [pdf; stub];
     body := js "Printer dead<br>";
     parsedFields := Some [] |}.

(** An automatic reply. *)
Definition autoReply : Message :=
  {| uid := 8;
     header := [(js "from", [js "Alice <alice@x>"]);
                (js "subject", [js "Out of office"]);
                (js "auto-replied", [js "yes"])];
     attachments := [];
     body := [];
     parsedFields := None |}.

(** A mail without a subject line. *)
Definition untitled : Message :=
  {| uid := 9;
     header := [(js "from", [js "Alice <alice@x>"])];
     attachments := [];
     body := [];
     parsedFields := None |}.

(** A reply to the issue whose sender gives an address without a name
    and without angle brackets. *)
Definition bareSender : Message :=
  {| uid := 11;
     header := [(js "from", [js "bob@x"]);
                (js "subject", [js "Re: SRQ000000000354 update"])];
     attachments := [];
     body := [];
     parsedFields := None |}.

Definition alice : http_reply :=
  Scenario.ok [(js "@count", VNum 1);
               (js "ResourceName", VStr (js "ZPerson"));
               (js "content",
                VArr [VObj [(js "ZPerson",
                             VObj [(js "Id", VStr (js "PRS000000000042"))])]])].

(** Every sender is Alice, every POST creates an issue. *)
Definition knownSender : World :=
  {| fetchReply := fun _ _ => FetchMail Scenario.requestMail;
     moveError := fun _ _ _ => false;
     httpReply := fun _ o =>
       if json o then Scenario.created "SRQ000000000400"
       else if str_eqb (method o) (js "GET") then alice
       else Response 500 None |}.

(** The issue of the subject is there; nobody answers to the address of
    the sender; every POST creates a comment. *)
Definition knownIssue : World :=
  {| fetchReply := fun _ _ => FetchMail Scenario.replyMail;
     moveError := fun _ _ _ => false;
     httpReply := fun tr o =>
       if str_eqb (method o) (js "POST") then Scenario.created "CMT000000000001"
       else match tr with
            | [] => Scenario.found354
            | _ :: _ => Scenario.nobody
            end |}.

(** The hierarchy of a server on which INBOX has both of its children. *)
Definition boxes : list (jsstring * Box) :=
  [(js "INBOX",
    mkBox (Some [(Config.processed, mkBox None); (Config.unprocessed, mkBox None)]))].

End Cases.

(* ===================================================================== *)
(** * Notions the properties are stated with *)
(* ===================================================================== *)

(** [s] contains an angle-bracket-delimited part on one line: [<], then
    [b] without a line terminator, then [>]. *)
Definition bracketed (s : jsstring) : Prop :=
  exists a b c,
    s = a ++ ch "<" :: b ++ ch ">" :: c /\ Forall (fun x => dot x = true) b.

Definition stripBrackets (s : jsstring) : jsstring :=
  filter (fun c => negb (is_bracket c)) s.

(** Where [.*>] ends when matched at the head of [s]: just after the last
    [>] that no line terminator separates from the head. *)
Fixpoint afterGt (s : jsstring) : option nat :=
  match s with
  | [] => None
  | x :: s' =>
      if dot x then
        match afterGt s' with
        | Some n => Some (S n)
        | None => if chr_is ">" x then Some 1 else None
        end
      else None
  end.

(** The length of the longest prefix within a class. *)
Fixpoint span (p : jschar -> bool) (s : jsstring) : nat :=
  match s with
  | x :: s' => if p x then S (span p s') else 0
  | [] => 0
  end.


(** The lookup of a person found nobody: a transport error, a body that
    is not JSON, a return code other than 0, or a count of 0. *)
Definition personNotFound (reply : http_reply) : Prop :=
  match reply with
  | TransportError => True
  | Response _ body =>
      body = None
      \/ exists result returnCode,
           body = Some result
           /\ prop result (js "ReturnCode") = Normal returnCode
           /\ (strict_eq returnCode (VNum 0) = false
               \/ prop result (js "@count") = Normal (VNum 0))
  end.

(** The date fields of [fields] with [zone] appended. *)
Definition stamp (rt : Runtime) (zone : jsstring) (fields : list (jsstring * jsstring))
  : list (jsstring * jsstring) :=
  map (fun kv => if dateParses rt (snd kv) then (fst kv, snd kv ++ zone) else kv) fields.

(** The object that a request creates on the REST interface: the value
    under the key [resource] of a JSON body. *)
Definition posted (resource : string) (e : event) : list val :=
  match e with
  | EvRequest o =>
      match reqBody o with
      | VObj [(k, v)] => if json o && str_eqb k (js resource) then [v] else []
      | _ => []
      end
  | _ => []
  end.

Definition posts (resource : string) (tr : list event) : list val :=
  flat_map (posted resource) tr.

(** What the mailbox check lets through: a box that is there with both of
    its children, and a box that is not there at all, unless its name is
    one that [in] finds in every object. *)
Definition passes (boxes : list (jsstring * Box)) (nc : jsstring * BoxConfig) : bool :=
  match lookup (fst nc) boxes with
  | Some b => childExists (children b) (success (snd nc))
              && childExists (children b) (failure (snd nc))
  | None => negb (inherited (fst nc))
  end.

(** The separators of a date: [-] and [/]. *)
Definition isSep (c : jschar) : bool := chr_is "-" c || chr_is "/" c.

(** [always I p Q ms]: on every run of [p], whatever the replies, from a
    message that satisfies [I] and after the moves [ms], the settlement of
    [p] ([None] for a crash) and the moves issued by then satisfy [Q]; the
    message keeps satisfying [I]. *)
Fixpoint always (I : Message -> Prop) (p : promise)
         (Q : option outcome -> list event -> Prop) (ms : list event) : Prop :=
  match p with
  | Settled o => Q (Some o) ms
  | Crashed => Q None ms
  | ReadMessage k => forall m, I m -> always I (k m) Q ms
  | WriteMessage m k => I m /\ always I k Q ms
  | ImapFetch _ k => forall r, always I (k r) Q ms
  | ImapMove u b k => forall r, always I (k r) Q (ms ++ [EvMove u b])
  | HttpRequest _ k => forall r, always I (k r) Q ms
  end.

(** The message object keeps its uid and its headers. *)
Definition sameLetter (message : Message) (m : Message) : Prop :=
  uid m = uid message /\ header m = header message.

(** Every [\r?\n] replaced by [<br>], read off the text directly. *)
Fixpoint nl2br (s : jsstring) : jsstring :=
  match s with
  | [] => []
  | x :: s' =>
      if N.eqb x 10 then js "<br>" ++ nl2br s'
      else if N.eqb x 13 then
        match s' with
        | y :: s'' => if N.eqb y 10 then js "<br>" ++ nl2br s'' else x :: nl2br s'
        | [] => [x]
        end
      else x :: nl2br s'
  end.

(** The delimiter [d] matches in [s] at offset [i]. *)
Definition matchesAt (d : regex) (s : jsstring) (i : nat) : bool :=
  Nat.leb i (length s)
  && match m d i (skipn i s) [] accept with Some _ => true | None => false end.

(** [i] is the offset of the first match of [d] in [s]. *)
Definition firstMatch (d : regex) (s : jsstring) (i : nat) : Prop :=
  matchesAt d s i = true /\ forall j, j < i -> matchesAt d s j = false.

Definition matchesNowhere (d : regex) (s : jsstring) : Prop :=
  forall i, matchesAt d s i = false.

(** The text-mode truncation in the words of the specification: each
    delimiter in order is looked for in the current result, which is cut
    at the first match, the prefix being kept, and left whole when there
    is no match. *)
Inductive truncated : list regex -> jsstring -> jsstring -> Prop :=
| truncated_done s : truncated [] s s
| truncated_cut d ds s i r :
    firstMatch d s i -> truncated ds (firstn i s) r -> truncated (d :: ds) s r
| truncated_whole d ds s r :
    matchesNowhere d s -> truncated ds s r -> truncated (d :: ds) s r.

(** [s] begins with [p], case-insensitively. *)
Fixpoint beginsWith (p s : jsstring) : bool :=
  match p, s with
  | [], _ => true
  | c :: p', x :: s' => is_ci c x && beginsWith p' s'
  | _ :: _, [] => false
  end.

(** The parts of a body structure in document order, whatever their
    nesting. *)
Fixpoint leaves (struct : val) : list val :=
  match struct with
  | VArr parts => flat_map leaves parts
  | _ => [struct]
  end.

Definition succeeds {A} (c : completion A) : bool :=
  match c with Normal _ => true | Throw _ => false end.

Definition holds (c : completion bool) : bool :=
  match c with Normal b => b | Throw _ => false end.

(** One round of the [reduce] of a structure walker that keeps the parts
    passing [test]. *)
Definition visit (test : val -> completion bool)
           (find : val -> completion (list val)) (all : list val) (part : val)
  : completion (list val) :=
  match part with
  | VArr _ => let! found := find part in Normal (all ++ found)
  | _ => let! hit := test part in Normal (if hit then all ++ [part] else all)
  end.

(** What a walker returns on an array: the leaves that pass the test, or
    a TypeError when the test throws on a leaf. *)
Definition walked (test : val -> completion bool) (v : val)
           (r : completion (list val)) : Prop :=
  match v with
  | VArr _ =>
      r = if forallb (fun p => succeeds (test p)) (leaves v)
          then Normal (filter (fun p => holds (test p)) (leaves v))
          else Throw TypeError
  | _ => True
  end.

(** [id] is [prefix] followed by twelve decimal digits. *)
Definition isId (prefix id : jsstring) : Prop :=
  exists ds, id = prefix ++ ds /\ length ds = 12 /\ Forall (fun c => is_digit c = true) ds.

(** What is left of [s] after the prefix [p], if [s] starts with it. *)
Fixpoint stripPrefix (p s : jsstring) : option jsstring :=
  match p, s with
  | [], _ => Some s
  | c :: p', x :: s' => if N.eqb c x then stripPrefix p' s' else None
  | _ :: _, [] => None
  end.

(** What is left of [s] after [n] code units of the class [q]. *)
Fixpoint takeClass (q : jschar -> bool) (n : nat) (s : jsstring) : option jsstring :=
  match n, s with
  | 0, _ => Some s
  | S n', x :: s' => if q x then takeClass q n' s' else None
  | S _, [] => None
  end.

(** [s] starts with an id of the given prefix. *)
Definition idAt (prefix s : jsstring) : bool :=
  match stripPrefix prefix s with
  | Some r => match takeClass is_digit 12 r with Some _ => true | None => false end
  | None => false
  end.

Definition hasContent (a : Attachment) : bool :=
  match content a with Some _ => true | None => false end.

(** The upload requests of the attachments that hold a Buffer, in order. *)
Definition uploads (rt : Runtime) (restConfig : RestConfig) (path : jsstring) (id : val)
           (atts : list Attachment) : list event :=
  map (fun a => EvRequest (Rest.attachmentOptions rt restConfig path id
                             (fileName a) (contentType a)))
      (filter hasContent atts).

(** Whether a request creates an object of the given resource. *)
Definition creates (resource : string) (e : event) : bool :=
  match posted resource e with [] => false | _ :: _ => true end.

(** Where a message stands between the ticket system and the mailbox. *)
Inductive Filing : Type :=
| Untouched     (* nothing has been created, the message has not been moved *)
| Recorded      (* its object has been posted, once *)
| Filed         (* it has been moved: to the failure box, or after the post *)
| Astray.       (* anything else has happened *)

Section Protocol.

(** The resource the pipeline is to create, the one it is not to, the
    uid of its message and the names of its two boxes. *)
Variables resource other : string.
Variable u : Z.
Variables successBox failureBox : jsstring.

(** The protocol of a pipeline, as an observer of its events: one post of
    the resource at most, then one move at most, of this message, to the
    success box only after the post; nothing of the other resource. *)
Definition filing (s : Filing) (e : event) : Filing :=
  match e with
  | EvFetch _ => s
  | EvRequest _ =>
      if creates other e then Astray
      else if creates resource e then
        match s with Untouched => Recorded | _ => Astray end
      else s
  | EvMove u' b =>
      if Z.eqb u' u then
        match s with
        | Untouched => if strict_eq (VStr failureBox) b then Filed else Astray
        | Recorded =>
            if strict_eq (VStr successBox) b || strict_eq (VStr failureBox) b
            then Filed else Astray
        | _ => Astray
        end
      else Astray
  end.

End Protocol.

(** [observes step I p Q s]: on every run of [p], whatever the replies,
    from a message that satisfies [I] and with the observer in state [s],
    the settlement of [p] ([None] for a crash) and the state of the
    observer after the events of [p] satisfy [Q]; the message keeps
    satisfying [I]. *)
Fixpoint observes (S : Type) (step : S -> event -> S) (I : Message -> Prop) (p : promise)
         (Q : option outcome -> S -> Prop) (s : S) : Prop :=
  match p with
  | Settled o => Q (Some o) s
  | Crashed => Q None s
  | ReadMessage k => forall m, I m -> observes step I (k m) Q s
  | WriteMessage m k => I m /\ observes step I k Q s
  | ImapFetch u k => forall r, observes step I (k r) Q (step s (EvFetch u))
  | ImapMove u b k => forall r, observes step I (k r) Q (step s (EvMove u b))
  | HttpRequest o k => forall r, observes step I (k r) Q (step s (EvRequest o))
  end.

(* ===================================================================== *)
(** * Facts about strings and the matcher *)
(* ===================================================================== *)

Unset Implicit Arguments.

Lemma str_eqb_refl (s : jsstring) : str_eqb s s = true.
Proof.
  induction s as [|x s IH]; simpl; [reflexivity|].
  now rewrite N.eqb_refl, IH.
Qed.

Lemma str_eqb_eq (a b : jsstring) : str_eqb a b = true <-> a = b.
Proof.
  split.
  - revert b; induction a as [|x a IH]; intros [|y b] H; simpl in H;
      try discriminate; [reflexivity|].
    apply andb_true_iff in H as [Hx Hs].
    apply N.eqb_eq in Hx. apply IH in Hs. now subst.
  - intros ->. apply str_eqb_refl.
Qed.

Lemma strict_eq_str (a : jsstring) (v : val) :
  strict_eq (VStr a) v = true <-> v = VStr a.
Proof.
  split.
  - destruct v; simpl; try discriminate.
    intros H. apply str_eqb_eq in H. now subst.
  - intros ->. simpl. apply str_eqb_refl.
Qed.

Section Matcher.

Lemma orelse_some {A} (a b : option A) (x : A) :
  orelse a b = Some x -> a = Some x \/ (a = None /\ b = Some x).
Proof. destruct a; simpl; intros H; [left | right]; auto. Qed.

(** A successful match ends in a call of the continuation further on. *)
Lemma m_calls_continuation (r : regex) :
  forall i s c k res,
    m r i s c k = Some res ->
    exists i' s' c', i <= i' /\ k i' s' c' = Some res.
Proof.
  induction r as [|p|r1 IH1 r2 IH2|r IH|g r IH|n r IH|]; intros i s c k res H; simpl in H.
  - exists i, s, c. auto.
  - destruct s as [|x s']; [discriminate|].
    destruct (p x); [|discriminate].
    exists (S i), s', c. auto.
  - apply IH1 in H as (i1 & s1 & c1 & Hle & H).
    apply IH2 in H as (i2 & s2 & c2 & Hle2 & H).
    exists i2, s2, c2. split; [lia | exact H].
  - apply orelse_some in H as [H | [_ H]].
    + eapply IH. exact H.
    + exists i, s, c. auto.
  - revert H. generalize (length s) at 1. intros fuel.
    revert i s c. induction fuel as [|fuel IHf]; intros i s c H.
    + exists i, s, c. auto.
    + assert (Hmore :
        m r i s c
          (fun i' s' c' =>
             if Nat.ltb (length s') (length s)
             then (fix star (fuel : nat) (i : nat) (s : jsstring) (c : caps)
                     {struct fuel} : option (nat * caps) :=
                     match fuel with
                     | 0 => k i s c
                     | S fuel' =>
                         let more :=
                           m r i s c
                             (fun i' s' c' =>
                                if Nat.ltb (length s') (length s)
                                then star fuel' i' s' c' else None) in
                         if g then orelse more (k i s c)
                         else orelse (k i s c) more
                     end) fuel i' s' c'
             else None) = Some res ->
        exists i' s' c', i <= i' /\ k i' s' c' = Some res).
      { intros Hm. apply IH in Hm as (i1 & s1 & c1 & Hle & Hm).
        destruct (Nat.ltb (length s1) (length s)); [|discriminate].
        apply IHf in Hm as (i2 & s2 & c2 & Hle2 & Hm).
        exists i2, s2, c2. split; [lia | exact Hm]. }
      destruct g; apply orelse_some in H as [H | [_ H]]; auto;
        exists i, s, c; auto.
  - apply IH in H as (i1 & s1 & c1 & Hle & H).
    exists i1, s1, ((n, (i, i1)) :: c1). auto.
  - destruct (Nat.eqb i 0); [|discriminate].
    exists i, s, c. auto.
Qed.

Lemma m_accept_bound (r : regex) i s c e c' :
  m r i s c accept = Some (e, c') -> i <= e.
Proof.
  intros H. apply m_calls_continuation in H as (i' & s' & c'' & Hle & H).
  unfold accept in H. injection H as <- _. exact Hle.
Qed.

Lemma exec_from_bounds (r : regex) :
  forall s i x, exec_from r i s = Some x -> i <= m_start x <= m_end x.
Proof.
  induction s as [|y s IH]; intros i x H; simpl in H.
  - destruct (m r i [] [] accept) as [[e c]|] eqn:E; [|discriminate].
    injection H as <-. simpl. apply m_accept_bound in E. lia.
  - destruct (m r i (y :: s) [] accept) as [[e c]|] eqn:E.
    + injection H as <-. simpl. apply m_accept_bound in E. lia.
    + apply IH in H. lia.
Qed.

(** Unfolding a greedy star over a character class. *)
Lemma m_star_class (p : jschar -> bool) :
  forall s i c k,
    m (Star true (Chr p)) i s c k =
    match s with
    | x :: s' =>
        if p x then orelse (m (Star true (Chr p)) (S i) s' c k) (k i s c)
        else k i s c
    | [] => k i s c
    end.
Proof.
  intros [|x s'] i c k; [reflexivity|].
  cbn [m length]. destruct (p x); [|reflexivity].
  replace (Nat.ltb (length s') (S (length s'))) with true
    by (symmetry; apply Nat.ltb_lt; lia).
  reflexivity.
Qed.

End Matcher.

(** ** [parseEmailAddress] *)

Section Brackets.

Ltac case_afterGt H E :=
  match type of H with
  | context [afterGt ?t] => destruct (afterGt t) eqn:E
  end.

Lemma gt_is_dot x : chr_is ">" x = true -> dot x = true.
Proof.
  unfold chr_is, dot, is_line_terminator. intros H.
  apply N.eqb_eq in H. subst. reflexivity.
Qed.

Lemma m_dot_gt :
  forall s i c,
    m (Seq (Star true (Chr dot)) (Chr (chr_is ">"))) i s c accept =
    option_map (fun n => (i + n, c)) (afterGt s).
Proof.
  intros s i c. cbn [m].
  change (m (Star true (Chr dot)) i s c
            (fun i' s' c' => m (Chr (chr_is ">")) i' s' c' accept) =
          option_map (fun n => (i + n, c)) (afterGt s)).
  revert i. induction s as [|x s IH]; intros i.
  - reflexivity.
  - rewrite m_star_class. simpl afterGt.
    destruct (dot x) eqn:Hd.
    + rewrite IH. destruct (afterGt s) as [n|]; simpl.
      * do 2 f_equal. lia.
      * destruct (chr_is ">" x); simpl; [|reflexivity].
        unfold accept. do 2 f_equal. lia.
    + simpl. destruct (chr_is ">" x) eqn:Hg; [|reflexivity].
      apply gt_is_dot in Hg. congruence.
Qed.

Lemma m_angle s i :
  m angleRe i s [] accept =
  match s with
  | x :: s' =>
      if chr_is "<" x then option_map (fun n => (S i + n, [])) (afterGt s')
      else None
  | [] => None
  end.
Proof.
  destruct s as [|x s']; [reflexivity|].
  unfold angleRe. cbn [m]. destruct (chr_is "<" x); [|reflexivity].
  apply (m_dot_gt s' (S i) []).
Qed.

Lemma afterGt_some s n :
  afterGt s = Some n ->
  exists b c, s = b ++ ch ">" :: c /\ Forall (fun x => dot x = true) b
              /\ n = S (length b).
Proof.
  revert n. induction s as [|x s IH]; intros n H; simpl in H; [discriminate|].
  destruct (dot x) eqn:Hd; [|discriminate].
  destruct (afterGt s) as [k|] eqn:E.
  - injection H as <-. destruct (IH k eq_refl) as (b & c & -> & Hb & ->).
    exists (x :: b), c. repeat split; auto.
  - destruct (chr_is ">" x) eqn:Hg; [|discriminate]. injection H as <-.
    apply N.eqb_eq in Hg. subst x.
    exists [], s. repeat split; auto.
Qed.

Lemma afterGt_none s :
  afterGt s = None ->
  forall b c, s = b ++ ch ">" :: c -> ~ Forall (fun x => dot x = true) b.
Proof.
  induction s as [|x s IH]; intros H b c Hs Hb.
  - destruct b; discriminate.
  - cbn [afterGt] in H. destruct b as [|y b]; cbn [app] in Hs; injection Hs as -> ->.
    + replace (dot (ch ">")) with true in H by reflexivity.
      destruct (afterGt c); [discriminate|].
      replace (chr_is ">" (ch ">")) with true in H by reflexivity.
      discriminate.
    + inversion Hb as [|? ? Hy Hb']; subst. rewrite Hy in H.
      case_afterGt H E; [discriminate|].
      exact (IH eq_refl b c eq_refl Hb').
Qed.

Lemma exec_angle_some :
  forall s i x,
    exec_from angleRe i s = Some x ->
    exists a b c,
      s = a ++ ch "<" :: b ++ ch ">" :: c
      /\ Forall (fun y => dot y = true) b
      /\ m_start x = i + length a
      /\ m_end x = i + length a + length b + 2.
Proof.
  induction s as [|y s IH]; intros i x H.
  - simpl in H. discriminate.
  - cbn [exec_from] in H. rewrite m_angle in H.
    destruct (chr_is "<" y) eqn:Hy.
    + destruct (afterGt s) as [n|] eqn:E; simpl in H.
      * injection H as <-. apply N.eqb_eq in Hy. subst y.
        apply afterGt_some in E as (b & c & -> & Hb & ->).
        exists [], b, c. simpl. repeat split; auto; lia.
      * apply IH in H as (a & b & c & -> & Hb & Hs & He).
        exists (y :: a), b, c. simpl. repeat split; auto; lia.
    + apply IH in H as (a & b & c & -> & Hb & Hs & He).
      exists (y :: a), b, c. simpl. repeat split; auto; lia.
Qed.

Lemma exec_angle_none :
  forall s i, exec_from angleRe i s = None -> ~ bracketed s.
Proof.
  induction s as [|y s IH]; intros i H (a & b & c & Hs & Hb).
  - destruct a; discriminate.
  - cbn [exec_from] in H. rewrite m_angle in H.
    destruct a as [|z a]; cbn [app] in Hs; injection Hs as -> ->.
    + case_afterGt H E; [cbn in H; discriminate|].
      exact (@afterGt_none _ E b c eq_refl Hb).
    + assert (Hrest : exec_from angleRe (S i) (a ++ ch "<" :: b ++ ch ">" :: c) = None).
      { destruct (chr_is "<" z); [|exact H].
        case_afterGt H E; [discriminate | exact H]. }
      apply (IH _ Hrest). exists a, b, c. auto.
Qed.

Lemma m_star_class_accept (p : jschar -> bool) :
  forall s i c, m (Star true (Chr p)) i s c accept = Some (i + span p s, c).
Proof.
  induction s as [|x s IH]; intros i c; rewrite m_star_class.
  - unfold accept. simpl. do 2 f_equal. lia.
  - simpl span. destruct (p x).
    + rewrite IH. simpl. do 2 f_equal. lia.
    + unfold accept. do 2 f_equal. lia.
Qed.

Lemma exec_brackets s i :
  exec_from bracketsRe i s =
  Some {| m_start := i; m_end := i + span is_bracket s; m_caps := [] |}.
Proof.
  unfold bracketsRe. destruct s; cbn [exec_from]; rewrite m_star_class_accept; reflexivity.
Qed.

Lemma skipn_span_filter (p : jschar -> bool) s :
  filter (fun c => negb (p c)) (skipn (span p s) s) = filter (fun c => negb (p c)) s.
Proof.
  induction s as [|x s IH]; simpl; [reflexivity|].
  destruct (p x) eqn:Hx; simpl; [exact IH|]. now rewrite Hx.
Qed.

Lemma replace_brackets :
  forall fuel s i,
    length s < fuel ->
    replace_all_from fuel bracketsRe [] i s = stripBrackets s.
Proof.
  induction fuel as [|fuel IH]; intros s i Hlen; [lia|].
  cbn [replace_all_from]. rewrite exec_brackets. cbn [m_start m_end].
  replace (i - i) with 0 by lia.
  replace (i + span is_bracket s - i) with (span is_bracket s) by lia.
  destruct (span is_bracket s) as [|n] eqn:Hn.
  - replace (Nat.eqb (i + 0) i) with true by (symmetry; apply Nat.eqb_eq; lia).
    simpl. destruct s as [|y s']; [reflexivity|].
    simpl in Hn. unfold stripBrackets. simpl.
    destruct (is_bracket y); [discriminate|]. simpl.
    f_equal. apply IH. simpl in Hlen. lia.
  - replace (Nat.eqb (i + S n) i) with false by (symmetry; apply Nat.eqb_neq; lia).
    cbn [firstn app].
    change (replace_all_from fuel bracketsRe [] (i + S n) (skipn (S n) s)
            = stripBrackets s).
    rewrite IH.
    + unfold stripBrackets. rewrite <- Hn. apply skipn_span_filter.
    + destruct s as [|y s']; [discriminate|].
      pose proof (length_skipn (S n) (y :: s')). simpl in *. lia.
Qed.

Lemma strip_bracketed b :
  stripBrackets (ch "<" :: b ++ [ch ">"]) = stripBrackets b.
Proof.
  unfold stripBrackets. simpl. rewrite filter_app. simpl. apply app_nil_r.
Qed.

Lemma parseEmailAddress_found s :
  bracketed s ->
  exists a b c,
    s = a ++ ch "<" :: b ++ ch ">" :: c
    /\ Forall (fun x => dot x = true) b
    /\ parseEmailAddress (VStr s) = Normal (stripBrackets b).
Proof.
  intros Hb. unfold parseEmailAddress, match0, exec. simpl to_string.
  destruct (exec_from angleRe 0 s) as [x|] eqn:E.
  - apply exec_angle_some in E as (a & b & c & -> & Hdot & Hs & He).
    exists a, b, c. repeat split; auto. cbn [option_map]. rewrite Hs, He.
    assert (Hsub : substring (0 + length a) (0 + length a + length b + 2)
                     (a ++ ch "<" :: b ++ ch ">" :: c) = ch "<" :: b ++ [ch ">"]).
    { unfold substring. simpl. rewrite skipn_app, skipn_all, Nat.sub_diag. simpl.
      replace (length a + length b + 2 - length a) with (S (length b + 1)) by lia.
      simpl. f_equal. rewrite firstn_app.
      replace (length b + 1 - length b) with 1 by lia.
      rewrite firstn_all2 by lia. reflexivity. }
    rewrite Hsub. cbv zeta.
    change (truthy (VStr (ch "<" :: b ++ [ch ">"]))) with true. cbv iota.
    unfold replace_all. rewrite replace_brackets by lia.
    rewrite strip_bracketed.
    destruct (stripBrackets b); reflexivity.
  - exfalso. exact (exec_angle_none _ _ E Hb).
Qed.

Lemma parseEmailAddress_missing s :
  ~ bracketed s -> parseEmailAddress (VStr s) = Throw TypeError.
Proof.
  intros Hb. unfold parseEmailAddress, match0, exec. simpl to_string.
  destruct (exec_from angleRe 0 s) as [x|] eqn:E; [|reflexivity].
  exfalso. apply Hb. apply exec_angle_some in E as (a & b & c & Hs & Hdot & _).
  exists a, b, c. auto.
Qed.

End Brackets.

(** C10: [parseEmailAddress] needs an angle-bracket-delimited part in the
    from-header string.  For every string that has one it returns that
    part with the brackets stripped; for every string without one it throws
    a TypeError, and so does [getPersonIdByEmail], synchronously, rather
    than return a rejected promise. *)
Theorem C10_parseEmailAddress_needs_brackets (config : RestConfig) (email : jsstring) :
  (bracketed email ->
   exists a b c,
     email = a ++ ch "<" :: b ++ ch ">" :: c
     /\ Forall (fun x => dot x = true) b
     /\ parseEmailAddress (VStr email) = Normal (stripBrackets b))
  /\
  (~ bracketed email ->
   parseEmailAddress (VStr email) = Throw TypeError
   /\ forall path,
        getModelPath config (js "Persons") = Normal path ->
        Rest.getPersonIdByEmail config (VStr email) = Throw TypeError).
Proof.
  split.
  - apply parseEmailAddress_found.
  - intros H. split.
    + now apply parseEmailAddress_missing.
    + intros path Hp. unfold Rest.getPersonIdByEmail. rewrite Hp. simpl bind.
      now rewrite parseEmailAddress_missing.
Qed.

Lemma C10_witness :
  (exists a b c,
     js "Alice <alice@x>" = a ++ ch "<" :: b ++ ch ">" :: c
     /\ Forall (fun x => dot x = true) b
     /\ parseEmailAddress (VStr (js "Alice <alice@x>")) = Normal (stripBrackets b))
  /\ parseEmailAddress (VStr (js "alice@x")) = Throw TypeError
  /\ Rest.getPersonIdByEmail Config.restConfig (VStr (js "alice@x")) = Throw TypeError.
Proof.
  split; [|split].
  - apply (proj1 (C10_parseEmailAddress_needs_brackets Config.restConfig (js "Alice <alice@x>"))).
    exists (js "Alice "), (js "alice@x"), []. split; [reflexivity|].
    repeat constructor.
  - apply (proj2 (C10_parseEmailAddress_needs_brackets Config.restConfig (js "alice@x"))).
    apply (exec_angle_none _ 0). reflexivity.
  - eapply (proj2 (C10_parseEmailAddress_needs_brackets Config.restConfig (js "alice@x"))).
    + apply (exec_angle_none _ 0). reflexivity.
    + reflexivity.
Defined.

(** ** [removeComments] in text mode *)

Section TextMode.

Lemma replace_step_nomatch (r : regex) (repl : jsstring) fuel i y s' :
  m r i (y :: s') [] accept = None ->
  replace_all_from (S fuel) r repl i (y :: s')
  = y :: replace_all_from (S fuel) r repl (S i) s'.
Proof.
  intros Hm. cbn [replace_all_from exec_from]. rewrite Hm.
  destruct (exec_from r (S i) s') as [x|] eqn:E; [|reflexivity].
  apply exec_from_bounds in E.
  replace (m_start x - i) with (S (m_start x - S i)) by lia.
  replace (m_end x - i) with (S (m_end x - S i)) by lia.
  cbn [firstn skipn]. destruct (Nat.eqb (m_end x) (m_start x)).
  - destruct (skipn (m_end x - S i) s'); reflexivity.
  - reflexivity.
Qed.

Lemma replace_step_match (r : regex) (repl : jsstring) fuel i s e c :
  m r i s [] accept = Some (e, c) ->
  e <> i ->
  replace_all_from (S fuel) r repl i s
  = repl ++ replace_all_from fuel r repl e (skipn (e - i) s).
Proof.
  intros Hm Hne. cbn [replace_all_from].
  assert (E : exec_from r i s = Some {| m_start := i; m_end := e; m_caps := c |}).
  { destruct s; cbn [exec_from]; rewrite Hm; reflexivity. }
  rewrite E. cbn [m_start m_end]. rewrite Nat.sub_diag.
  replace (Nat.eqb e i) with false by (symmetry; apply Nat.eqb_neq; lia).
  reflexivity.
Qed.

Lemma m_newline i s :
  m newlineRe i s [] accept =
  match s with
  | [] => None
  | x :: s' =>
      if N.eqb x 10 then Some (S i, [])
      else if N.eqb x 13 then
        match s' with
        | y :: _ => if N.eqb y 10 then Some (S (S i), []) else None
        | [] => None
        end
      else None
  end.
Proof.
  unfold newlineRe. cbn [m]. destruct s as [|x s']; [reflexivity|].
  rewrite (N.eqb_sym 13 x), (N.eqb_sym 10 x).
  destruct (N.eqb_spec x 13) as [->|H13].
  - change (N.eqb 13 13) with true. change (N.eqb 13 10) with false. cbv iota.
    destruct s' as [|y s'']; [reflexivity|].
    rewrite (N.eqb_sym 10 y). destruct (N.eqb y 10); reflexivity.
  - cbn [orelse]. destruct (N.eqb x 10); reflexivity.
Qed.

Lemma replace_newlines :
  forall n s fuel i,
    length s <= n -> length s < fuel ->
    replace_all_from fuel newlineRe (js "<br>") i s = nl2br s.
Proof.
  induction n as [|n IH]; intros s fuel i Hn Hf.
  - destruct s; [|simpl in Hn; lia]. destruct fuel; reflexivity.
  - destruct fuel as [|fuel]; [lia|].
    destruct s as [|x s'].
    + reflexivity.
    + simpl in Hn, Hf. cbn [nl2br].
      destruct (N.eqb x 10) eqn:H10.
      * rewrite (replace_step_match newlineRe _ fuel i (x :: s') (S i) []).
        -- replace (S i - i) with 1 by lia. cbn [skipn].
           rewrite IH by lia. reflexivity.
        -- rewrite m_newline, H10. reflexivity.
        -- lia.
      * destruct (N.eqb x 13) eqn:H13.
        -- destruct s' as [|y s''].
           ++ rewrite replace_step_nomatch.
              ** rewrite IH by (simpl; lia). reflexivity.
              ** rewrite m_newline, H10, H13. reflexivity.
           ++ destruct (N.eqb y 10) eqn:Hy.
              ** rewrite (replace_step_match newlineRe _ fuel i (x :: y :: s'') (S (S i)) []).
                 --- replace (S (S i) - i) with 2 by lia. cbn [skipn].
                     simpl in Hn, Hf. rewrite IH by lia. reflexivity.
                 --- rewrite m_newline, H10, H13, Hy. reflexivity.
                 --- lia.
              ** rewrite replace_step_nomatch.
                 --- rewrite IH by lia. reflexivity.
                 --- rewrite m_newline, H10, H13, Hy. reflexivity.
        -- rewrite replace_step_nomatch.
           ++ rewrite IH by lia. reflexivity.
           ++ rewrite m_newline, H10, H13. reflexivity.
Qed.

Lemma replace_all_newlines s :
  replace_all newlineRe (js "<br>") s = nl2br s.
Proof. unfold replace_all. apply (replace_newlines (length s)); lia. Qed.

Lemma cutAt_prefix result d : exists rest, result = cutAt result d ++ rest.
Proof.
  unfold cutAt. destruct (search d result) as [i|].
  - exists (skipn i result). unfold substring. rewrite Nat.sub_0_r.
    cbn [skipn]. symmetry. apply firstn_skipn.
  - exists []. symmetry. apply app_nil_r.
Qed.

Lemma cuts_prefix delimiters :
  forall body, exists rest, body = fold_left cutAt delimiters body ++ rest.
Proof.
  induction delimiters as [|d ds IH]; intros body; cbn [fold_left].
  - exists []. symmetry. apply app_nil_r.
  - destruct (IH (cutAt body d)) as [r1 H1].
    destruct (cutAt_prefix body d) as [r2 H2].
    exists (r1 ++ r2). rewrite app_assoc, <- H1. exact H2.
Qed.

Lemma cuts_nomatch delimiters body :
  Forall (fun d => search d body = None) delimiters ->
  fold_left cutAt delimiters body = body.
Proof.
  induction 1 as [|d ds Hd _ IH]; cbn [fold_left]; [reflexivity|].
  unfold cutAt at 2. rewrite Hd. exact IH.
Qed.

End TextMode.

(** ** The words of the specification and the loop of the code *)

Lemma exec_from_first (r : regex) :
  forall s i x,
    exec_from r i s = Some x ->
    exists k, m_start x = i + k /\ k <= length s
              /\ m r (i + k) (skipn k s) [] accept <> None
              /\ forall j, j < k -> m r (i + j) (skipn j s) [] accept = None.
Proof.
  induction s as [|y s IH]; intros i x H; cbn [exec_from] in H.
  - destruct (m r i [] [] accept) as [[e c]|] eqn:E; [|discriminate].
    injection H as <-. exists 0. rewrite Nat.add_0_r. cbn [m_start skipn length].
    repeat split; [lia| congruence | intros j Hj; lia].
  - destruct (m r i (y :: s) [] accept) as [[e c]|] eqn:E.
    + injection H as <-. exists 0. rewrite Nat.add_0_r. cbn [m_start skipn].
      repeat split; [cbn; lia | congruence | intros j Hj; lia].
    + destruct (IH (S i) x H) as (k & Hs & Hk & Hm & Hf).
      exists (S k). cbn [skipn length].
      replace (i + S k) with (S i + k) by lia.
      repeat split; [exact Hs | lia | exact Hm |].
      intros [|j] Hj.
      * rewrite Nat.add_0_r. exact E.
      * cbn [skipn]. replace (i + S j) with (S i + j) by lia. apply Hf. lia.
Qed.

Lemma exec_from_nowhere (r : regex) :
  forall s i,
    exec_from r i s = None ->
    forall k, k <= length s -> m r (i + k) (skipn k s) [] accept = None.
Proof.
  induction s as [|y s IH]; intros i H k Hk; cbn [exec_from] in H.
  - cbn [length] in Hk. assert (k = 0) by lia. subst k.
    rewrite Nat.add_0_r. cbn [skipn].
    destruct (m r i [] [] accept) as [[e c]|]; [discriminate|reflexivity].
  - destruct (m r i (y :: s) [] accept) as [[e c]|] eqn:E; [discriminate|].
    destruct k as [|k].
    + rewrite Nat.add_0_r. exact E.
    + cbn [skipn]. replace (i + S k) with (S i + k) by lia.
      apply IH; [exact H | cbn [length] in Hk; lia].
Qed.

Lemma search_firstMatch d s i : search d s = Some i -> firstMatch d s i.
Proof.
  unfold search, exec. destruct (exec_from d 0 s) as [x|] eqn:E; [|discriminate].
  cbn [option_map]. intros H. injection H as <-.
  destruct (@exec_from_first d s 0 x E) as (k & Hs & Hk & Hm & Hf).
  cbn [Nat.add] in Hs, Hm, Hf. rewrite Hs. split.
  - unfold matchesAt. apply andb_true_iff. split; [apply Nat.leb_le; exact Hk|].
    destruct (m d k (skipn k s) [] accept); [reflexivity|congruence].
  - intros j Hj. unfold matchesAt. rewrite (Hf j Hj). apply andb_false_r.
Qed.

Lemma search_matchesNowhere d s : search d s = None -> matchesNowhere d s.
Proof.
  unfold search, exec. destruct (exec_from d 0 s) as [x|] eqn:E; [discriminate|].
  intros _ i. unfold matchesAt.
  destruct (Nat.leb i (length s)) eqn:L; [|reflexivity].
  apply Nat.leb_le in L.
  pose proof (@exec_from_nowhere d s 0 E i L) as H. cbn [Nat.add] in H.
  rewrite H. reflexivity.
Qed.

Lemma firstMatch_unique d s i j : firstMatch d s i -> firstMatch d s j -> i = j.
Proof.
  intros [Hi Fi] [Hj Fj].
  destruct (Nat.lt_trichotomy i j) as [L | [E | L]]; [|exact E|].
  - rewrite (Fj i L) in Hi. discriminate.
  - rewrite (Fi j L) in Hj. discriminate.
Qed.

Lemma firstMatch_search d s i : firstMatch d s i -> search d s = Some i.
Proof.
  intros H. destruct (search d s) as [j|] eqn:E.
  - f_equal. apply (@firstMatch_unique d s); [apply search_firstMatch; exact E | exact H].
  - apply search_matchesNowhere in E. destruct H as [H _]. rewrite (E i) in H. discriminate.
Qed.

Lemma matchesNowhere_search d s : matchesNowhere d s -> search d s = None.
Proof.
  intros H. destruct (search d s) as [j|] eqn:E; [|reflexivity].
  apply search_firstMatch in E as [E _]. rewrite (H j) in E. discriminate.
Qed.

Lemma cutAt_first d s i : firstMatch d s i -> cutAt s d = firstn i s.
Proof.
  intros H. unfold cutAt. rewrite (@firstMatch_search d s i H).
  unfold substring. rewrite Nat.sub_0_r. reflexivity.
Qed.

Lemma cutAt_whole d s : matchesNowhere d s -> cutAt s d = s.
Proof. intros H. unfold cutAt. rewrite (@matchesNowhere_search d s H). reflexivity. Qed.

Lemma truncated_cuts ds : forall s, truncated ds s (fold_left cutAt ds s).
Proof.
  induction ds as [|d ds IH]; intros s; cbn [fold_left]; [constructor|].
  destruct (search d s) as [i|] eqn:E.
  - apply (@truncated_cut d ds s i); [apply search_firstMatch; exact E|].
    replace (firstn i s) with (cutAt s d); [apply IH|].
    apply cutAt_first, search_firstMatch, E.
  - apply truncated_whole; [apply search_matchesNowhere; exact E|].
    replace s with (cutAt s d) at 1; [apply IH|].
    apply cutAt_whole, search_matchesNowhere, E.
Qed.

Lemma truncated_is_cuts ds s r : truncated ds s r -> r = fold_left cutAt ds s.
Proof.
  induction 1 as [s | d ds s i r Hf _ IH | d ds s r Hn _ IH]; cbn [fold_left].
  - reflexivity.
  - rewrite (@cutAt_first d s i Hf). exact IH.
  - rewrite (@cutAt_whole d s Hn). exact IH.
Qed.

(** C8, amended: for a body that does not begin with [<html] and that
    [isHtml] rejects as well, with truncation enabled and a delimiter list
    that is not empty, [removeComments] returns the one text that the
    truncation of the specification leaves (each delimiter in order cuts
    the current result at its first match), with every [\r?\n] replaced
    by [<br>]; that text is a prefix of the body, and when no delimiter
    matches anywhere in the body only the newlines are replaced. *)
Theorem C8_text_mode_truncation (rt : Runtime) (config : RestConfig) (body : jsstring) :
  truncateCommentsAfterDelimiter config = true ->
  commentDelimiters config <> [] ->
  beginsWith (js "<html") body = false ->
  isHtml body = false ->
  exists kept,
    truncated (commentDelimiters config) body kept
    /\ (forall r, truncated (commentDelimiters config) body r -> r = kept)
    /\ removeComments rt config body = nl2br kept
    /\ (exists rest, body = kept ++ rest)
    /\ (Forall (fun d => matchesNowhere d body) (commentDelimiters config) ->
        removeComments rt config body = nl2br body).
Proof.
  intros Ht Hd _ Hh.
  assert (E : removeComments rt config body
              = nl2br (fold_left cutAt (commentDelimiters config) body)).
  { unfold removeComments. rewrite Ht, Hh.
    destruct (commentDelimiters config) as [|d ds]; [congruence|].
    cbn [length Nat.eqb negb andb]. apply replace_all_newlines. }
  exists (fold_left cutAt (commentDelimiters config) body).
  split; [apply truncated_cuts|]. split; [apply truncated_is_cuts|].
  split; [exact E|]. split; [apply cuts_prefix|].
  intros Hn. rewrite E. f_equal. apply cuts_nomatch.
  apply Forall_forall. intros d Hin.
  apply matchesNowhere_search. exact (proj1 (Forall_forall _ _) Hn d Hin).
Qed.

Lemma C8_witness :
  removeComments Config.runtime Config.restConfig
    (js "please check" ++ [10%N] ++ js "//-----" ++ [10%N] ++ js "quoted prior email")
  = js "please check<br>".
Proof.
  destruct (C8_text_mode_truncation Config.runtime Config.restConfig
              (js "please check" ++ [10%N] ++ js "//-----" ++ [10%N] ++ js "quoted prior email"))
    as (kept & _ & Hu & E & _).
  - reflexivity.
  - discriminate.
  - reflexivity.
  - reflexivity.
  - rewrite E, <- (Hu _ (truncated_cuts _ _)). reflexivity.
Defined.

(** The claim C8 as it was stated fails for a body that does not begin
    with [<html] and is HTML to the code all the same: [isHtml] allows
    white space after the [<].  Truncation is enabled, the delimiters are
    those of [config.js] and none matches; whatever the runtime, the body
    goes to the HTML processor and not through the replacement of the
    newlines; with a processor that gives the document back the line feed
    stays, where the claim has [<br>]. *)
Lemma C8_counterexample :
  beginsWith (js "<html") (js "< html>" ++ [10%N] ++ js "bye") = false
  /\ isHtml (js "< html>" ++ [10%N] ++ js "bye") = true
  /\ truncateCommentsAfterDelimiter Config.restConfig = true
  /\ commentDelimiters Config.restConfig <> []
  /\ Forall (fun d => matchesNowhere d (js "< html>" ++ [10%N] ++ js "bye"))
            (commentDelimiters Config.restConfig)
  /\ (forall rt,
        removeComments rt Config.restConfig (js "< html>" ++ [10%N] ++ js "bye")
        = htmlRemoveComments rt (commentDelimiters Config.restConfig)
            (js "< html>" ++ [10%N] ++ js "bye"))
  /\ removeComments Config.runtime Config.restConfig (js "< html>" ++ [10%N] ++ js "bye")
     <> nl2br (js "< html>" ++ [10%N] ++ js "bye").
Proof.
  split; [reflexivity|]. split; [reflexivity|]. split; [reflexivity|].
  split; [discriminate|]. split; [|split].
  - repeat constructor; apply search_matchesNowhere; reflexivity.
  - intros rt. reflexivity.
  - discriminate.
Qed.

(* ===================================================================== *)
(** * Facts about promises *)
(* ===================================================================== *)

Section Promises.

Variable w : World.

Lemma run_settle (p : promise) (f : outcome -> promise) :
  forall msg tr,
    run w (settle p f) msg tr =
    match settled (run w p msg tr) with
    | Some o => run w (f o) (final (run w p msg tr)) (trace (run w p msg tr))
    | None => run w p msg tr
    end.
Proof.
  induction p as [o| |k IH|m0 k IH|u k IH|u b k IH|o k IH]; intros msg tr;
    cbn [settle run]; auto.
Qed.

Lemma run_then (p : promise) (f : val -> promise) msg tr :
  run w (then_ p f) msg tr =
  match settled (run w p msg tr) with
  | Some (Resolved v) => run w (f v) (final (run w p msg tr)) (trace (run w p msg tr))
  | _ => run w p msg tr
  end.
Proof.
  unfold then_. rewrite run_settle.
  destruct (run w p msg tr) as [[[v|e]|] m' tr']; reflexivity.
Qed.

Lemma run_catch (p : promise) (f : val -> promise) msg tr :
  run w (catch_ p f) msg tr =
  match settled (run w p msg tr) with
  | Some (Rejected e) => run w (f e) (final (run w p msg tr)) (trace (run w p msg tr))
  | _ => run w p msg tr
  end.
Proof.
  unfold catch_. rewrite run_settle.
  destruct (run w p msg tr) as [[[v|e]|] m' tr']; reflexivity.
Qed.

(** A synchronous [finally] callback: the settlement is replaced when the
    callback returns a rejected promise and kept otherwise. *)
Lemma run_finally_reject (p : promise) (e : val) msg tr :
  run w (finally_ p (reject e)) msg tr =
  match settled (run w p msg tr) with
  | Some _ => {| settled := Some (Rejected e);
                 final := final (run w p msg tr);
                 trace := trace (run w p msg tr) |}
  | None => run w p msg tr
  end.
Proof.
  unfold finally_. rewrite run_settle.
  destruct (run w p msg tr) as [[o|] m' tr']; reflexivity.
Qed.

Lemma run_finally_resolve (p : promise) (v : val) msg tr :
  run w (finally_ p (resolve v)) msg tr = run w p msg tr.
Proof.
  unfold finally_. rewrite run_settle.
  destruct (run w p msg tr) as [[o|] m' tr']; reflexivity.
Qed.

End Promises.

(** ** The spam gate *)

Lemma indexOfFound_In (l : list jsstring) (v : val) :
  Rest.indexOfFound l v = true <-> exists a, In a l /\ v = VStr a.
Proof.
  unfold Rest.indexOfFound. rewrite existsb_exists.
  split; intros (a & Ha & H); exists a; split; auto; now apply strict_eq_str.
Qed.

(** C6: for a person-id listed in [spam.dontCheckAuthors],
    [checkSpamByPersonId] resolves with that person-id at once, whatever the
    headers of the message; run against any world it issues no request at
    all, so the database endpoint is not queried. *)
Theorem C6_dontCheckAuthors_bypass (config : RestConfig) (personId : jsstring)
        (message : Message) (w : World) (msg : Message) (tr : list event) :
  In personId (dontCheckAuthors (spam config)) ->
  Rest.checkSpamByPersonId config (VStr personId) message = resolve (VStr personId)
  /\ settled (run w (Rest.checkSpamByPersonId config (VStr personId) message) msg tr)
     = Some (Resolved (VStr personId))
  /\ trace (run w (Rest.checkSpamByPersonId config (VStr personId) message) msg tr) = tr.
Proof.
  intros Hin.
  assert (E : Rest.checkSpamByPersonId config (VStr personId) message
              = resolve (VStr personId)).
  { unfold Rest.checkSpamByPersonId.
    replace (Rest.indexOfFound (dontCheckAuthors (spam config)) (VStr personId))
      with true; [reflexivity|].
    symmetry. apply indexOfFound_In. exists personId. auto. }
  rewrite E. repeat split.
Qed.

Lemma C6_witness :
  Rest.checkSpamByPersonId Config.restConfig (VStr (js "PRS000000000001")) Scenario.request
  = resolve (VStr (js "PRS000000000001"))
  /\ trace (run Scenario.fetchFails
              (Rest.checkSpamByPersonId Config.restConfig (VStr (js "PRS000000000001"))
                 Scenario.request)
              Scenario.request [])
     = [].
Proof.
  destruct (C6_dontCheckAuthors_bypass Config.restConfig (js "PRS000000000001")
              Scenario.request Scenario.fetchFails Scenario.request [])
    as (H1 & _ & H3).
  - simpl. auto.
  - split; [exact H1 | exact H3].
Defined.






(** ** Issue creation and the timezone *)

Section CreateIssue.

Variable w : World.

Lemma timezoneResponse_truthy (personId : val) (reply : http_reply) (offset : val) :
  Rest.timezoneResponse personId reply = Resolved offset -> truthy offset = true.
Proof.
  unfold Rest.timezoneResponse. destruct reply as [|statusCode body]; [discriminate|].
  destruct (negb (Rest.is200 statusCode)); [discriminate|].
  destruct body as [result|]; cbn [Rest.parsed bind try_catch]; [|discriminate].
  destruct (Rest.noResults result) as [[|]|]; cbn [bind try_catch]; try discriminate.
  destruct (prop result (js "results")) as [results|]; cbn [bind try_catch];
    [|discriminate].
  destruct (first results) as [r0|]; cbn [bind try_catch]; [|discriminate].
  destruct (prop r0 (js "OFFSET")) as [o|]; cbn [bind try_catch]; [|discriminate].
  destruct (truthy o) eqn:E; cbn [negb]; [|discriminate].
  intros H. injection H as <-. exact E.
Qed.

Lemma run_timezone (config : RestConfig) (personId : val) msg tr :
  exists o,
    settled (run w (Rest.getTimezoneOffsetByPersonId config personId) msg tr) = Some o
    /\ final (run w (Rest.getTimezoneOffsetByPersonId config personId) msg tr) = msg
    /\ (forall offset, o = Resolved offset -> truthy offset = true).
Proof.
  unfold Rest.getTimezoneOffsetByPersonId.
  destruct (negb (truthy (VStr (parseId (js "PRS") personId)))).
  - exists (Rejected personId). repeat split. discriminate.
  - cbn [run]. eexists. repeat split. cbn [settled].
    intros offset H. eapply timezoneResponse_truthy. exact H.
Qed.

Lemma createResponse_ends (prefix err : string) (reply : http_reply) msg tr :
  final (run w (Rest.createResponse prefix err reply) msg tr) = msg
  /\ trace (run w (Rest.createResponse prefix err reply) msg tr) = tr.
Proof.
  unfold Rest.createResponse. destruct reply as [|statusCode body]; [split; reflexivity|].
  destruct (negb (Rest.is200 statusCode)).
  - destruct body as [b|]; [|split; reflexivity].
    destruct (prop b (js "Messages")) as [[]|]; split; reflexivity.
  - split; reflexivity.
Qed.

Lemma run_storeDates (rt : Runtime) (timeZone : val) msg tr :
  final (run w (Rest.storeDates rt timeZone) msg tr)
  = {| uid := uid msg; header := header msg; attachments := attachments msg;
       body := body msg;
       parsedFields :=
         option_map (stamp rt (to_string (js_or timeZone (VStr (js "+00:00")))))
                    (parsedFields msg) |}
  /\ trace (run w (Rest.storeDates rt timeZone) msg tr) = tr
  /\ settled (run w (Rest.storeDates rt timeZone) msg tr) <> None.
Proof.
  unfold Rest.storeDates. cbn [run]. unfold Rest.updateDates.
  destruct msg as [u h a b [pf|]]; cbn; repeat split; discriminate.
Qed.

End CreateIssue.

(** C9: [createIssue] first looks up the timezone offset of the customer
    (or else of the author).  Every field of [parsedFields] whose value
    parses as a date gets the resolved offset appended, or [+00:00] when the
    lookup fails; the POST of the issue, carrying those fields, is issued
    next whatever the outcome of the lookup, and nothing follows it. *)
Theorem C9_timezone_appended_and_issue_posted
        (rt : Runtime) (config : RestConfig) (issue : val) (w : World)
        (msg : Message) (tr : list event) (uri : jsstring)
        (fields : list (jsstring * val)) :
  getModelPath config (js "Issues") = Normal uri ->
  Rest.issueFields rt config issue = Normal fields ->
  let person := js_or (or_undefined (lookup (js "customerId") fields))
                      (or_undefined (lookup (js "authorId") fields)) in
  let asked := run w (Rest.getTimezoneOffsetByPersonId config person) msg tr in
  let zone := match settled asked with
              | Some (Resolved offset) => to_string offset
              | _ => js "+00:00"
              end in
  let stamped := option_map (stamp rt zone) (parsedFields msg) in
  exists p,
    Rest.createIssue rt config issue = Normal p
    /\ parsedFields (final (run w p msg tr)) = stamped
    /\ trace (run w p msg tr)
       = trace asked
         ++ [EvRequest (Rest.postOptions config uri "ZIssue"
                          (Rest.getIssueObj config stamped fields))].
Proof.
  intros Hu Hf. cbv zeta.
  set (person := js_or (or_undefined (lookup (js "customerId") fields))
                       (or_undefined (lookup (js "authorId") fields))).
  destruct (run_timezone w config person msg tr) as (o & Ho & Hm & Htruthy).
  unfold Rest.createIssue. rewrite Hu, Hf. cbn [bind]. fold person.
  eexists. split; [reflexivity|].
  rewrite run_settle, run_catch, run_then.
  destruct (run w (Rest.getTimezoneOffsetByPersonId config person) msg tr)
    as [so fm ft].
  cbn [settled final trace] in *. subst so fm.
  destruct o as [offset|e]; cbn [settled final trace].
  - (* the lookup resolved with an offset *)
    destruct (run_storeDates w rt offset msg ft) as (Hfin & Htr & Hset).
    specialize (Htruthy offset eq_refl).
    unfold js_or in Hfin. rewrite Htruthy in Hfin.
    destruct (parsedFields msg) as [pf|] eqn:Hpf.
    + (* the fields are there: the update succeeds *)
      assert (Hr : settled (run w (Rest.storeDates rt offset) msg ft)
                   = Some (Resolved VUndefined)).
      { unfold Rest.storeDates. cbn [run]. unfold Rest.updateDates.
        rewrite Hpf. reflexivity. }
      rewrite Hr. cbn [settled]. rewrite Hr, Hfin, Htr.
      cbn [run parsedFields option_map].
      split.
      * rewrite (proj1 (createResponse_ends w _ _ _ _ _)). reflexivity.
      * rewrite (proj2 (createResponse_ends w _ _ _ _ _)). reflexivity.
    + (* no fields: both updates throw, the POST follows all the same *)
      assert (Hr : forall timeZone,
                 run w (Rest.storeDates rt timeZone) msg ft
                 = {| settled := Some (Rejected TypeError); final := msg; trace := ft |}).
      { intros timeZone. unfold Rest.storeDates. cbn [run]. unfold Rest.updateDates.
        rewrite Hpf. reflexivity. }
      rewrite (Hr offset). cbn [settled final trace].
      rewrite (Hr VUndefined). cbn [settled final trace run]. rewrite Hpf.
      cbn [option_map].
      split.
      * rewrite (proj1 (createResponse_ends w _ _ _ _ _)). exact Hpf.
      * rewrite (proj2 (createResponse_ends w _ _ _ _ _)). reflexivity.
  - (* the lookup failed *)
    destruct (run_storeDates w rt VUndefined msg ft) as (Hfin & Htr & Hset).
    cbn [js_or truthy] in Hfin.
    destruct (settled (run w (Rest.storeDates rt VUndefined) msg ft)) as [o|] eqn:Hr;
      [|congruence].
    rewrite Hfin, Htr. cbn [run parsedFields].
    split.
    + rewrite (proj1 (createResponse_ends w _ _ _ _ _)). reflexivity.
    + rewrite (proj2 (createResponse_ends w _ _ _ _ _)). reflexivity.
Qed.

Lemma C9_witness :
  exists p,
    Rest.createIssue Config.runtime Config.restConfig
      (VObj [(js "id", VStr (js "PRS000000000042"));
             (js "title", VStr (js "Printer broken"));
             (js "description", VStr (js "Printer dead<br>"));
             (js "externalId", VNum 5)]) = Normal p
    /\ parsedFields
         (final
            (run {| fetchReply := fun _ _ => FetchError;
                    moveError := fun _ _ _ => false;
                    httpReply := fun _ _ =>
                      Response 200
                        (Some (VObj [(js "results",
                                      VArr [VObj [(js "OFFSET", VStr (js "+03:00"))]])])) |}
                 p
                 {| uid := 5; header := []; attachments := []; body := js "Printer dead<br>";
                    parsedFields := Some [(js "requiredOn", js "2024-12-25T10:30:00");
                                          (js "teamId", js "TEM000000000001")] |}
                 []))
       = Some [(js "requiredOn", js "2024-12-25T10:30:00+03:00");
               (js "teamId", js "TEM000000000001")].
Proof.
  destruct (C9_timezone_appended_and_issue_posted
              Config.runtime Config.restConfig
              (VObj [(js "id", VStr (js "PRS000000000042"));
                     (js "title", VStr (js "Printer broken"));
                     (js "description", VStr (js "Printer dead<br>"));
                     (js "externalId", VNum 5)])
              {| fetchReply := fun _ _ => FetchError;
                 moveError := fun _ _ _ => false;
                 httpReply := fun _ _ =>
                   Response 200
                     (Some (VObj [(js "results",
                                   VArr [VObj [(js "OFFSET", VStr (js "+03:00"))]])])) |}
              {| uid := 5; header := []; attachments := []; body := js "Printer dead<br>";
                 parsedFields := Some [(js "requiredOn", js "2024-12-25T10:30:00");
                                       (js "teamId", js "TEM000000000001")] |}
              [] _ _ eq_refl eq_refl) as (p & Hp & Hpf & _).
  exists p. split; [exact Hp | exact Hpf].
Defined.

(** ** The mailbox check *)

Lemma logCheckResult_true name st : logCheckResult name true st = st.
Proof. destruct st as [checked errors]. reflexivity. Qed.

(** What [checkName] decides: a box that is there fails without both of
    its children; a box that is not there passes, unless [in] finds its
    name all the same. *)
Lemma checkName_checked delimiter boxes name cfg errors :
  fst (checkName delimiter boxes name cfg errors) =
  match lookup name boxes with
  | Some b => childExists (children b) (success cfg)
              && childExists (children b) (failure cfg)
  | None => negb (inherited name)
  end.
Proof.
  unfold checkName, js_in, has_key, childrenOf.
  destruct (lookup name boxes) as [b|]; cbn [orb].
  - rewrite logCheckResult_true. unfold logCheckResult.
    destruct (childExists (children b) (success cfg)),
             (childExists (children b) (failure cfg)); reflexivity.
  - destruct (inherited name); reflexivity.
Qed.

(** The two lists that [checkConfig] builds split the configured names, in
    their order, by [passes]. *)
Lemma checkConfig_partition delimiter config boxes :
  passed (checkConfig delimiter config boxes) = map fst (filter (passes boxes) config)
  /\ failed (checkConfig delimiter config boxes)
     = map fst (filter (fun nc => negb (passes boxes nc)) config).
Proof.
  unfold checkConfig.
  set (f := fun acc nc =>
              let name := fst nc in
              let '(checked, errors) :=
                checkName delimiter boxes name (snd nc) (logged acc) in
              if checked
              then {| passed := passed acc ++ [name]; failed := failed acc;
                      logged := errors |}
              else {| passed := passed acc; failed := failed acc ++ [name];
                      logged := errors |}).
  assert (H : forall acc,
             passed (fold_left f config acc)
             = passed acc ++ map fst (filter (passes boxes) config)
             /\ failed (fold_left f config acc)
                = failed acc ++ map fst (filter (fun nc => negb (passes boxes nc)) config)).
  { induction config as [|nc config IH]; intros acc; cbn [fold_left filter map].
    - now rewrite !app_nil_r.
    - destruct (IH (f acc nc)) as [Hp Hf]. rewrite Hp, Hf. clear IH Hp Hf.
      unfold f. cbv zeta.
      pose proof (checkName_checked delimiter boxes (fst nc) (snd nc) (logged acc)) as Hc.
      fold (passes boxes nc) in Hc.
      destruct (checkName delimiter boxes (fst nc) (snd nc) (logged acc))
        as [checked errors].
      cbn [fst] in Hc. subst checked.
      destruct (passes boxes nc); cbn [passed failed negb map];
        rewrite <- ?app_assoc; split; reflexivity. }
  apply (H {| passed := []; failed := []; logged := [] |}).
Qed.

(** C2 at the input of scenario S5: [Drafts] is configured and absent from
    the hierarchy, [INBOX] is there with both children.  [checkConfig] puts
    both names in [passed], nothing in [failed] and logs nothing, so
    [checkBoxes] resolves with both and [Drafts] is polled like [INBOX]. *)
Theorem C2_absent_mailbox_is_passed :
  let boxes := [(js "INBOX",
                 mkBox (Some [(Config.processed, mkBox None);
                              (Config.unprocessed, mkBox None)]))] in
  lookup (js "Drafts") boxes = None
  /\ checkConfig (delimiter Config.conn) (mailboxConfig Config.instance01) boxes
     = {| passed := [js "INBOX"; js "Drafts"]; failed := []; logged := [] |}
  /\ checkBoxes Config.conn (Boxes boxes)
     = Some (Resolved (VArr [VStr (js "INBOX"); VStr (js "Drafts")])).
Proof. repeat split. Qed.

(** ** Date attributes *)

Lemma replace_fn_nonempty (r : regex) (fn : jsstring -> matched -> jsstring) s :
  (forall x, fn s x <> []) -> s <> [] -> replace_fn r fn s <> [].
Proof.
  intros Hfn Hs. unfold replace_fn. destruct (exec r s) as [x|]; [|exact Hs].
  intros H. apply app_eq_nil in H as [_ H]. apply app_eq_nil in H as [H _].
  exact (Hfn x H).
Qed.

Lemma m_star_class_run (p : jschar -> bool) (k : cont) res :
  forall l rest i c,
    Forall (fun x => p x = true) l ->
    match rest with x :: _ => p x = false | [] => True end ->
    k (i + length l) rest c = Some res ->
    m (Star true (Chr p)) i (l ++ rest) c k = Some res.
Proof.
  induction l as [|x l IH]; intros rest i c Hl Hrest Hk; rewrite m_star_class.
  - cbn [app length] in *. rewrite Nat.add_0_r in Hk.
    destruct rest as [|y rest]; [exact Hk|]. rewrite Hrest. exact Hk.
  - cbn [app]. inversion Hl as [|? ? Hx Hl']; subst. rewrite Hx.
    rewrite (IH rest (S i) c Hl' Hrest); [reflexivity|].
    cbn [length] in Hk. replace (S i + length l) with (i + S (length l)) by lia.
    exact Hk.
Qed.

Lemma m_seq r1 r2 i s c k :
  m (Seq r1 r2) i s c k = m r1 i s c (fun i' s' c' => m r2 i' s' c' k).
Proof. reflexivity. Qed.

Lemma m_chr p i x s c k :
  m (Chr p) i (x :: s) c k = if p x then k (S i) s c else None.
Proof. reflexivity. Qed.

Lemma m_chr_nil p i c k : m (Chr p) i [] c k = None.
Proof. reflexivity. Qed.

Lemma m_group n r i s c k :
  m (Group n r) i s c k = m r i s c (fun i' s' c' => k i' s' ((n, (i, i')) :: c')).
Proof. reflexivity. Qed.

Lemma m_empty i s c k : m Empty i s c k = k i s c.
Proof. reflexivity. Qed.

Lemma m_opt r i s c k : m (Opt r) i s c k = orelse (m r i s c k) (k i s c).
Proof. reflexivity. Qed.

Ltac match_step :=
  first [ rewrite m_seq | rewrite m_group | rewrite m_empty | rewrite m_chr
        | rewrite m_chr_nil | rewrite m_opt ];
  cbv beta.

Ltac use_classes :=
  repeat match goal with H : _ = true |- _ => rewrite H end.

Lemma digit_not_space x : is_digit x = true -> is_space x = false.
Proof.
  unfold is_digit, is_space, in_range. intros H.
  apply andb_true_iff in H as [H1 H2].
  apply N.leb_le in H1. apply N.leb_le in H2.
  repeat (apply orb_false_iff; split);
    try (apply andb_false_iff; first [left; apply N.leb_gt; lia | right; apply N.leb_gt; lia]);
    try (apply N.eqb_neq; lia).
Qed.

Lemma exec_at_start r s e c :
  m r 0 s [] accept = Some (e, c) ->
  exec r s = Some {| m_start := 0; m_end := e; m_caps := c |}.
Proof. intros H. unfold exec. destruct s; cbn [exec_from]; rewrite H; reflexivity. Qed.

(** A date without a time, as the attribute pattern captures it, comes out
    in the canonical form with the last second of the day. *)
Lemma parseDate_date d1 d2 a m1 m2 b y1 y2 y3 y4 spaces :
  forallb is_digit [d1; d2; m1; m2; y1; y2; y3; y4] = true ->
  isSep a = true -> isSep b = true ->
  Forall (fun x => is_space x = true) spaces ->
  parseDate ([d1; d2; a; m1; m2; b; y1; y2; y3; y4] ++ spaces)
  = Some ([y1; y2; y3; y4] ++ js "-" ++ [m1; m2] ++ js "-" ++ [d1; d2] ++ js "T23:59:59").
Proof.
  intros Hd Ha Hb Hs.
  cbn [forallb] in Hd. repeat (apply andb_true_iff in Hd as [? Hd]).
  assert (M : m dateRe 0 ([d1; d2; a; m1; m2; b; y1; y2; y3; y4] ++ spaces) [] accept
              = Some (10 + length spaces, [(3, (6, 10)); (2, (3, 5)); (1, (0, 2))])).
  { cbn [app]. unfold dateRe, Rep, digit, sep. fold isSep.
    repeat (match_step; use_classes).
    rewrite <- (app_nil_r spaces) at 1.
    apply m_star_class_run; [exact Hs | exact I |].
    repeat match_step. reflexivity. }
  unfold parseDate, replace_fn. rewrite (exec_at_start _ _ _ _ M).
  cbn [m_start m_end firstn app].
  rewrite skipn_all2 by (cbn [length app]; lia).
  reflexivity.
Qed.

(** A date with a time comes out with that time and zero seconds. *)
Lemma parseDate_date_time d1 d2 a m1 m2 b y1 y2 y3 y4 spaces h1 h2 c n1 n2 :
  forallb is_digit [d1; d2; m1; m2; y1; y2; y3; y4; h1; h2; n1; n2] = true ->
  isSep a = true -> isSep b = true -> chr_is ":" c = true ->
  Forall (fun x => is_space x = true) spaces ->
  parseDate ([d1; d2; a; m1; m2; b; y1; y2; y3; y4] ++ spaces ++ [h1; h2; c; n1; n2])
  = Some ([y1; y2; y3; y4] ++ js "-" ++ [m1; m2] ++ js "-" ++ [d1; d2] ++ js "T"
          ++ [h1; h2; c; n1; n2] ++ js ":00").
Proof.
  intros Hd Ha Hb Hc Hs.
  cbn [forallb] in Hd. repeat (apply andb_true_iff in Hd as [? Hd]).
  assert (M : m dateRe 0
                ([d1; d2; a; m1; m2; b; y1; y2; y3; y4] ++ spaces ++ [h1; h2; c; n1; n2])
                [] accept
              = Some (10 + length spaces + 5,
                      [(4, (10 + length spaces, 10 + length spaces + 5));
                       (3, (6, 10)); (2, (3, 5)); (1, (0, 2))])).
  { cbn [app]. unfold dateRe, Rep, digit, sep. fold isSep.
    repeat (match_step; use_classes).
    apply m_star_class_run; [exact Hs | now apply digit_not_space |].
    repeat (match_step; use_classes).
    unfold accept. cbn [orelse]. repeat f_equal; lia. }
  unfold parseDate, replace_fn. rewrite (exec_at_start _ _ _ _ M).
  cbn [m_start m_end firstn app].
  rewrite skipn_all2 by (cbn [length app]; rewrite length_app; cbn [length]; lia).
  unfold dateReplacer, group. cbn [m_caps cap Nat.eqb option_map fst snd or_empty].
  assert (G4 : substring (10 + length spaces) (10 + length spaces + 5)
                 (d1 :: d2 :: a :: m1 :: m2 :: b :: y1 :: y2 :: y3 :: y4
                     :: spaces ++ [h1; h2; c; n1; n2])
               = [h1; h2; c; n1; n2]).
  { unfold substring. replace (10 + length spaces + 5 - (10 + length spaces)) with 5 by lia.
    cbn [Nat.add skipn]. rewrite skipn_app, skipn_all, Nat.sub_diag. reflexivity. }
  rewrite G4. reflexivity.
Qed.

(** [parseDate] never answers [NaN] for a string that is not empty: its
    check of the Date object lets every string through. *)
Lemma parseDate_lets_through (dateStr : jsstring) :
  dateStr <> [] -> parseDate dateStr = Some (replace_fn dateRe dateReplacer dateStr).
Proof.
  intros Hs. unfold parseDate.
  assert (H : replace_fn dateRe dateReplacer dateStr <> []).
  { apply replace_fn_nonempty; [|exact Hs].
    intros x H. unfold dateReplacer in H.
    repeat (apply app_eq_nil in H as [_ H]).
    destruct (truthy (VStr (or_empty (group dateStr x 4)))).
    - apply app_eq_nil in H as [_ H]. discriminate.
    - discriminate. }
  destruct (replace_fn dateRe dateReplacer dateStr); [congruence | reflexivity].
Qed.

(** C5 at a body whose date names no day: month 99, day 99.  The value is
    canonicalised and stored all the same, and the stored string is not a
    valid ISO 8601 local time. *)
Theorem C5_invalid_date_is_stored :
  parseDate (js "99-99-2024") = Some (js "2024-99-99T23:59:59")
  /\ parsePermittedAttributes Config.runtime Config.restConfig
       (js "requiredOn: 99-99-2024" ++ [10%N])
     = [(js "requiredOn", js "2024-99-99T23:59:59")]
  /\ validIsoLocal (js "2024-99-99T23:59:59") = false.
Proof. repeat split. Qed.

(** ** The comment flow *)

Section CommentFlow.

Variable rt : Runtime.
Variable restConfig : RestConfig.
Variable w : World.

Lemma posts_app resource a b :
  posts resource (a ++ b) = posts resource a ++ posts resource b.
Proof. unfold posts. apply flat_map_app. Qed.

Lemma moves_app a b : moves (a ++ b) = moves a ++ moves b.
Proof. unfold moves. apply filter_app. Qed.

Lemma createResponse_cases prefix err reply :
  Rest.createResponse prefix err reply = Crashed
  \/ exists o, Rest.createResponse prefix err reply = Settled o.
Proof.
  unfold Rest.createResponse. destruct reply as [|statusCode body]; [left; reflexivity|].
  destruct (negb (Rest.is200 statusCode)).
  - destruct body as [b|]; [|left; reflexivity].
    destruct (prop b (js "Messages")) as [[]|]; try (left; reflexivity).
    right. eexists. reflexivity.
  - right. eexists. reflexivity.
Qed.

(** The uploads of [saveMessageAttachments] create nothing through a
    JSON body and move nothing. *)
Lemma run_uploads (isIssue : bool) (id : val) (next : promise) :
  forall atts msg tr,
  exists ups,
    run w (fold_right (saveOneAttachment rt restConfig isIssue id) next atts) msg tr
    = run w next msg (tr ++ ups)
    /\ (forall resource, posts resource ups = [])
    /\ moves ups = [].
Proof.
  induction atts as [|a atts IH]; intros msg tr; cbn [fold_right].
  - exists []. rewrite app_nil_r. auto.
  - unfold saveOneAttachment at 1.
    destruct (content a); [|apply IH].
    destruct (getModelPath restConfig (js (if isIssue then "Issues" else "Comments")));
      [|apply IH].
    cbn [run].
    destruct (IH msg (tr ++ [EvRequest (Rest.attachmentOptions rt restConfig a0 id
                                          (fileName a) (contentType a))]))
      as (ups & Hrun & Hposts & Hmoves).
    eexists (_ :: ups). rewrite Hrun. rewrite <- app_assoc. split; [reflexivity|].
    split; [|exact Hmoves].
    intros resource. unfold posts. cbn [flat_map posted reqBody Rest.attachmentOptions].
    apply Hposts.
Qed.

Lemma run_saveMessageAttachments (isIssue : bool) (id : val) msg tr :
  exists ups v,
    run w (saveMessageAttachments rt restConfig isIssue id) msg tr
    = {| settled := Some (Resolved v); final := msg; trace := tr ++ ups |}
    /\ (forall resource, posts resource ups = [])
    /\ moves ups = [].
Proof.
  unfold saveMessageAttachments. destruct (negb (joinAttachments restConfig)).
  - exists [], VUndefined. rewrite app_nil_r. auto.
  - cbn [run].
    destruct (run_uploads isIssue id (resolve (VMessage (uid msg)))
                (attachments msg) msg tr) as (ups & Hrun & Hp & Hm).
    exists ups, (VMessage (uid msg)). rewrite Hrun. auto.
Qed.

Lemma run_move (boxName : val) (message : Message) msg tr :
  exists o,
    run w (moveMessageFn boxName message) msg tr
    = {| settled := Some o; final := msg;
         trace := tr ++ [EvMove (uid message) boxName] |}.
Proof.
  unfold moveMessageFn. cbn [run].
  destruct (moveError w tr (uid message) boxName); eexists; reflexivity.
Qed.

(** Creating the comment and moving the message: one POST of the comment,
    then one move, unless the response handler crashes. *)
Lemma run_commentAndMove successBox failureBox message comment moved uri fields :
  commentAndMove rt restConfig successBox failureBox message comment = Normal moved ->
  getModelPath restConfig (js "Comments") = Normal uri ->
  Rest.commentFields rt restConfig comment = Normal fields ->
  forall msg tr,
  exists rest,
    trace (run w moved msg tr)
    = tr ++ EvRequest (Rest.postOptions restConfig uri "ZComment" (VObj (assign [] fields)))
         :: rest
    /\ posts "ZComment" rest = []
    /\ (moves rest = [EvMove (uid message) successBox]
        \/ moves rest = [EvMove (uid message) failureBox]
        \/ (moves rest = [] /\ settled (run w moved msg tr) = None)).
Proof.
  intros Hmoved Huri Hfields msg tr.
  unfold commentAndMove, Rest.createComment in Hmoved.
  rewrite Huri, Hfields in Hmoved. cbn [bind] in Hmoved. injection Hmoved as <-.
  rewrite run_catch, run_then, run_then. cbn [run].
  set (post := EvRequest (Rest.postOptions restConfig uri "ZComment" (VObj (assign [] fields)))).
  destruct (createResponse_cases "CMT" "Error inserting a new comment"
              (httpReply w tr (Rest.postOptions restConfig uri "ZComment"
                                 (VObj (assign [] fields)))))
    as [Hc | [[commentId|e] Hc]]; rewrite Hc; cbn [run settled final trace].
  - exists []. split; [reflexivity|]. split; [reflexivity|].
    right. right. split; reflexivity.
  - destruct (run_saveMessageAttachments false commentId msg (tr ++ [post]))
      as (ups & v & Hsave & Hposts & Hmoves).
    rewrite Hsave. cbn [settled final trace].
    rewrite run_catch.
    destruct (run_move successBox message msg ((tr ++ [post]) ++ ups)) as [o Hmove].
    rewrite Hmove. cbn [settled final trace].
    exists (ups ++ [EvMove (uid message) successBox]).
    assert (Htrace : ((tr ++ [post]) ++ ups) ++ [EvMove (uid message) successBox]
                     = tr ++ post :: ups ++ [EvMove (uid message) successBox]).
    { rewrite <- !app_assoc. reflexivity. }
    split; [|split].
    + destruct o; cbn [run settled trace]; exact Htrace.
    + rewrite posts_app, Hposts. reflexivity.
    + left. rewrite moves_app, Hmoves. reflexivity.
  - destruct (run_move failureBox message msg (tr ++ [post])) as [o Hmove].
    rewrite Hmove. cbn [trace].
    exists [EvMove (uid message) failureBox]. split; [|split].
    + rewrite <- app_assoc. reflexivity.
    + reflexivity.
    + right. left. reflexivity.
Qed.

End CommentFlow.

Lemma Normal_inj {A} (a b : A) : Normal a = Normal b -> a = b.
Proof. intros H. injection H as H. exact H. Qed.

Lemma header0_withBody rt restConfig name message mail :
  Rest.header0 name (withBody rt restConfig message mail) = Rest.header0 name message.
Proof. reflexivity. Qed.

(** C3, as the code has it: in the comment flow, when the lookup of the
    sender is rejected, the comment object handed to [createComment] has a
    null author, and [createComment] puts [defaultIssueAttrs.authorId], the
    configured system author, in its place: the one comment POSTed carries
    that author, the truncated body and the id of the issue. *)
Theorem C3_unknown_sender_comment_has_default_author
        (rt : Runtime) (restConfig : RestConfig) (conn : Conn) (boxName : jsstring)
        (issue : val) (message : Message) (w : World) (p : promise)
        (mail : Mail) (email issueId e : val) (path address uri : jsstring) :
  doCreateComment rt restConfig conn boxName issue message = Normal p ->
  fetchReply w [] (uid message) = FetchMail mail ->
  Rest.header0 (js "from") message = Normal email ->
  prop issue (js "Id") = Normal issueId ->
  getModelPath restConfig (js "Persons") = Normal path ->
  parseEmailAddress email = Normal address ->
  address <> [] ->
  Rest.personResponse email
    (httpReply w [EvFetch (uid message)] (Rest.personOptions restConfig path address))
  = Rejected e ->
  getModelPath restConfig (js "Comments") = Normal uri ->
  posts "ZComment" (trace (run w p message []))
  = [VObj [(js "authorId", Rest.default restConfig (js "authorId"));
           (js "comment", VStr (body (withBody rt restConfig message mail)));
           (js "createdOn", now rt);
           (js "foreignKey", issueId);
           (js "isPublic", VBool true)]].
Proof.
  intros Hp Hfetch Hfrom Hid Hpath Haddr Hne Hlookup Huri.
  unfold doCreateComment in Hp.
  destruct (getSuccessBoxName conn boxName) as [successBox|]; [|discriminate].
  destruct (getFailureBoxName conn boxName) as [failureBox|]; [|discriminate].
  cbn [bind] in Hp. apply Normal_inj in Hp. subst p.
  rewrite run_catch, run_then. unfold getMessageBody. cbn [run app].
  rewrite Hfetch. unfold commentOnceFetched. cbn [run settled final trace resolve].
  rewrite header0_withBody, Hfrom, Hid. cbn [bind].
  unfold Rest.getPersonIdByEmail. rewrite Hpath, Haddr. cbn [bind].
  destruct address as [|a0 address]; [congruence|].
  cbn [truthy length Nat.eqb negb bind callback].
  rewrite run_finally_resolve, !run_then, run_catch. cbn [run app].
  rewrite Hlookup. cbn [settled final trace].
  set (msg := withBody rt restConfig message mail).
  set (comment := VObj (commentOf issueId msg)).
  assert (Hfields : Rest.commentFields rt restConfig comment
                    = Normal [(js "authorId", Rest.default restConfig (js "authorId"));
                              (js "comment", VStr (body msg));
                              (js "createdOn", now rt);
                              (js "foreignKey", issueId);
                              (js "isPublic", VBool true)]) by reflexivity.
  destruct (commentAndMove rt restConfig successBox failureBox msg comment)
    as [moved|] eqn:Hmoved.
  2: { unfold commentAndMove, Rest.createComment in Hmoved.
       rewrite Huri, Hfields in Hmoved. discriminate. }
  cbn [bind callback]. rewrite run_finally_reject.
  destruct (run_commentAndMove rt restConfig w successBox failureBox msg comment
              moved uri _ Hmoved Huri Hfields msg
              [EvFetch (uid message);
               EvRequest (Rest.personOptions restConfig path (a0 :: address))])
    as (rest & Htrace & Hposts & _).
  destruct (run w moved msg _) as [[o|] fm ft]; cbn [settled final trace run] in *;
    subst ft; unfold posts; cbn [flat_map posted reqBody Rest.personOptions app];
    fold (posts "ZComment" rest); rewrite Hposts; reflexivity.
Qed.

Lemma C3_witness :
  exists p,
    doCreateComment Config.runtime Config.restConfig Config.conn (js "INBOX")
      Scenario.issue354 Scenario.reply = Normal p
    /\ posts "ZComment" (trace (run Scenario.unknownSender p Scenario.reply []))
       = [VObj [(js "authorId", VStr (js "PRS000000000001"));
                (js "comment", VStr (js "please check<br>"));
                (js "createdOn", now Config.runtime);
                (js "foreignKey", VStr (js "SRQ000000000354"));
                (js "isPublic", VBool true)]].
Proof.
  eexists. split; [reflexivity|].
  apply (C3_unknown_sender_comment_has_default_author
           Config.runtime Config.restConfig Config.conn (js "INBOX")
           Scenario.issue354 Scenario.reply Scenario.unknownSender _
           Scenario.replyMail (VStr (js "Bob <bob@x>")) (VStr (js "SRQ000000000354"))
           (VStr (js "Bob <bob@x>"))
           (js "http://192.168.102.105:16485/SM/9/rest/zPersons") (js "bob@x")
           (js "http://192.168.102.105:16485/SM/9/rest/zComments"));
    try reflexivity.
  discriminate.
Defined.

(** The claim C3 as it was stated fails in scenario S2: the sender is
    unknown, and the author of the comment that is POSTed is the system
    author of the configuration, not null. *)
Lemma C3_counterexample :
  exists p,
    doCreateComment Config.runtime Config.restConfig Config.conn (js "INBOX")
      Scenario.issue354 Scenario.reply = Normal p
    /\ Rest.personResponse (VStr (js "Bob <bob@x>"))
         (httpReply Scenario.unknownSender [EvFetch 7]
            (Rest.personOptions Config.restConfig
               (js "http://192.168.102.105:16485/SM/9/rest/zPersons") (js "bob@x")))
       = Rejected (VStr (js "Bob <bob@x>"))
    /\ map (fun c => prop c (js "authorId"))
           (posts "ZComment" (trace (run Scenario.unknownSender p Scenario.reply [])))
       = [Normal (VStr (js "PRS000000000001"))]
    /\ Normal (VStr (js "PRS000000000001")) <> Normal VNull.
Proof.
  eexists. split; [reflexivity|]. split; [reflexivity|]. split; [reflexivity|].
  discriminate.
Qed.

(** ** The moves of a dispatch *)

(** C1 on the path where the body cannot be fetched: [doCreateComment]
    swallows the rejection of [getMessageBody] and resolves, having issued
    the fetch and no move at all, neither to the success child nor to the
    failure child. *)
Theorem C1_comment_flow_moves_nothing_when_fetch_fails
        (rt : Runtime) (restConfig : RestConfig) (conn : Conn) (boxName : jsstring)
        (issue : val) (message : Message) (w : World) (tr : list event) (p : promise) :
  doCreateComment rt restConfig conn boxName issue message = Normal p ->
  fetchReply w tr (uid message) = FetchError ->
  run w p message tr
  = {| settled := Some (Resolved VUndefined);
       final := message;
       trace := tr ++ [EvFetch (uid message)] |}
  /\ moves (trace (run w p message tr)) = moves tr.
Proof.
  intros Hp Hfetch. unfold doCreateComment in Hp.
  destruct (getSuccessBoxName conn boxName) as [successBox|]; [|discriminate].
  destruct (getFailureBoxName conn boxName) as [failureBox|]; [|discriminate].
  cbn [bind] in Hp. apply Normal_inj in Hp. subst p.
  assert (E : run w (getMessageBody rt restConfig message) message tr
              = {| settled := Some (Rejected (VMessage (uid message)));
                   final := message;
                   trace := tr ++ [EvFetch (uid message)] |}).
  { unfold getMessageBody. cbn [run]. rewrite Hfetch. reflexivity. }
  rewrite run_catch, run_then, E. cbn [settled final trace run resolve].
  split; [reflexivity|].
  rewrite moves_app. apply app_nil_r.
Qed.

Lemma C1_witness :
  exists p,
    doCreateComment Config.runtime Config.restConfig Config.conn (js "INBOX")
      Scenario.issue354 Scenario.reply = Normal p
    /\ moves (trace (run Scenario.fetchFails p Scenario.reply [])) = [].
Proof.
  eexists. split; [reflexivity|].
  apply (C1_comment_flow_moves_nothing_when_fetch_fails
           Config.runtime Config.restConfig Config.conn (js "INBOX")
           Scenario.issue354 Scenario.reply Scenario.fetchFails []);
    reflexivity.
Defined.

(** X26: the issue flow does what the comment flow misses: when the body cannot
    be fetched and no system issue is to be created, it moves the message to
    the failure child. *)
Lemma issue_flow_moves_to_failure_when_fetch_fails
      (rt : Runtime) (restConfig : RestConfig) (conn : Conn) (boxName : jsstring)
      (message : Message) (w : World) (tr : list event) (p : promise) (failureBox : val) :
  doCreateIssue rt restConfig conn boxName message = Normal p ->
  createSystemIssue (onPersonNotFound restConfig) = false ->
  getFailureBoxName conn boxName = Normal failureBox ->
  fetchReply w tr (uid message) = FetchError ->
  trace (run w p message tr)
  = tr ++ [EvFetch (uid message); EvMove (uid message) failureBox].
Proof.
  intros Hp Hsys Hbox Hfetch. unfold doCreateIssue in Hp.
  destruct (Rest.header0 (js "from") message) as [email|]; [|discriminate].
  destruct (getSuccessBoxName conn boxName) as [successBox|]; [|discriminate].
  rewrite Hbox, Hsys in Hp.
  cbn [bind] in Hp. apply Normal_inj in Hp. subst p.
  assert (E : run w (getMessageBody rt restConfig message) message tr
              = {| settled := Some (Rejected (VMessage (uid message)));
                   final := message;
                   trace := tr ++ [EvFetch (uid message)] |}).
  { unfold getMessageBody. cbn [run]. rewrite Hfetch. reflexivity. }
  rewrite !run_then, run_catch, run_then, E. cbn [settled final trace].
  rewrite run_finally_reject.
  destruct (run_move w failureBox message message (tr ++ [EvFetch (uid message)]))
    as [o Hmove].
  rewrite Hmove. cbn [settled final trace]. rewrite <- app_assoc. reflexivity.
Qed.

(** ** The dispatch of a mailbox *)

Section DispatchFacts.

Variable rt : Runtime.
Variable restConfig : RestConfig.
Variable conn : Conn.
Variable boxName : jsstring.







Lemma crashed_stays (schedule : list (nat * Reply)) :
  forall l, crashed l = true -> fold_left deliver schedule l = l.
Proof.
  induction schedule as [|d ds IH]; intros l H; cbn [fold_left]; [reflexivity|].
  assert (E : deliver l d = l) by (unfold deliver; now rewrite H).
  rewrite E. now apply IH.
Qed.



End DispatchFacts.




(** ** What holds on every run *)

Section Always.

Variable I : Message -> Prop.

Lemma always_run (p : promise) :
  forall Q ms w msg tr,
    always I p Q ms -> I msg -> moves tr = ms ->
    Q (settled (run w p msg tr)) (moves (trace (run w p msg tr)))
    /\ I (final (run w p msg tr)).
Proof.
  induction p as [o| |k IH|m0 k IH|u k IH|u b k IH|o k IH];
    intros Q ms w msg tr H Hm Htr; cbn [always run settled trace final] in *.
  - subst ms. auto.
  - subst ms. auto.
  - apply (IH msg Q ms); auto.
  - destruct H as [Hm0 H]. apply (IH Q ms); auto.
  - apply (IH _ Q ms); auto. rewrite moves_app, Htr. apply app_nil_r.
  - apply (IH _ Q (ms ++ [EvMove u b])); auto. rewrite moves_app, Htr. reflexivity.
  - apply (IH _ Q ms); auto. rewrite moves_app, Htr. apply app_nil_r.
Qed.

Lemma always_weaken (p : promise) :
  forall (Q Q' : option outcome -> list event -> Prop) ms,
    (forall o ms', Q o ms' -> Q' o ms') ->
    always I p Q ms -> always I p Q' ms.
Proof.
  induction p as [o| |k IH|m0 k IH|u k IH|u b k IH|o k IH];
    intros Q Q' ms HQ H; cbn [always] in *; auto.
  - intros m Hm. eapply IH; eauto.
  - destruct H as [Hm0 H]. split; [exact Hm0|]. eapply IH; eauto.
  - intros r. eapply IH; eauto.
  - intros r. eapply IH; eauto.
  - intros r. eapply IH; eauto.
Qed.

Lemma always_settle (p : promise) (f : outcome -> promise) :
  forall Q ms,
    always I p (fun o ms' => match o with
                             | Some o' => always I (f o') Q ms'
                             | None => Q None ms'
                             end) ms ->
    always I (settle p f) Q ms.
Proof.
  induction p as [o| |k IH|m0 k IH|u k IH|u b k IH|o k IH];
    intros Q ms H; cbn [always settle] in *; auto.
  destruct H as [Hm0 H]. auto.
Qed.

Lemma always_then (p : promise) (f : val -> promise) Q ms :
  always I p (fun o ms' => match o with
                           | Some (Resolved v) => always I (f v) Q ms'
                           | Some (Rejected e) => Q (Some (Rejected e)) ms'
                           | None => Q None ms'
                           end) ms ->
  always I (then_ p f) Q ms.
Proof.
  intros H. unfold then_. apply always_settle.
  eapply always_weaken; [|exact H].
  intros [[v|e]|] ms' H'; exact H'.
Qed.

Lemma always_catch (p : promise) (f : val -> promise) Q ms :
  always I p (fun o ms' => match o with
                           | Some (Resolved v) => Q (Some (Resolved v)) ms'
                           | Some (Rejected e) => always I (f e) Q ms'
                           | None => Q None ms'
                           end) ms ->
  always I (catch_ p f) Q ms.
Proof.
  intros H. unfold catch_. apply always_settle.
  eapply always_weaken; [|exact H].
  intros [[v|e]|] ms' H'; exact H'.
Qed.

Lemma always_finally_reject (p : promise) (e : val) Q ms :
  always I p (fun o ms' => match o with
                           | Some _ => Q (Some (Rejected e)) ms'
                           | None => Q None ms'
                           end) ms ->
  always I (finally_ p (reject e)) Q ms.
Proof.
  intros H. unfold finally_. apply always_settle.
  eapply always_weaken; [|exact H].
  intros [o|] ms' H'; exact H'.
Qed.

End Always.

(** ** The moves of the issue flow *)

Section IssueFlow.

Variable rt : Runtime.
Variable restConfig : RestConfig.
Variable message : Message.

Let I := sameLetter message.

(** Settled, and no move added to [ms]. *)
Let quiet (ms : list event) : option outcome -> list event -> Prop :=
  fun o ms' => (exists o', o = Some o') /\ ms' = ms.

(** Resolved, and no move added to [ms]. *)
Let done (ms : list event) : option outcome -> list event -> Prop :=
  fun o ms' => (exists v, o = Some (Resolved v)) /\ ms' = ms.

Lemma always_move (boxName : val) (ms : list event) :
  always I (moveMessageFn boxName message)
    (fun o ms' => (exists o', o = Some o') /\ ms' = ms ++ [EvMove (uid message) boxName])
    ms.
Proof. intros [|]; cbn [always resolve reject]; eauto. Qed.

Lemma always_getMessageBody (ms : list event) :
  always I (getMessageBody rt restConfig message) (quiet ms) ms.
Proof.
  intros [|mail]; cbn [always resolve reject]; unfold quiet; [eauto|].
  intros m [Hu Hh]. split; [split; assumption | eauto].
Qed.

Lemma always_person (email : val) (person : promise) (ms : list event) :
  Rest.getPersonIdByEmail restConfig email = Normal (Some person) ->
  always I person (quiet ms) ms.
Proof.
  unfold Rest.getPersonIdByEmail.
  destruct (getModelPath restConfig (js "Persons")); [|discriminate].
  destruct (parseEmailAddress email); [|discriminate]. cbn [bind].
  destruct (negb (truthy (VStr a0))); [discriminate|].
  intros H. apply Normal_inj in H. injection H as <-.
  intros r. cbn [always]. unfold quiet. eauto.
Qed.

Lemma always_checkSpam (personId : val) (m : Message) (ms : list event) :
  always I (Rest.checkSpamByPersonId restConfig personId m) (quiet ms) ms.
Proof.
  unfold Rest.checkSpamByPersonId, quiet.
  destruct (Rest.indexOfFound _ _); [cbn; eauto|].
  destruct (Rest.hasSpamHeaders _ _); [cbn; eauto|].
  intros r. cbn [always]. eauto.
Qed.

Lemma always_timezone (personId : val) (ms : list event) :
  always I (Rest.getTimezoneOffsetByPersonId restConfig personId) (quiet ms) ms.
Proof.
  unfold Rest.getTimezoneOffsetByPersonId, quiet.
  destruct (negb (truthy _)); [cbn; eauto|].
  intros r. cbn [always]. eauto.
Qed.

Lemma always_storeDates (timeZone : val) (ms : list event) :
  always I (Rest.storeDates rt timeZone) (quiet ms) ms.
Proof.
  unfold Rest.storeDates, quiet. intros m [Hu Hh]. unfold Rest.updateDates.
  destruct (parsedFields m); cbn [bind callback always reject resolve]; [|eauto].
  split; [split; assumption | eauto].
Qed.

Lemma always_createIssue (issue : val) (created : promise) (ms : list event) :
  Rest.createIssue rt restConfig issue = Normal created ->
  always I created (fun _ ms' => ms' = ms) ms.
Proof.
  unfold Rest.createIssue.
  destruct (getModelPath restConfig (js "Issues")) as [uri|]; [|discriminate].
  destruct (Rest.issueFields rt restConfig issue) as [fields|]; [|discriminate].
  cbn [bind]. intros H. apply Normal_inj in H. subst created.
  apply always_settle, always_catch, always_then.
  eapply always_weaken; [|apply always_timezone].
  intros o ms' [[[v|e] ->] ->].
  - eapply always_weaken; [|apply always_storeDates].
    intros o ms' [[[v'|e'] ->] ->].
    + intros m _ r. destruct (createResponse_cases "SRQ" "Error inserting a new issue" r)
        as [-> | [o ->]]; reflexivity.
    + eapply always_weaken; [|apply always_storeDates].
      intros o ms' [[o' ->] ->] m _ r.
      destruct (createResponse_cases "SRQ" "Error inserting a new issue" r)
        as [-> | [o ->]]; reflexivity.
  - eapply always_weaken; [|apply always_storeDates].
    intros o ms' [[o' ->] ->] m _ r.
    destruct (createResponse_cases "SRQ" "Error inserting a new issue" r)
      as [-> | [o ->]]; reflexivity.
Qed.

Lemma issueAttachmentResponse_resolves issueId err reply :
  exists v, Rest.issueAttachmentResponse issueId err reply = Resolved v.
Proof.
  unfold Rest.issueAttachmentResponse. destruct reply as [|statusCode body]; [eauto|].
  destruct (negb (Rest.is200 statusCode)); [eauto|].
  destruct body as [result|]; cbn [Rest.parsed bind try_catch]; [|eauto].
  destruct (prop result (js "ReturnCode")) as [rc|]; cbn [bind try_catch]; [|eauto].
  destruct (negb (strict_eq rc (VNum 0))); cbn [try_catch]; eauto.
Qed.

Lemma always_saveEml (issueId : val) (path : jsstring) (ms : list event) :
  getModelPath restConfig (js "Issues") = Normal path ->
  always I (saveEmlAsAttachment rt restConfig message issueId) (done ms) ms.
Proof.
  intros Hp. unfold saveEmlAsAttachment, done.
  destruct (negb (joinOriginalAsEml restConfig)); [cbn; eauto|].
  intros [|mail]; [cbn; eauto|]. rewrite Hp. intros r. cbn [always].
  destruct (issueAttachmentResponse_resolves issueId
              (Rest.attachmentError (decimal (uid message) ++ js "-message.eml")
                 (uid message)) r) as [v ->].
  eauto.
Qed.

Lemma always_uploads (isIssue : bool) (id : val) (next : promise) Q (ms : list event) :
  always I next Q ms ->
  forall atts,
    always I (fold_right (saveOneAttachment rt restConfig isIssue id) next atts) Q ms.
Proof.
  intros Hnext. induction atts as [|a atts IH]; cbn [fold_right]; [exact Hnext|].
  unfold saveOneAttachment at 1. destruct (content a); [|exact IH].
  destruct (getModelPath restConfig _); [|exact IH].
  intros r. exact IH.
Qed.

Lemma always_saveMessageAttachments (isIssue : bool) (id : val) (ms : list event) :
  always I (saveMessageAttachments rt restConfig isIssue id) (done ms) ms.
Proof.
  unfold saveMessageAttachments, done.
  destruct (negb (joinAttachments restConfig)); [cbn; eauto|].
  intros m _. apply always_uploads. cbn. eauto.
Qed.

(** [issueAndMove] ends crashed with nothing moved, rejected with the
    message in the failure child, or settled with the message moved to the
    success child. *)
Lemma always_issueAndMove (successBox failureBox : val) (issue : val)
      (created onFailure : promise) (path : jsstring) (ms : list event) :
  Rest.createIssue rt restConfig issue = Normal created ->
  getModelPath restConfig (js "Issues") = Normal path ->
  always I onFailure
    (fun o ms' => (exists e, o = Some (Rejected e))
                  /\ ms' = ms ++ [EvMove (uid message) failureBox]) ms ->
  always I (issueAndMove rt restConfig successBox message created onFailure)
    (fun o ms' =>
       (o = None /\ ms' = ms)
       \/ ((exists e, o = Some (Rejected e))
           /\ ms' = ms ++ [EvMove (uid message) failureBox])
       \/ ((exists o', o = Some o')
           /\ ms' = ms ++ [EvMove (uid message) successBox])) ms.
Proof.
  intros Hc Hp Hf. unfold issueAndMove.
  apply always_then, always_then, always_then, always_catch.
  eapply always_weaken; [|apply (always_createIssue issue created ms Hc)].
  intros [[issueId|e]|] ms' ->.
  - eapply always_weaken; [|apply (always_saveEml issueId path ms Hp)].
    intros o ms' [[v ->] ->].
    eapply always_weaken; [|apply always_saveMessageAttachments].
    intros o ms' [[v' ->] ->].
    eapply always_weaken; [|apply always_move].
    intros o ms' [[o' ->] ->]. right. right. eauto.
  - eapply always_weaken; [|exact Hf].
    intros o ms' [[e' ->] ->]. right. left. eauto.
  - left. auto.
Qed.

End IssueFlow.

Section IssueFlowMoves.

Variable rt : Runtime.
Variable restConfig : RestConfig.
Variable message : Message.
Variables successBox failureBox : val.

Let I := sameLetter message.

Let moved (ms ms' : list event) : Prop :=
  ms' = ms ++ [EvMove (uid message) successBox]
  \/ ms' = ms ++ [EvMove (uid message) failureBox].

(** The state between two stages of the chain: resolved with nothing
    moved, rejected with the message moved, or crashed with nothing moved. *)
Let mid (ms : list event) : option outcome -> list event -> Prop :=
  fun o ms' =>
    ((exists v, o = Some (Resolved v)) /\ ms' = ms)
    \/ ((exists e, o = Some (Rejected e)) /\ moved ms ms')
    \/ (o = None /\ ms' = ms).

(** The state at the end: crashed with nothing moved, or moved once. *)
Let fin (ms : list event) : option outcome -> list event -> Prop :=
  fun o ms' => (o = None /\ ms' = ms) \/ moved ms ms'.

Lemma quiet_catch_mid (p : promise) (g : val -> promise) (ms : list event) :
  always I p (fun o ms' => (exists o', o = Some o') /\ ms' = ms) ms ->
  (forall e, always I (g e) (mid ms) ms) ->
  always I (catch_ p g) (mid ms) ms.
Proof.
  intros Hp Hg. apply always_catch. eapply always_weaken; [|exact Hp].
  intros o ms' [[[v|e] ->] ->]; [|apply Hg].
  left. eauto.
Qed.

Lemma mid_then_mid (p : promise) (f : val -> promise) (ms : list event) :
  always I p (mid ms) ms ->
  (forall v, always I (f v) (mid ms) ms) ->
  always I (then_ p f) (mid ms) ms.
Proof.
  intros Hp Hf. apply always_then. eapply always_weaken; [|exact Hp].
  intros o ms' [[[v ->] ->] | [[[e ->] Hm] | [-> ->]]].
  - apply Hf.
  - right. left. eauto.
  - right. right. auto.
Qed.

Lemma mid_then_fin (p : promise) (f : val -> promise) (ms : list event) :
  always I p (mid ms) ms ->
  (forall v, always I (f v) (fin ms) ms) ->
  always I (then_ p f) (fin ms) ms.
Proof.
  intros Hp Hf. apply always_then. eapply always_weaken; [|exact Hp].
  intros o ms' [[[v ->] ->] | [[[e ->] Hm] | [-> ->]]].
  - apply Hf.
  - right. exact Hm.
  - left. auto.
Qed.

Lemma move_then_rejects (f : promise -> promise) (ms : list event) :
  (f = (fun p => finally_ p (reject VUndefined))
   \/ f = (fun p => then_ p (fun _ => reject VUndefined))) ->
  always I (f (moveMessageFn failureBox message))
    (fun o ms' => (exists e, o = Some (Rejected e))
                  /\ ms' = ms ++ [EvMove (uid message) failureBox]) ms.
Proof.
  intros [-> | ->].
  - apply always_finally_reject. eapply always_weaken; [|apply always_move].
    intros o ms' [[o' ->] ->]. eauto.
  - apply always_then. eapply always_weaken; [|apply always_move].
    intros o ms' [[[v|e] ->] ->]; cbn; eauto.
Qed.

Lemma same_letter_moves (m : Message) (boxName : val) :
  I m -> moveMessageFn boxName m = moveMessageFn boxName message.
Proof. intros [Hu _]. unfold moveMessageFn. rewrite Hu. reflexivity. Qed.

Lemma same_letter_issueAndMove (m : Message) (created onFailure : promise) :
  I m ->
  issueAndMove rt restConfig successBox m created onFailure
  = issueAndMove rt restConfig successBox message created onFailure.
Proof.
  intros [Hu Hh]. unfold issueAndMove, saveEmlAsAttachment, moveMessageFn.
  rewrite Hu. reflexivity.
Qed.

Lemma same_letter_makeIssue (m : Message) (title : val) :
  I m ->
  Rest.header0 (js "subject") message = Normal title ->
  exists fields, Rest.makeIssue m = Normal (VObj fields).
Proof.
  intros [Hu Hh] Ht. unfold Rest.makeIssue, Rest.header0 in *. rewrite Hh.
  destruct (lookup (js "subject") (header message)) as [[|x l]|]; try discriminate;
    cbn [bind]; eauto.
Qed.

Lemma createIssue_of_object (fields : list (jsstring * val)) (path : jsstring) :
  getModelPath restConfig (js "Issues") = Normal path ->
  exists created, Rest.createIssue rt restConfig (VObj fields) = Normal created.
Proof.
  intros Hp. unfold Rest.createIssue, Rest.issueFields. rewrite Hp.
  cbn [bind prop]. eauto.
Qed.

(** Creating the issue and moving the message, from inside the chain. *)
Lemma always_create_and_move (m : Message) (fields : list (jsstring * val))
      (wrap : promise -> promise) (path : jsstring) (ms : list event) :
  I m ->
  getModelPath restConfig (js "Issues") = Normal path ->
  (wrap = (fun p => finally_ p (reject VUndefined))
   \/ wrap = (fun p => then_ p (fun _ => reject VUndefined))) ->
  always I
    (callback
       (let! created := Rest.createIssue rt restConfig (VObj fields) in
        Normal (issueAndMove rt restConfig successBox m created
                  (wrap (moveMessageFn failureBox m)))))
    (fun o ms' =>
       (o = None /\ ms' = ms)
       \/ ((exists e, o = Some (Rejected e)) /\ moved ms ms')
       \/ ((exists o', o = Some o') /\ moved ms ms')) ms.
Proof.
  intros Hm Hpath Hwrap.
  destruct (createIssue_of_object fields path Hpath) as [created Hc].
  rewrite Hc. cbn [bind callback].
  rewrite (same_letter_issueAndMove m _ _ Hm), (same_letter_moves m _ Hm).
  eapply always_weaken;
    [|eapply (always_issueAndMove rt restConfig message successBox failureBox
                _ _ _ path ms Hc Hpath);
      apply (move_then_rejects wrap ms Hwrap)].
  unfold moved. intros o ms' [H | [[H1 H2] | [H1 H2]]]; auto.
Qed.

(** X24: for a message with a From and a Subject header, in a mailbox
    that is configured and with the path of the issues configured, the
    issue flow moves the message once on every path, unless the process
    crashes before the move: what C1 asks for holds of [doCreateIssue].
    Without a From header [doCreateIssue] throws before it builds its
    promise, and nothing is moved. *)
Lemma issue_flow_moves_once (conn : Conn) (boxName : jsstring) (p : promise)
      (title : val) (path : jsstring) (w : World) (tr : list event) :
  doCreateIssue rt restConfig conn boxName message = Normal p ->
  getSuccessBoxName conn boxName = Normal successBox ->
  getFailureBoxName conn boxName = Normal failureBox ->
  Rest.header0 (js "subject") message = Normal title ->
  getModelPath restConfig (js "Issues") = Normal path ->
  (settled (run w p message tr) = None /\ moves (trace (run w p message tr)) = moves tr)
  \/ moves (trace (run w p message tr)) = moves tr ++ [EvMove (uid message) successBox]
  \/ moves (trace (run w p message tr)) = moves tr ++ [EvMove (uid message) failureBox].
Proof.
  intros Hp Hs Hf Ht Hpath.
  assert (A : always I p (fin (moves tr)) (moves tr)).
  { unfold doCreateIssue in Hp.
    destruct (Rest.header0 (js "from") message) as [email|]; [|discriminate].
    rewrite Hs, Hf in Hp. cbn [bind] in Hp. apply Normal_inj in Hp. subst p.
    apply mid_then_fin; [apply mid_then_mid; [apply quiet_catch_mid|]|].
    - (* the body and the person *)
      apply always_then. eapply always_weaken; [|apply always_getMessageBody].
      intros o ms' [[[v|e] ->] ->]; [|eauto].
      destruct (Rest.getPersonIdByEmail restConfig email) as [[person|]|] eqn:E;
        cbn [bind callback always resolve reject]; eauto.
      eapply always_person. exact E.
    - (* nobody found *)
      intros e. destruct (createSystemIssue (onPersonNotFound restConfig)).
      + intros m Hm.
        destruct (same_letter_makeIssue m title Hm Ht) as [fields ->]. cbn [bind].
        change (callback
                  (let! created := Rest.createIssue rt restConfig (VObj fields) in
                   Normal (finally_
                             (issueAndMove rt restConfig successBox m created
                                (finally_ (moveMessageFn failureBox m) (reject VUndefined)))
                             (reject VUndefined))))
          with (callback
                  (let! created := Rest.createIssue rt restConfig (VObj fields) in
                   Normal (finally_
                             (issueAndMove rt restConfig successBox m created
                                ((fun p => finally_ p (reject VUndefined))
                                   (moveMessageFn failureBox m)))
                             (reject VUndefined)))).
        pose proof (always_create_and_move m fields
                      (fun p => finally_ p (reject VUndefined)) path (moves tr)
                      Hm Hpath (or_introl eq_refl)) as H.
        destruct (Rest.createIssue rt restConfig (VObj fields)) as [created|];
          cbn [bind callback] in *.
        * apply always_finally_reject. eapply always_weaken; [|exact H].
          intros o ms' [[-> ->] | [[[e' ->] Hm'] | [[o' ->] Hm']]].
          -- right. right. auto.
          -- right. left. eauto.
          -- right. left. eauto.
        * cbn in H. destruct H as [[H _] | [[_ H] | [_ H]]]; [discriminate| |];
            exfalso; destruct H as [H|H]; apply (f_equal (@length event)) in H;
              rewrite length_app in H; cbn in H; lia.
      + apply always_finally_reject. eapply always_weaken; [|apply always_move].
        intros o ms' [[o' ->] ->]. right. left. split; [eauto|]. right. reflexivity.
    - (* the spam gate *)
      intros authorId. apply always_then, always_catch.
      eapply always_weaken; [|apply always_checkSpam].
      intros o ms' [[[v|e] ->] ->].
      + left. eauto.
      + apply always_finally_reject. eapply always_weaken; [|apply always_move].
        intros o ms' [[o' ->] ->]. right. left. split; [eauto|]. right. reflexivity.
    - (* the issue *)
      intros id m Hm.
      destruct (same_letter_makeIssue m title Hm Ht) as [fields ->]. cbn [bind].
      pose proof (always_create_and_move m (assign (assign [] fields) [(js "id", id)])
                    (fun p => then_ p (fun _ => reject VUndefined)) path (moves tr)
                    Hm Hpath (or_intror eq_refl)) as H.
      eapply always_weaken; [|exact H].
      intros o ms' [[-> ->] | [[_ Hm'] | [_ Hm']]]; [left; auto | right; exact Hm' ..]. }
  destruct (always_run I p (fin (moves tr)) (moves tr) w message tr A
              (conj eq_refl eq_refl) eq_refl) as [[[Hc Hm] | [Hm | Hm]] _]; auto.
Qed.

End IssueFlowMoves.

(** ** The moves of the comment flow *)

Section CommentFlowMoves.

Variable rt : Runtime.
Variable restConfig : RestConfig.
Variable message : Message.
Variables successBox failureBox : val.

Let I := sameLetter message.

Let moved (ms ms' : list event) : Prop :=
  ms' = ms ++ [EvMove (uid message) successBox]
  \/ ms' = ms ++ [EvMove (uid message) failureBox].

Lemma always_commentAndMove (m : Message) (fields : list (jsstring * val))
      (uri : jsstring) (ms : list event) :
  I m ->
  getModelPath restConfig (js "Comments") = Normal uri ->
  exists commented,
    commentAndMove rt restConfig successBox failureBox m (VObj fields) = Normal commented
    /\ always I commented
         (fun o ms' => (o = None /\ ms' = ms) \/ ((exists o', o = Some o') /\ moved ms ms'))
         ms.
Proof.
  intros Hm Huri. unfold commentAndMove, Rest.createComment, Rest.commentFields.
  rewrite Huri. cbn [bind prop]. eexists. split; [reflexivity|].
  rewrite !(same_letter_moves message m _ Hm).
  apply always_catch, always_then, always_then.
  intros r. destruct (createResponse_cases "CMT" "Error inserting a new comment" r)
    as [-> | [[commentId|e] ->]]; cbn [always].
  - left. auto.
  - eapply always_weaken; [|apply always_saveMessageAttachments].
    intros o ms' [[v ->] ->]. apply always_catch.
    eapply always_weaken; [|apply always_move].
    intros o ms' [[[v'|e'] ->] ->]; cbn [always resolve];
      right; (split; [eauto | left; reflexivity]).
  - eapply always_weaken; [|apply always_move].
    intros o ms' [[o' ->] ->]. right. split; [eauto | right; reflexivity].
Qed.

(** Once the body is there and the lookup of the sender is under way, the
    comment flow moves the message once on every path, unless the process
    crashes before the move. *)
Lemma comment_flow_moves_once (issue email issueId : val) (person : promise)
      (uri : jsstring) (ms : list event) :
  Rest.header0 (js "from") message = Normal email ->
  prop issue (js "Id") = Normal issueId ->
  Rest.getPersonIdByEmail restConfig email = Normal (Some person) ->
  getModelPath restConfig (js "Comments") = Normal uri ->
  always I (commentOnceFetched rt restConfig successBox failureBox issue)
    (fun o ms' => (o = None /\ ms' = ms) \/ moved ms ms') ms.
Proof.
  intros Hfrom Hid Hperson Huri m Hm.
  assert (Hfrom' : Rest.header0 (js "from") m = Normal email).
  { destruct Hm as [_ Hh]. unfold Rest.header0 in *. now rewrite Hh. }
  rewrite Hfrom', Hid. cbn [bind]. rewrite Hperson. cbn [bind callback].
  rewrite !(same_letter_moves message m _ Hm).
  destruct (always_commentAndMove m (commentOf issueId m) uri ms Hm Huri)
    as (anonymous & Ha & Hanon).
  rewrite Ha. cbn [bind callback].
  apply always_settle.
  eapply always_weaken with
    (Q := fun o ms' => (o = None /\ ms' = ms) \/ moved ms ms').
  { intros [o|] ms' H; [|exact H].
    cbn [always resolve]. destruct H as [[H _]|H]; [discriminate|]. right. exact H. }
  apply always_then, always_then, always_then, always_catch.
  eapply always_weaken; [|apply (always_person restConfig message email person ms Hperson)].
  intros o ms' [[[authorId|e] ->] ->].
  - (* the sender is known: the spam gate, then the comment *)
    apply always_catch, always_then.
    eapply always_weaken; [|apply always_checkSpam].
    intros o ms' [[[v|e] ->] ->].
    + cbn [always resolve].
      destruct (always_commentAndMove m
                  (assign (assign [] (commentOf issueId m)) [(js "authorId", v)])
                  uri ms Hm Huri) as (signed & Hs & Hsigned).
      rewrite Hs. cbn [bind callback].
      unfold finally_. apply always_settle.
      eapply always_weaken; [|exact Hsigned].
      intros [o|] ms' [[H1 H2] | [[o' H1] H2]]; try discriminate.
      * cbn [always settle resolve]. right. exact H2.
      * left. auto.
    + apply always_finally_reject. eapply always_weaken; [|apply always_move].
      intros o ms' [[o' ->] ->]. right. right. reflexivity.
  - (* nobody found: the anonymous comment *)
    apply always_finally_reject.
    eapply always_weaken; [|exact Hanon].
    intros [o|] ms' [[H1 H2] | [[o' H1] H2]]; try discriminate.
    + right. exact H2.
    + left. auto.
Qed.

End CommentFlowMoves.

(* ===================================================================== *)
(** * The structure walkers *)
(* ===================================================================== *)

Lemma val_nested_ind (P : val -> Prop) :
  (forall l, Forall P l -> P (VArr l)) ->
  (forall v, (forall l, v <> VArr l) -> P v) ->
  forall v, P v.
Proof.
  intros Harr Hleaf. fix IH 1. intros v.
  destruct v; try (apply Hleaf; discriminate).
  apply Harr. induction l as [|x l IHl]; constructor; [apply IH | exact IHl].
Qed.

Lemma prop_throws (v : val) (k : jsstring) (e : val) :
  prop v k = Throw e -> e = TypeError.
Proof.
  destruct v; cbn [prop]; try discriminate; try congruence;
    destruct (str_eqb k (js "length")); discriminate.
Qed.

Section Walk.

Variable test : val -> completion bool.

Hypothesis test_throws : forall p e, test p = Throw e -> e = TypeError.

Lemma reduce_walk (find : val -> completion (list val)) :
  forall parts,
    Forall (fun v => walked test v (find v)) parts ->
    forall all,
      reduce (visit test find) parts all
      = if forallb (fun p => succeeds (test p)) (flat_map leaves parts)
        then Normal (all ++ filter (fun p => holds (test p)) (flat_map leaves parts))
        else Throw TypeError.
Proof.
  induction 1 as [|v parts Hv _ IH]; intros all; cbn [reduce flat_map forallb filter].
  - now rewrite app_nil_r.
  - rewrite forallb_app, filter_app.
    destruct v; cbn [visit leaves forallb filter andb app] in *;
      try (destruct (test _) as [[|]|e] eqn:E; cbn [bind succeeds holds andb];
           [rewrite IH; destruct (forallb _ _); [now rewrite <- app_assoc|reflexivity]
           |rewrite IH; destruct (forallb _ _); reflexivity
           |now rewrite (test_throws _ _ E)]).
    unfold walked in Hv. rewrite Hv. change (leaves (VArr l)) with (flat_map leaves l).
    destruct (forallb _ (flat_map leaves l)); cbn [bind andb]; [|reflexivity].
    rewrite IH. destruct (forallb _ (flat_map leaves parts)); rewrite ?app_assoc; reflexivity.
Qed.

End Walk.

Lemma hasAttachment_throws cs p e : hasAttachment cs p = Throw e -> e = TypeError.
Proof.
  unfold hasAttachment.
  destruct (prop p (js "disposition")) as [d|e'] eqn:E; cbn [bind].
  - destruct (truthy d); [|discriminate].
    destruct (prop d (js "type")) as [t|e'] eqn:E'; cbn [bind].
    + destruct t; cbn [isAttachment]; congruence.
    + intros H. injection H as <-. exact (prop_throws _ _ _ E').
  - intros H. injection H as <-. exact (prop_throws _ _ _ E).
Qed.

Lemma isBody_throws cs p e : isBody cs p = Throw e -> e = TypeError.
Proof.
  unfold isBody.
  destruct (prop p (js "type")) as [t|e'] eqn:E; cbn [bind].
  - destruct t; cbn [isText bind]; try congruence.
    destruct (str_eqb _ _); [|discriminate].
    destruct (prop p (js "disposition")) as [d|e'] eqn:E'; cbn [bind]; [discriminate|].
    intros H. injection H as <-. exact (prop_throws _ _ _ E').
  - intros H. injection H as <-. exact (prop_throws _ _ _ E).
Qed.

Lemma findAttachmentParts_walked (cs : Casing) (v : val) :
  walked (hasAttachment cs) v (findAttachmentParts cs v).
Proof.
  revert v.
  apply (val_nested_ind (fun v => walked (hasAttachment cs) v (findAttachmentParts cs v)));
    [|intros v Hv; destruct v; try exact I; now destruct (Hv l)].
  intros l Hl. unfold walked.
  change (findAttachmentParts cs (VArr l))
    with (reduce (visit (hasAttachment cs) (findAttachmentParts cs)) l []).
  now rewrite (reduce_walk _ (hasAttachment_throws cs) _ l Hl).
Qed.

Lemma findBodyParts_walked (cs : Casing) (v : val) :
  walked (isBody cs) v (findBodyParts cs v).
Proof.
  revert v.
  apply (val_nested_ind (fun v => walked (isBody cs) v (findBodyParts cs v)));
    [|intros v Hv; destruct v; try exact I; now destruct (Hv l)].
  intros l Hl. unfold walked.
  change (findBodyParts cs (VArr l))
    with (reduce (visit (isBody cs) (findBodyParts cs)) l []).
  now rewrite (reduce_walk _ (isBody_throws cs) _ l Hl).
Qed.

(** X1: [findAttachmentParts] sees through the nesting of the body
    structure.  On an array it returns, in document order, exactly the
    parts at any depth that have a disposition whose type upper-cases to
    INLINE or ATTACHMENT; it throws a TypeError when, and only when, the
    test throws on some part (a [null] part, a disposition whose type is
    not a string). *)
Theorem findAttachmentParts_flat (cs : Casing) (parts : list val) :
  findAttachmentParts cs (VArr parts)
  = if forallb (fun p => succeeds (hasAttachment cs p)) (leaves (VArr parts))
    then Normal (filter (fun p => holds (hasAttachment cs p)) (leaves (VArr parts)))
    else Throw TypeError.
Proof. exact (findAttachmentParts_walked cs (VArr parts)). Qed.

(** X2: [findBodyParts] returns, in document order, exactly the parts at
    any depth whose type lower-cases to [text] and that have no
    disposition; it throws a TypeError when, and only when, some part has
    no string for its type. *)
Theorem findBodyParts_flat (cs : Casing) (parts : list val) :
  findBodyParts cs (VArr parts)
  = if forallb (fun p => succeeds (isBody cs p)) (leaves (VArr parts))
    then Normal (filter (fun p => holds (isBody cs p)) (leaves (VArr parts)))
    else Throw TypeError.
Proof. exact (findBodyParts_walked cs (VArr parts)). Qed.

Lemma body_not_attachment cs p :
  holds (isBody cs p) = true -> holds (hasAttachment cs p) = true -> False.
Proof.
  unfold isBody, hasAttachment.
  destruct (prop p (js "type")) as [t|]; cbn [bind holds]; [|discriminate].
  destruct (isText cs t) as [[|]|]; cbn [bind holds]; try discriminate.
  destruct (prop p (js "disposition")) as [d|]; cbn [bind holds]; [|discriminate].
  destruct (truthy d); cbn [negb]; discriminate.
Qed.

(** X3: no part of a message is counted both as a body and as an
    attachment: the two walkers, run on the same structure, return
    disjoint lists. *)
Theorem body_parts_are_no_attachments (cs : Casing) (struct : val)
        (bodies atts : list val) :
  findBodyParts cs struct = Normal bodies ->
  findAttachmentParts cs struct = Normal atts ->
  forall part, In part bodies -> In part atts -> False.
Proof.
  destruct struct; try discriminate.
  pose proof (findBodyParts_walked cs (VArr l)) as Hb.
  pose proof (findAttachmentParts_walked cs (VArr l)) as Ha.
  unfold walked in Hb, Ha. rewrite Hb, Ha.
  destruct (forallb _ _); [|discriminate]. destruct (forallb _ _); [|discriminate].
  intros Eb Ea part Hpb Hpa.
  apply Normal_inj in Eb, Ea. subst.
  apply filter_In in Hpb, Hpa.
  exact (body_not_attachment cs part (proj2 Hpb) (proj2 Hpa)).
Qed.

Lemma body_parts_are_no_attachments_witness :
  findBodyParts Sample.asciiCasing Sample.mixed = Normal [Sample.plainPart]
  /\ findAttachmentParts Sample.asciiCasing Sample.mixed = Normal [Sample.pdfPart]
  /\ (forall part, In part [Sample.plainPart] -> In part [Sample.pdfPart] -> False).
Proof.
  split; [reflexivity|]. split; [reflexivity|].
  exact (body_parts_are_no_attachments Sample.asciiCasing Sample.mixed
           [Sample.plainPart] [Sample.pdfPart] eq_refl eq_refl).
Defined.

(* ===================================================================== *)
(** * The buffer stream *)
(* ===================================================================== *)

Section BufferStreamFacts.

Import BufferStream.

Lemma flow_rest :
  forall sizes s,
    _length s = length (_source s) ->
    _offset s < _length s ->
    Forall (fun size => 0 < size) sizes ->
    _length s - _offset s <= list_sum sizes ->
    exists chunks,
      flow sizes s = map Chunk chunks ++ [EndOfStream]
      /\ concat chunks = skipn (_offset s) (_source s)
      /\ Forall (fun c => c <> []) chunks.
Proof.
  induction sizes as [|size rest IH]; intros s Hlen Hoff Hpos Hsum.
  - cbn in Hsum. lia.
  - inversion Hpos as [|? ? Hsize Hrest]; subst.
    change (list_sum (size :: rest)) with (size + list_sum rest) in Hsum.
    cbn [flow]. unfold _read.
    destruct (Nat.ltb_spec (_offset s) (_length s)) as [_|]; [|lia].
    cbn [_offset _length _source].
    assert (Hne : slice (_offset s) (_offset s + size) (_source s) <> []).
    { unfold slice. intros E. apply (f_equal (@length N)) in E.
      rewrite length_firstn, length_skipn in E. cbn [length] in E.
      revert E. apply Nat.min_case_strong; lia. }
    destruct (Nat.leb_spec (_length s) (_offset s + size)) as [Hend|Hmore];
      cbn [existsb isEnd app orb].
    + exists [slice (_offset s) (_offset s + size) (_source s)].
      split; [reflexivity|]. split; [|now constructor].
      cbn [concat]. rewrite app_nil_r. unfold slice.
      apply firstn_all2. rewrite length_skipn. lia.
    + assert (Hsum' : _length s - (_offset s + size) <= list_sum rest) by lia.
      destruct (IH {| _source := _source s; _offset := _offset s + size;
                      _length := _length s |} Hlen Hmore Hrest Hsum')
        as (chunks & Hflow & Hcat & Hall).
      cbn [_offset _length _source] in *.
      exists (slice (_offset s) (_offset s + size) (_source s) :: chunks).
      split; [now rewrite Hflow|]. split; [|now constructor].
      cbn [concat]. rewrite Hcat. unfold slice.
      replace (_offset s + size - _offset s) with size by lia.
      rewrite Nat.add_comm, <- skipn_skipn. apply firstn_skipn.
Qed.

(** X4: a [BufferStream] delivers its buffer and nothing else.  Whatever
    the sizes the consumer asks for, as long as each is positive and they
    add up to the length of the buffer, the stream pushes non-empty chunks
    whose concatenation is the buffer, then the end of the stream, and
    nothing after it; an empty buffer ends at the first read. *)
Theorem BufferStream_delivers_its_source (bytes : list N) (sizes : list nat) (s : t) :
  new (Some bytes) = Normal s ->
  sizes <> [] ->
  Forall (fun size => 0 < size) sizes ->
  length bytes <= list_sum sizes ->
  exists chunks,
    flow sizes s = map Chunk chunks ++ [EndOfStream]
    /\ concat chunks = bytes
    /\ Forall (fun c => c <> []) chunks.
Proof.
  intros Hnew Hne Hpos Hsum. cbn in Hnew. apply Normal_inj in Hnew. subst s.
  destruct bytes as [|b bytes].
  - destruct sizes as [|size rest]; [contradiction|].
    exists []. cbn. auto.
  - apply (flow_rest sizes {| _source := b :: bytes; _offset := 0;
                              _length := length (b :: bytes) |});
      cbn [_offset _length _source length]; auto; lia.
Qed.

Lemma BufferStream_delivers_its_source_witness :
  exists chunks,
    flow [2; 2; 2] {| _source := [104; 101; 108; 108; 111]%N; _offset := 0; _length := 5 |}
    = map Chunk chunks ++ [EndOfStream]
    /\ concat chunks = [104; 101; 108; 108; 111]%N
    /\ Forall (fun c => c <> []) chunks.
Proof.
  apply (BufferStream_delivers_its_source [104; 101; 108; 108; 111]%N [2; 2; 2]).
  - reflexivity.
  - discriminate.
  - repeat constructor.
  - cbn. repeat constructor.
Defined.

End BufferStreamFacts.

(* ===================================================================== *)
(** * Ids *)
(* ===================================================================== *)

Section Ids.

Lemma m_lit :
  forall p i s c k,
    m (Lit false p) i s c k
    = match stripPrefix p s with
      | Some r => k (i + length p) r c
      | None => None
      end.
Proof.
  induction p as [|c0 p IH]; intros i s c k; cbn [Lit stripPrefix length].
  - rewrite m_empty. now rewrite Nat.add_0_r.
  - rewrite m_seq. destruct s as [|x s]; [apply m_chr_nil|].
    rewrite m_chr. destruct (N.eqb c0 x); [|reflexivity].
    rewrite IH. now rewrite Nat.add_succ_r.
Qed.

Lemma m_rep_class (q : jschar -> bool) :
  forall n i s c k,
    m (Rep n (Chr q)) i s c k
    = match takeClass q n s with
      | Some r => k (i + n) r c
      | None => None
      end.
Proof.
  induction n as [|n IH]; intros i s c k; cbn [Rep takeClass].
  - rewrite m_empty. now rewrite Nat.add_0_r.
  - rewrite m_seq. destruct s as [|x s]; [apply m_chr_nil|].
    rewrite m_chr. destruct (q x); [|reflexivity].
    rewrite IH. now rewrite Nat.add_succ_r.
Qed.

Lemma m_idRe prefix i s :
  m (idRe prefix) i s [] accept
  = if idAt prefix s then Some (i + length prefix + 12, []) else None.
Proof.
  unfold idRe, idAt. rewrite m_seq, m_lit.
  destruct (stripPrefix prefix s) as [r|]; [|reflexivity].
  rewrite m_rep_class. now destruct (takeClass is_digit 12 r).
Qed.

Lemma stripPrefix_app p s r : stripPrefix p s = Some r <-> s = p ++ r.
Proof.
  revert s. induction p as [|c p IH]; intros s; cbn [stripPrefix app].
  - split; congruence.
  - destruct s as [|x s]; [split; discriminate|].
    destruct (N.eqb_spec c x) as [->|Hne].
    + rewrite IH. split; congruence.
    + split; [discriminate|]. intros H. injection H as H _. congruence.
Qed.

Lemma takeClass_app q n s r :
  takeClass q n s = Some r
  <-> exists ds, s = ds ++ r /\ length ds = n /\ Forall (fun c => q c = true) ds.
Proof.
  revert s. induction n as [|n IH]; intros s; cbn [takeClass].
  - split.
    + intros H. injection H as ->. exists []. auto.
    + intros (ds & -> & Hl & _). destruct ds; [reflexivity|discriminate].
  - destruct s as [|x s].
    + split; [discriminate|]. intros (ds & H & Hl & _). destruct ds; discriminate.
    + destruct (q x) eqn:Hq.
      * rewrite IH. split.
        -- intros (ds & -> & Hl & Hall). exists (x :: ds). cbn. auto.
        -- intros (ds & H & Hl & Hall). destruct ds as [|d ds]; [discriminate|].
           injection H as -> ->. inversion Hall; subst. exists ds. auto.
      * split; [discriminate|]. intros (ds & H & Hl & Hall).
        destruct ds as [|d ds]; [discriminate|]. injection H as -> ->.
        inversion Hall; congruence.
Qed.

Lemma idAt_true prefix s :
  idAt prefix s = true <-> exists id b, s = id ++ b /\ isId prefix id.
Proof.
  unfold idAt, isId. split.
  - destruct (stripPrefix prefix s) as [r|] eqn:E; [|discriminate].
    destruct (takeClass is_digit 12 r) as [b|] eqn:E'; [|discriminate]. intros _.
    apply stripPrefix_app in E. apply takeClass_app in E'.
    destruct E' as (ds & -> & Hl & Hall). subst s.
    exists (prefix ++ ds), b. rewrite <- app_assoc. eauto.
  - intros (id & b & -> & ds & -> & Hl & Hall).
    rewrite <- app_assoc.
    rewrite (proj2 (stripPrefix_app prefix _ (ds ++ b)) eq_refl).
    now rewrite (proj2 (takeClass_app is_digit 12 (ds ++ b) b)) by eauto.
Qed.

(** Where the scan of [exec_from] stops. *)
Lemma exec_idRe prefix :
  forall s i,
    match exec_from (idRe prefix) i s with
    | Some x =>
        exists a rest,
          s = a ++ rest /\ idAt prefix rest = true
          /\ m_start x = i + length a
          /\ m_end x = i + length a + length prefix + 12
          /\ (forall a' rest', s = a' ++ rest' -> idAt prefix rest' = true ->
                               length a <= length a')
    | None => forall a' rest', s = a' ++ rest' -> idAt prefix rest' = false
    end.
Proof.
  induction s as [|y s IH]; intros i; cbn [exec_from]; rewrite m_idRe.
  - destruct (idAt prefix []) eqn:E.
    + exists [], []. cbn. repeat split; auto; lia.
    + intros a' rest' H. destruct a'; destruct rest'; try discriminate. exact E.
  - destruct (idAt prefix (y :: s)) eqn:E.
    + exists [], (y :: s). cbn. repeat split; auto; lia.
    + specialize (IH (S i)). destruct (exec_from (idRe prefix) (S i) s) as [x|].
      * destruct IH as (a & rest & -> & Hid & Hs & He & Hfirst).
        exists (y :: a), rest. cbn [length app]. repeat split; auto; try lia.
        intros a' rest' H Hid'. destruct a' as [|z a'].
        -- cbn in H. subst rest'. congruence.
        -- injection H as _ H. cbn [length]. apply le_n_S. eauto.
      * intros a' rest' H. destruct a' as [|z a'].
        -- cbn in H. now subst rest'.
        -- injection H as _ H. eauto.
Qed.

Lemma match0_idRe prefix s :
  match match0 (idRe prefix) s with
  | Some id =>
      exists a b,
        s = a ++ id ++ b /\ isId prefix id
        /\ (forall a' id' b', s = a' ++ id' ++ b' -> isId prefix id' ->
                              length a <= length a')
  | None => forall a id b, s = a ++ id ++ b -> ~ isId prefix id
  end.
Proof.
  unfold match0, exec. pose proof (exec_idRe prefix s 0) as H.
  destruct (exec_from (idRe prefix) 0 s) as [x|]; cbn [option_map].
  - destruct H as (a & rest & -> & Hid & Hs & He & Hfirst).
    apply idAt_true in Hid. destruct Hid as (id & b & -> & Hid).
    exists a, b. cbn [Nat.add] in Hs, He. rewrite Hs, He.
    assert (Hlen : length id = length prefix + 12).
    { destruct Hid as (ds & -> & Hl & _). rewrite length_app. lia. }
    assert (E : substring (length a) (length a + length prefix + 12) (a ++ id ++ b) = id).
    { unfold substring. rewrite skipn_app, skipn_all, Nat.sub_diag. cbn [skipn app].
      replace (length a + length prefix + 12 - length a) with (length id) by lia.
      rewrite firstn_app, firstn_all, Nat.sub_diag. cbn [firstn]. apply app_nil_r. }
    rewrite E. repeat split; auto.
    intros a' id' b' H' Hid'. apply (Hfirst a' (id' ++ b') H').
    apply idAt_true. eauto.
  - intros a id b Hs Hid.
    assert (E : idAt prefix (id ++ b) = true) by (apply idAt_true; eauto).
    rewrite (H a (id ++ b) Hs) in E. discriminate.
Qed.

Lemma isId_nonempty prefix id : isId prefix id -> id <> [].
Proof.
  intros (ds & -> & Hl & _) E. apply (f_equal (@length jschar)) in E.
  rewrite length_app in E. cbn in E. lia.
Qed.

End Ids.

(** X5: what [parseId] returns, when it is not the empty string, is the
    first place in the string where the prefix is followed by twelve
    digits: the prefix and the twelve digits, nothing more.  The callers
    pass the prefixes SRQ, CMT and PRS; a prefix of letters is a pattern
    that matches itself. *)
Theorem parseId_returns_first_id (prefix : jsstring) (str : val) (id : jsstring) :
  forallb ascii_letter prefix = true ->
  parseId prefix str = id ->
  id <> [] ->
  exists s a b,
    str = VStr s /\ s = a ++ id ++ b /\ isId prefix id
    /\ (forall a' id' b', s = a' ++ id' ++ b' -> isId prefix id' -> length a <= length a').
Proof.
  intros _ Hp Hne. unfold parseId in Hp.
  destruct str as [| | | |s| | | |]; try congruence.
  pose proof (match0_idRe prefix s) as H.
  destruct (match0 (idRe prefix) s) as [id'|]; [|congruence]. subst id'.
  destruct H as (a & b & Hs & Hid & Hfirst). exists s, a, b. auto.
Qed.

Lemma parseId_returns_first_id_witness :
  exists s a b,
    VStr (js "Re: SRQ000000000354 update") = VStr s
    /\ s = a ++ js "SRQ000000000354" ++ b
    /\ isId (js "SRQ") (js "SRQ000000000354")
    /\ (forall a' id' b', s = a' ++ id' ++ b' -> isId (js "SRQ") id' ->
                          length a <= length a').
Proof.
  apply (parseId_returns_first_id (js "SRQ") (VStr (js "Re: SRQ000000000354 update"))).
  - reflexivity.
  - reflexivity.
  - discriminate.
Defined.

(** X6: [parseId] returns the empty string exactly when there is nothing
    to find: the value is not a string, or no place in it holds the
    prefix followed by twelve digits. *)
Theorem parseId_is_empty_without_id (prefix : jsstring) (str : val) :
  forallb ascii_letter prefix = true ->
  (parseId prefix str = []
   <-> forall s a id b, str = VStr s -> s = a ++ id ++ b -> ~ isId prefix id).
Proof.
  intros _. unfold parseId. split.
  - intros Hp s a id b -> Hs Hid.
    pose proof (match0_idRe prefix s) as H.
    destruct (match0 (idRe prefix) s) as [id'|].
    + subst id'. destruct H as (_ & _ & _ & Hid' & _).
      now apply (isId_nonempty prefix []).
    + exact (H a id b Hs Hid).
  - intros Hnone. destruct str as [| | | |s| | | |]; try reflexivity.
    pose proof (match0_idRe prefix s) as H.
    destruct (match0 (idRe prefix) s) as [id'|]; [|reflexivity].
    destruct H as (a & b & Hs & Hid & _). now destruct (Hnone s a id' b eq_refl Hs).
Qed.

Lemma parseId_is_empty_without_id_witness :
  parseId (js "SRQ") (VStr (js "Printer broken")) = []
  <-> forall s a id b, VStr (js "Printer broken") = VStr s -> s = a ++ id ++ b ->
                       ~ isId (js "SRQ") id.
Proof.
  apply (parseId_is_empty_without_id (js "SRQ") (VStr (js "Printer broken"))).
  reflexivity.
Defined.

Section Created.

Variable w : World.

Lemma createResponse_id (prefix err : string) (reply : http_reply) (v : val) :
  Rest.createResponse prefix err reply = Settled (Resolved v) ->
  exists id, v = VStr id /\ isId (js prefix) id.
Proof.
  unfold Rest.createResponse. destruct reply as [|statusCode body]; [discriminate|].
  destruct (Rest.is200 statusCode); cbn [negb].
  - destruct body as [b|]; cbn [try_catch]; [|discriminate].
    destruct (prop b (js "ReturnCode")) as [rc|]; cbn [bind try_catch]; [|discriminate].
    destruct (strict_eq rc (VNum 0)); cbn [negb try_catch]; [|discriminate].
    destruct (prop b (js "Messages")) as [ms|]; cbn [bind try_catch]; [|discriminate].
    destruct (first ms) as [m0|]; cbn [bind try_catch]; [|discriminate].
    destruct (truthy (VStr (parseId (js prefix) m0))) eqn:T; cbn [try_catch]; [|discriminate].
    intros H. injection H as <-. eexists. split; [reflexivity|].
    unfold parseId in *. destruct m0 as [| | | |s| | | |]; try discriminate.
    pose proof (match0_idRe (js prefix) s) as H.
    destruct (match0 (idRe (js prefix)) s) as [id|]; [|discriminate].
    now destruct H as (_ & _ & _ & Hid & _).
  - destruct body as [b|]; [|discriminate].
    destruct (prop b (js "Messages")) as [[]|]; discriminate.
Qed.

Lemma run_createResponse (prefix err : string) (reply : http_reply)
      (msg : Message) (tr : list event) (v : val) :
  settled (run w (Rest.createResponse prefix err reply) msg tr) = Some (Resolved v) ->
  exists id, v = VStr id /\ isId (js prefix) id.
Proof.
  destruct (createResponse_cases prefix err reply) as [Hc | [o Ho]].
  - rewrite Hc. discriminate.
  - rewrite Ho. cbn [run settled]. intros H. injection H as ->.
    exact (createResponse_id _ _ _ _ Ho).
Qed.

(** X7: the promise of [createIssue] resolves only with an issue id, SRQ
    and twelve digits, parsed from the first message of the response;
    every other response rejects it or, where the handler throws, leaves
    it unsettled. *)
Theorem createIssue_resolves_with_an_issue_id
        (rt : Runtime) (config : RestConfig) (issue : val) (p : promise)
        (msg : Message) (tr : list event) (v : val) :
  Rest.createIssue rt config issue = Normal p ->
  settled (run w p msg tr) = Some (Resolved v) ->
  exists id, v = VStr id /\ isId (js "SRQ") id.
Proof.
  unfold Rest.createIssue.
  destruct (getModelPath config (js "Issues")) as [uri|]; [|discriminate].
  destruct (Rest.issueFields rt config issue) as [fields|]; [|discriminate].
  cbn [bind]. intros Hp. apply Normal_inj in Hp. subst p.
  rewrite run_settle.
  destruct (settled (run w _ msg tr)) as [o|] eqn:E; [|congruence].
  cbn [run]. apply run_createResponse.
Qed.

(** X8: the promise of [createComment] resolves only with a comment id,
    CMT and twelve digits. *)
Theorem createComment_resolves_with_a_comment_id
        (rt : Runtime) (config : RestConfig) (comment : val) (p : promise)
        (msg : Message) (tr : list event) (v : val) :
  Rest.createComment rt config comment = Normal p ->
  settled (run w p msg tr) = Some (Resolved v) ->
  exists id, v = VStr id /\ isId (js "CMT") id.
Proof.
  unfold Rest.createComment.
  destruct (getModelPath config (js "Comments")) as [uri|]; [|discriminate].
  destruct (Rest.commentFields rt config comment) as [fields|]; [|discriminate].
  cbn [bind]. intros Hp. apply Normal_inj in Hp. subst p. cbn [run].
  apply run_createResponse.
Qed.

End Created.

Lemma createIssue_resolves_with_an_issue_id_witness :
  exists id, VStr (js "SRQ000000000400") = VStr id /\ isId (js "SRQ") id.
Proof.
  refine (createIssue_resolves_with_an_issue_id
            {| fetchReply := fun _ _ => FetchError;
               moveError := fun _ _ _ => false;
               httpReply := fun _ o =>
                 if json o then Scenario.created "SRQ000000000400"
                 else Response 500 None |}
            Config.runtime Config.restConfig
            (VObj [(js "id", VNull);
                   (js "title", VStr (js "Printer broken"));
                   (js "description", VStr (js "Printer dead<br>"));
                   (js "externalId", VNum 5)])
            _
            {| uid := 5; header := []; attachments := []; body := js "Printer dead<br>";
               parsedFields := Some [] |}
            [] _ eq_refl eq_refl).
Defined.

Lemma createComment_resolves_with_a_comment_id_witness :
  exists id, VStr (js "CMT000000000001") = VStr id /\ isId (js "CMT") id.
Proof.
  refine (createComment_resolves_with_a_comment_id
            Scenario.unknownSender Config.runtime Config.restConfig
            (VObj (commentOf (VStr (js "SRQ000000000354")) Scenario.reply))
            _ Scenario.reply [] _ eq_refl eq_refl).
Defined.

(* ===================================================================== *)
(** * Objects *)
(* ===================================================================== *)

Section Objects.

Context {A : Type}.

Lemma lookup_set_key (k k' : jsstring) (v : A) (o : list (jsstring * A)) :
  lookup k (set_key k' v o) = if str_eqb k' k then Some v else lookup k o.
Proof.
  induction o as [|[k'' v''] o IH]; cbn [set_key lookup].
  - reflexivity.
  - destruct (str_eqb k'' k') eqn:E; cbn [lookup].
    + apply str_eqb_eq in E. subst k''. now destruct (str_eqb k' k).
    + rewrite IH. destruct (str_eqb k'' k) eqn:E1; [|reflexivity].
      destruct (str_eqb k' k) eqn:E2; [|reflexivity].
      apply str_eqb_eq in E1, E2. subst. now rewrite str_eqb_refl in E.
Qed.

Lemma lookup_absent (k : jsstring) (o : list (jsstring * A)) :
  ~ In k (map fst o) -> lookup k o = None.
Proof.
  induction o as [|[k' v] o IH]; cbn [lookup map fst In]; [reflexivity|].
  intros H. destruct (str_eqb k' k) eqn:E.
  - apply str_eqb_eq in E. tauto.
  - apply IH. tauto.
Qed.

Lemma lookup_present (k : jsstring) (o : list (jsstring * A)) :
  lookup k o = None -> ~ In k (map fst o).
Proof.
  induction o as [|[k' v] o IH]; cbn [lookup map fst In]; [tauto|].
  destruct (str_eqb k' k) eqn:E; [discriminate|].
  intros H [->|Hin]; [now rewrite str_eqb_refl in E | now apply IH].
Qed.

(** [Object.assign] from an object: the keys of the source win. *)
Lemma lookup_assign (k : jsstring) (src : list (jsstring * A)) :
  NoDup (map fst src) ->
  forall target,
    lookup k (assign target src)
    = match lookup k src with Some v => Some v | None => lookup k target end.
Proof.
  unfold assign. induction src as [|[k1 v1] src IH]; intros Hnd target;
    cbn [fold_left lookup fst snd map] in *; [reflexivity|].
  inversion Hnd as [|? ? Hk1 Hnd']; subst.
  rewrite (IH Hnd'), lookup_set_key.
  destruct (str_eqb k1 k) eqn:E; [|reflexivity].
  apply str_eqb_eq in E. subst k1. now rewrite (lookup_absent k src Hk1).
Qed.

Lemma set_key_keys (k : jsstring) (v : A) (o : list (jsstring * A)) :
  map fst (set_key k v o) = if has_key k o then map fst o else map fst o ++ [k].
Proof.
  unfold has_key. induction o as [|[k' v'] o IH]; cbn [set_key lookup map fst app].
  - reflexivity.
  - destruct (str_eqb k' k); cbn [map fst]; [reflexivity|].
    rewrite IH. now destruct (lookup k o).
Qed.

Lemma set_key_NoDup (k : jsstring) (v : A) (o : list (jsstring * A)) :
  NoDup (map fst o) -> NoDup (map fst (set_key k v o)).
Proof.
  intros H. rewrite set_key_keys. unfold has_key.
  destruct (lookup k o) eqn:E; [exact H|].
  apply NoDup_app; [exact H | repeat constructor; intros [] |].
  intros x Hx [<-|[]]. exact (lookup_present k o E Hx).
Qed.

End Objects.

Lemma lookup_strings (k : jsstring) (o : list (jsstring * jsstring)) :
  lookup k (Rest.strings o) = option_map VStr (lookup k o).
Proof.
  unfold Rest.strings. induction o as [|[k' v] o IH]; cbn [map lookup fst snd option_map].
  - reflexivity.
  - now destruct (str_eqb k' k).
Qed.

Lemma keys_strings (o : list (jsstring * jsstring)) :
  map fst (Rest.strings o) = map fst o.
Proof. unfold Rest.strings. rewrite map_map. reflexivity. Qed.

Lemma issueFields_keys (rt : Runtime) (config : RestConfig) (issue : val)
      (fields : list (jsstring * val)) :
  Rest.issueFields rt config issue = Normal fields ->
  map fst fields
  = [js "authorId"; js "customerId"; js "title"; js "description";
     js "createdOn"; js "startedOn"; js "externalId"].
Proof.
  unfold Rest.issueFields.
  destruct (prop issue (js "id")); cbn [bind]; [|discriminate].
  destruct (prop issue (js "title")); cbn [bind]; [|discriminate].
  destruct (prop issue (js "description")); cbn [bind]; [|discriminate].
  destruct (prop issue (js "externalId")); cbn [bind]; [|discriminate].
  intros H. apply Normal_inj in H. subst fields. reflexivity.
Qed.

Lemma issueFields_NoDup (rt : Runtime) (config : RestConfig) (issue : val)
      (fields : list (jsstring * val)) :
  Rest.issueFields rt config issue = Normal fields -> NoDup (map fst fields).
Proof.
  intros H. rewrite (issueFields_keys rt config issue fields H).
  repeat constructor; cbn; intuition discriminate.
Qed.

(** X9: in the object that [createIssue] posts, the seven fields computed
    from the message (authorId, customerId, title, description, createdOn,
    startedOn, externalId) override an attribute of the same name parsed
    from the body, and a parsed attribute overrides the configured
    default: nothing written in a mail can change the author or the title
    of its issue, while it can change a default.  Objects hold each key
    once. *)
Theorem issue_object_precedence
        (rt : Runtime) (config : RestConfig) (issue : val)
        (fields : list (jsstring * val))
        (parsedFields : option (list (jsstring * jsstring))) (k : jsstring) :
  Rest.issueFields rt config issue = Normal fields ->
  NoDup (map fst (defaultIssueAttrs config)) ->
  NoDup (map fst (match parsedFields with Some pf => pf | None => [] end)) ->
  prop (Rest.getIssueObj config parsedFields fields) k
  = Normal (match lookup k fields with
            | Some v => v
            | None =>
                match lookup k (match parsedFields with Some pf => pf | None => [] end) with
                | Some s => VStr s
                | None => Rest.default config k
                end
            end).
Proof.
  intros Hf Hd Hp. unfold Rest.getIssueObj, Rest.default. cbn [prop]. f_equal.
  rewrite (lookup_assign k fields (issueFields_NoDup rt config issue fields Hf)).
  destruct (lookup k fields) as [v|]; [reflexivity|].
  destruct parsedFields as [pf|].
  - rewrite lookup_assign by now rewrite keys_strings.
    rewrite lookup_strings. destruct (lookup k pf) as [s|]; cbn [option_map]; [reflexivity|].
    rewrite (lookup_assign k _ Hd).
    now destruct (lookup k (defaultIssueAttrs config)).
  - cbn [lookup]. rewrite (lookup_assign k _ Hd).
    now destruct (lookup k (defaultIssueAttrs config)).
Qed.

Lemma issue_object_precedence_witness :
  prop (Rest.getIssueObj Config.restConfig
          (Some [(js "authorId", js "PRS000000000666");
                 (js "statusId", js "STS000000000009")])
          [(js "authorId", VStr (js "PRS000000000042"));
           (js "customerId", VStr (js "PRS000000000042"));
           (js "title", VStr (js "Printer broken"));
           (js "description", VStr (js "Printer dead<br>"));
           (js "createdOn", now Config.runtime);
           (js "startedOn", now Config.runtime);
           (js "externalId", VNum 5)])
       (js "authorId")
  = Normal (VStr (js "PRS000000000042")).
Proof.
  refine (issue_object_precedence Config.runtime Config.restConfig
            (VObj [(js "id", VStr (js "PRS000000000042"));
                   (js "title", VStr (js "Printer broken"));
                   (js "description", VStr (js "Printer dead<br>"));
                   (js "externalId", VNum 5)])
            [(js "authorId", VStr (js "PRS000000000042"));
             (js "customerId", VStr (js "PRS000000000042"));
             (js "title", VStr (js "Printer broken"));
             (js "description", VStr (js "Printer dead<br>"));
             (js "createdOn", now Config.runtime);
             (js "startedOn", now Config.runtime);
             (js "externalId", VNum 5)]
            (Some [(js "authorId", js "PRS000000000666");
                   (js "statusId", js "STS000000000009")])
            (js "authorId") eq_refl _ _).
  - cbv. repeat constructor; cbv; intuition discriminate.
  - cbv. repeat constructor; cbv; intuition discriminate.
Defined.

(** X10: [parsePermittedAttributes] returns an object whose keys are all
    keys of [permittedBodyAttributes], each once: whatever the body says,
    no other attribute reaches the issue. *)
Theorem parsed_fields_are_permitted (rt : Runtime) (config : RestConfig) (body : jsstring) :
  NoDup (map fst (parsePermittedAttributes rt config body))
  /\ forall key, In key (map fst (parsePermittedAttributes rt config body)) ->
                 In key (map fst (permittedBodyAttributes config)).
Proof.
  unfold parsePermittedAttributes.
  set (text := if truthy (VStr (bodyText rt body)) then bodyText rt body else body).
  set (f := fun (fields : list (jsstring * jsstring)) (kt : jsstring * jsstring) => _).
  assert (H : forall attrs fields,
             NoDup (map fst fields) ->
             NoDup (map fst (fold_left f attrs fields))
             /\ forall key, In key (map fst (fold_left f attrs fields)) ->
                            In key (map fst fields) \/ In key (map fst attrs)).
  { induction attrs as [|[key type] attrs IH]; intros fields Hnd; cbn [fold_left map fst In].
    - auto.
    - assert (Hstep : NoDup (map fst (f fields (key, type)))
                      /\ forall k, In k (map fst (f fields (key, type))) ->
                                   In k (map fst fields) \/ k = key).
      { assert (Hset : forall v, NoDup (map fst (set_key key v fields))
                                 /\ forall k, In k (map fst (set_key key v fields)) ->
                                              In k (map fst fields) \/ k = key).
        { intros v. split; [now apply set_key_NoDup|].
          intros k. rewrite set_key_keys. destruct (has_key key fields); [auto|].
          rewrite in_app_iff. cbn [In]. intuition. }
        unfold f. cbn [fst snd]. destruct (exec (attrRe key type) text); [|auto].
        destruct (str_eqb type (js "date")); [|apply Hset].
        destruct (parseDate _); [apply Hset|auto]. }
      destruct Hstep as [Hnd' Hkeys]. destruct (IH _ Hnd') as [IH1 IH2].
      split; [exact IH1|]. intros k Hk.
      destruct (IH2 k Hk) as [Hk'|Hk']; [|auto].
      destruct (Hkeys k Hk') as [?| ->]; auto. }
  destruct (H (permittedBodyAttributes config) [] (NoDup_nil _)) as [H1 H2].
  split; [exact H1|]. intros key Hk. destruct (H2 key Hk) as [[]|]; assumption.
Qed.

Lemma nl2br_no_newline :
  forall n s, length s <= n -> Forall (fun c => c <> 10%N) (nl2br s).
Proof.
  assert (Hbr : forall t, Forall (fun c => c <> 10%N) t ->
                          Forall (fun c => c <> 10%N) (js "<br>" ++ t)).
  { intros t Ht. cbn. repeat (constructor; [discriminate|]). exact Ht. }
  induction n as [|n IH]; intros s Hs.
  - destruct s; [constructor | cbn in Hs; lia].
  - destruct s as [|x s]; cbn [nl2br]; [constructor|]. cbn [length] in Hs.
    destruct (N.eqb_spec x 10).
    + apply Hbr, IH. lia.
    + destruct (N.eqb_spec x 13).
      * destruct s as [|y s]; [repeat constructor; assumption|]. cbn [length] in Hs.
        destruct (N.eqb_spec y 10).
        -- apply Hbr, IH. lia.
        -- constructor; [assumption|]. apply IH. cbn [length]. lia.
      * constructor; [assumption|]. apply IH. lia.
Qed.

(** X11: a body in text mode comes out of [removeComments] without a
    line feed: every one has become a [<br>], on its own or with the
    carriage return before it. *)
Theorem text_mode_leaves_no_newline (rt : Runtime) (config : RestConfig) (body : jsstring) :
  truncateCommentsAfterDelimiter config = true ->
  commentDelimiters config <> [] ->
  isHtml body = false ->
  Forall (fun c => c <> 10%N) (removeComments rt config body).
Proof.
  intros Ht Hd Hh. unfold removeComments. rewrite Ht, Hh.
  destruct (commentDelimiters config) as [|d ds]; [contradiction|].
  cbn [length Nat.eqb negb andb]. rewrite replace_all_newlines.
  now apply (nl2br_no_newline (length (fold_left cutAt (d :: ds) body))).
Qed.

Lemma text_mode_leaves_no_newline_witness :
  Forall (fun c => c <> 10%N)
    (removeComments Config.runtime Config.restConfig
       (js "line one" ++ [13; 10]%N ++ js "line two" ++ [10]%N)).
Proof.
  apply text_mode_leaves_no_newline.
  - reflexivity.
  - discriminate.
  - reflexivity.
Defined.

(* ===================================================================== *)
(** * The mailbox check, once more *)
(* ===================================================================== *)

Lemma filter_none {A} (p : A -> bool) (l : list A) :
  existsb p l = false -> filter p l = [] /\ filter (fun x => negb (p x)) l = l.
Proof.
  induction l as [|x l IH]; cbn [existsb filter]; [auto|].
  destruct (p x); cbn [orb negb]; [discriminate|].
  intros H. destruct (IH H) as [-> ->]. auto.
Qed.

Lemma filter_some {A} (p : A -> bool) (l : list A) :
  existsb p l = true -> filter p l <> [].
Proof.
  induction l as [|x l IH]; cbn [existsb filter]; [discriminate|].
  destruct (p x); cbn [orb]; [discriminate|auto].
Qed.

(** X12: how the promise of [checkBoxes] settles when the server lists
    its boxes.  It resolves with the names that pass, in the order of the
    configuration, as soon as one passes; it rejects only when none
    does, and then with every configured name; a name passes when the
    box is there with both children, or is not there at all and [in]
    does not find its name either, as it finds [constructor] or
    [toString] in every object. *)
Theorem checkBoxes_settles (conn : Conn) (boxes : list (jsstring * Box)) :
  checkBoxes conn (Boxes boxes)
  = Some (if existsb (passes boxes) (mailboxConfig (config conn))
          then Resolved (VArr (map VStr (map fst (filter (passes boxes)
                                                    (mailboxConfig (config conn))))))
          else Rejected (VArr (map VStr (map fst (mailboxConfig (config conn)))))).
Proof.
  unfold checkBoxes.
  destruct (checkConfig_partition (delimiter conn) (mailboxConfig (config conn)) boxes)
    as [Hp Hf].
  rewrite Hp, Hf, !length_map.
  destruct (existsb (passes boxes) (mailboxConfig (config conn))) eqn:E.
  - pose proof (filter_some _ _ E) as Hne.
    destruct (filter (passes boxes) (mailboxConfig (config conn))); [contradiction|reflexivity].
  - destruct (filter_none _ _ E) as [-> ->]. reflexivity.
Qed.

Lemma lookup_key {A} (k : jsstring) (o : list (jsstring * A)) :
  In k (map fst o) -> exists v, lookup k o = Some v.
Proof.
  intros H. destruct (lookup k o) as [v|] eqn:E; [eauto|].
  now destruct (lookup_present k o E).
Qed.

(** X13: every name that [checkBoxes] resolves with is a key of the
    mailbox configuration, so that [getSuccessBoxName] and
    [getFailureBoxName] return the names of its two boxes and do not
    throw when the box is processed. *)
Theorem passed_mailboxes_have_their_boxes
        (conn : Conn) (boxes : list (jsstring * Box)) (names : list val) (name : jsstring) :
  checkBoxes conn (Boxes boxes) = Some (Resolved (VArr names)) ->
  In (VStr name) names ->
  exists cfg,
    lookup name (mailboxConfig (config conn)) = Some cfg
    /\ getSuccessBoxName conn name
       = Normal (VStr (name ++ delimiterOrEmpty conn ++ success cfg))
    /\ getFailureBoxName conn name
       = Normal (VStr (name ++ delimiterOrEmpty conn ++ failure cfg)).
Proof.
  unfold checkBoxes.
  rewrite (proj1 (checkConfig_partition (delimiter conn) (mailboxConfig (config conn))
                    boxes)).
  destruct (negb _); intros H; [|discriminate]. injection H as <-.
  intros Hin. apply in_map_iff in Hin. destruct Hin as (n & Hn & Hin).
  injection Hn as ->. apply in_map_iff in Hin. destruct Hin as (nc & <- & Hin).
  apply filter_In in Hin. destruct Hin as [Hin _].
  destruct (lookup_key (fst nc) (mailboxConfig (config conn))) as [cfg Hcfg].
  { apply in_map. exact Hin. }
  exists cfg. unfold getSuccessBoxName, getFailureBoxName. rewrite Hcfg. auto.
Qed.

Lemma passed_mailboxes_have_their_boxes_witness :
  exists cfg,
    lookup (js "INBOX") (mailboxConfig (config Config.conn)) = Some cfg
    /\ getSuccessBoxName Config.conn (js "INBOX")
       = Normal (VStr (js "INBOX" ++ delimiterOrEmpty Config.conn ++ success cfg))
    /\ getFailureBoxName Config.conn (js "INBOX")
       = Normal (VStr (js "INBOX" ++ delimiterOrEmpty Config.conn ++ failure cfg)).
Proof.
  apply (passed_mailboxes_have_their_boxes Config.conn Cases.boxes
           [VStr (js "INBOX"); VStr (js "Drafts")] (js "INBOX")).
  - reflexivity.
  - left. reflexivity.
Defined.

(** X14: [parseDate] turns a day, a month and a year, written with two,
    two and four digits and separated by [-] or [/], into
    year-month-dayT23:59:59; when a time hh:mm follows, after any white
    space, into year-month-dayThh:mm:00. *)
Theorem parseDate_rewrites_the_date d1 d2 a m1 m2 b y1 y2 y3 y4 spaces :
  forallb is_digit [d1; d2; m1; m2; y1; y2; y3; y4] = true ->
  isSep a = true -> isSep b = true ->
  Forall (fun x => is_space x = true) spaces ->
  parseDate ([d1; d2; a; m1; m2; b; y1; y2; y3; y4] ++ spaces)
  = Some ([y1; y2; y3; y4] ++ js "-" ++ [m1; m2] ++ js "-" ++ [d1; d2] ++ js "T23:59:59")
  /\ forall h1 h2 n1 n2,
       forallb is_digit [h1; h2; n1; n2] = true ->
       parseDate ([d1; d2; a; m1; m2; b; y1; y2; y3; y4] ++ spaces
                  ++ [h1; h2; ch ":"; n1; n2])
       = Some ([y1; y2; y3; y4] ++ js "-" ++ [m1; m2] ++ js "-" ++ [d1; d2] ++ js "T"
               ++ [h1; h2; ch ":"; n1; n2] ++ js ":00").
Proof.
  intros Hd Ha Hb Hs. split; [now apply parseDate_date|].
  intros h1 h2 n1 n2 Ht. apply parseDate_date_time; auto; try reflexivity.
  cbn [forallb] in *.
  repeat match goal with H : _ && _ = true |- _ => apply andb_prop in H; destruct H end.
  repeat match goal with H : is_digit _ = true |- _ => rewrite H; clear H end.
  reflexivity.
Qed.

Lemma parseDate_rewrites_the_date_witness :
  parseDate (js "25/12/2024 ")
  = Some (js "2024-12-25T23:59:59")
  /\ forall h1 h2 n1 n2,
       forallb is_digit [h1; h2; n1; n2] = true ->
       parseDate (js "25/12/2024" ++ js " " ++ [h1; h2; ch ":"; n1; n2])
       = Some (js "2024" ++ js "-" ++ js "12" ++ js "-" ++ js "25" ++ js "T"
               ++ [h1; h2; ch ":"; n1; n2] ++ js ":00").
Proof.
  refine (parseDate_rewrites_the_date (ch "2") (ch "5") (ch "/") (ch "1") (ch "2") (ch "/")
            (ch "2") (ch "0") (ch "2") (ch "4") (js " ") eq_refl eq_refl eq_refl _).
  repeat constructor.
Defined.




Section Uploads.

Variable rt : Runtime.
Variable restConfig : RestConfig.
Variable w : World.

Lemma run_uploads_exact (isIssue : bool) (id : val) (next : promise) (path : jsstring) :
  getModelPath restConfig (js (if isIssue then "Issues" else "Comments")) = Normal path ->
  forall atts msg tr,
    run w (fold_right (saveOneAttachment rt restConfig isIssue id) next atts) msg tr
    = run w next msg (tr ++ uploads rt restConfig path id atts).
Proof.
  intros Hpath. induction atts as [|a atts IH]; intros msg tr;
    cbn [fold_right uploads filter map].
  - unfold uploads. cbn. now rewrite app_nil_r.
  - unfold saveOneAttachment at 1. unfold uploads, hasContent. cbn [filter].
    destruct (content a).
    + rewrite Hpath. cbn [run map]. rewrite IH. unfold uploads.
      now rewrite <- app_assoc.
    + apply IH.
Qed.

(** X16: [saveMessageAttachments] issues one upload for every attachment
    whose content is a Buffer, in the order of the attachments, and
    resolves with the message whatever the replies to the uploads. *)
Theorem attachments_are_uploaded_one_by_one
        (isIssue : bool) (id : val) (path : jsstring) (msg : Message) (tr : list event) :
  joinAttachments restConfig = true ->
  getModelPath restConfig (js (if isIssue then "Issues" else "Comments")) = Normal path ->
  run w (saveMessageAttachments rt restConfig isIssue id) msg tr
  = {| settled := Some (Resolved (VMessage (uid msg)));
       final := msg;
       trace := tr ++ uploads rt restConfig path id (attachments msg) |}.
Proof.
  intros Hjoin Hpath. unfold saveMessageAttachments. rewrite Hjoin. cbn [negb run].
  now rewrite (run_uploads_exact isIssue id _ path Hpath).
Qed.

(** X17: with [joinOriginalAsEml] switched off, the attachments of a new
    issue are uploaded under the id [undefined]: [saveEmlAsAttachment]
    then resolves with nothing, and what it resolves with is what the
    next step takes for the issue id. *)
Theorem attachments_go_to_undefined_without_eml
        (successBox : val) (message : Message) (issueId : val) (onFailure : promise)
        (path : jsstring) (msg : Message) (tr : list event) :
  joinOriginalAsEml restConfig = false ->
  joinAttachments restConfig = true ->
  getModelPath restConfig (js "Issues") = Normal path ->
  trace (run w (issueAndMove rt restConfig successBox message (resolve issueId) onFailure)
           msg tr)
  = tr ++ uploads rt restConfig path VUndefined (attachments msg)
       ++ [EvMove (uid message) successBox].
Proof.
  intros Heml Hjoin Hpath. unfold issueAndMove.
  rewrite run_then, run_then, run_then. cbn [catch_ settle resolve run settled final trace].
  unfold saveEmlAsAttachment. rewrite Heml. cbn [negb resolve run settled final trace].
  unfold saveMessageAttachments. rewrite Hjoin. cbn [negb run].
  rewrite (run_uploads_exact true VUndefined _ path Hpath).
  cbn [run resolve settled final trace moveMessageFn].
  destruct (moveError w _ _ _); cbn [run reject resolve trace]; now rewrite <- app_assoc.
Qed.

End Uploads.

Lemma attachments_are_uploaded_one_by_one_witness :
  run Scenario.unknownSender
    (saveMessageAttachments Config.runtime Config.restConfig false
       (VStr (js "CMT000000000001")))
    Cases.withFiles []
  = {| settled := Some (Resolved (VMessage (uid Cases.withFiles)));
       final := Cases.withFiles;
       trace := [] ++ uploads Config.runtime Config.restConfig
                        (js "http://192.168.102.105:16485/SM/9/rest/zComments")
                        (VStr (js "CMT000000000001")) (attachments Cases.withFiles) |}.
Proof.
  apply (attachments_are_uploaded_one_by_one Config.runtime Config.restConfig
           Scenario.unknownSender false).
  - reflexivity.
  - reflexivity.
Defined.

Lemma attachments_go_to_undefined_without_eml_witness :
  trace (run Cases.knownSender
           (issueAndMove Config.runtime Cases.withoutEml (VStr (js "INBOX/ok"))
              Cases.withFiles (resolve (VStr (js "SRQ000000000400")))
              (reject VUndefined))
           Cases.withFiles [])
  = [] ++ uploads Config.runtime Cases.withoutEml
            (js "http://192.168.102.105:16485/SM/9/rest/zIssues") VUndefined
            (attachments Cases.withFiles)
       ++ [EvMove (uid Cases.withFiles) (VStr (js "INBOX/ok"))].
Proof.
  apply (attachments_go_to_undefined_without_eml Config.runtime Cases.withoutEml
           Cases.knownSender).
  - reflexivity.
  - reflexivity.
  - reflexivity.
Defined.

(* ===================================================================== *)
(** * The two ways out of [processMessage] *)
(* ===================================================================== *)

Section Routing.

Variable rt : Runtime.
Variable restConfig : RestConfig.
Variable w : World.

Lemma run_getIssueFromSubject (message : Message) (found : promise) msg tr :
  Rest.getIssueFromSubject restConfig message = Normal found ->
  final (run w found msg tr) = msg /\ settled (run w found msg tr) <> None.
Proof.
  unfold Rest.getIssueFromSubject.
  destruct (Rest.header0 (js "subject") message) as [subject|]; [|discriminate].
  destruct (getModelPath restConfig (js "Issues")) as [path|]; [|discriminate].
  cbn [bind]. destruct (truthy _); cbn [negb]; intros H; apply Normal_inj in H; subst found;
    cbn; split; auto; discriminate.
Qed.

(** X18: when the lookup of the issue named in the subject is rejected
    (no id in the subject, a transport error, a return code other than 0,
    a body that is not JSON), [processMessage] goes on exactly as
    [doCreateIssue] does, from the events of the lookup. *)
Theorem failed_issue_lookup_leads_to_a_new_issue
        (conn : Conn) (boxName : jsstring) (message : Message) (p found : promise)
        (tr : list event) (e : val) :
  isRunning conn = true ->
  processMessage rt restConfig conn boxName message = Normal p ->
  Rest.getIssueFromSubject restConfig message = Normal found ->
  settled (run w found message tr) = Some (Rejected e) ->
  run w p message tr
  = run w (callback (doCreateIssue rt restConfig conn boxName message)) message
      (trace (run w found message tr)).
Proof.
  intros Hrun Hp Hfound Hrej. unfold processMessage in Hp.
  rewrite Hrun, Hfound in Hp. cbn [negb bind] in Hp. apply Normal_inj in Hp. subst p.
  rewrite run_catch, run_then, Hrej, Hrej.
  now rewrite (proj1 (run_getIssueFromSubject message found message tr Hfound)).
Qed.

End Routing.

Lemma failed_issue_lookup_leads_to_a_new_issue_witness :
  exists p,
    processMessage Config.runtime Config.restConfig Config.conn (js "INBOX")
      Scenario.request = Normal p
    /\ run Scenario.unknownSender p Scenario.request []
       = run Scenario.unknownSender
           (callback (doCreateIssue Config.runtime Config.restConfig Config.conn
                        (js "INBOX") Scenario.request))
           Scenario.request
           (trace (run Scenario.unknownSender (reject (VStr [])) Scenario.request [])).
Proof.
  eexists. split; [reflexivity|].
  apply (failed_issue_lookup_leads_to_a_new_issue Config.runtime Config.restConfig
           Scenario.unknownSender Config.conn (js "INBOX") Scenario.request _
           (reject (VStr [])) [] (VStr [])).
  - reflexivity.
  - reflexivity.
  - reflexivity.
  - reflexivity.
Defined.

(* ===================================================================== *)
(** * The protocol of a pipeline *)
(* ===================================================================== *)

Section Observes.

Variable S : Type.
Variable step : S -> event -> S.
Variable I : Message -> Prop.

Lemma observes_run (p : promise) :
  forall Q s w msg tr,
    observes step I p Q s -> I msg ->
    exists evs,
      trace (run w p msg tr) = tr ++ evs
      /\ Q (settled (run w p msg tr)) (fold_left step evs s)
      /\ I (final (run w p msg tr)).
Proof.
  induction p as [o| |k IH|m k IH|u k IH|u b k IH|o k IH];
    intros Q s w msg tr Hp Hmsg; cbn [observes run] in *.
  - exists []. rewrite app_nil_r. auto.
  - exists []. rewrite app_nil_r. auto.
  - apply IH; auto.
  - destruct Hp as [Hm Hk]. apply IH; auto.
  - destruct (IH (fetchReply w tr u) Q _ w msg (tr ++ [EvFetch u]) (Hp _) Hmsg)
      as (evs & Ht & HQ & HI).
    exists (EvFetch u :: evs). rewrite Ht, <- app_assoc. auto.
  - destruct (IH (moveError w tr u b) Q _ w msg (tr ++ [EvMove u b]) (Hp _) Hmsg)
      as (evs & Ht & HQ & HI).
    exists (EvMove u b :: evs). rewrite Ht, <- app_assoc. auto.
  - destruct (IH (httpReply w tr o) Q _ w msg (tr ++ [EvRequest o]) (Hp _) Hmsg)
      as (evs & Ht & HQ & HI).
    exists (EvRequest o :: evs). rewrite Ht, <- app_assoc. auto.
Qed.

Lemma observes_weaken (p : promise) :
  forall (Q Q' : option outcome -> S -> Prop) s,
    (forall o s', Q o s' -> Q' o s') ->
    observes step I p Q s -> observes step I p Q' s.
Proof.
  induction p as [o| |k IH|m k IH|u k IH|u b k IH|o k IH];
    intros Q Q' s HQ Hp; cbn [observes] in *; eauto.
  destruct Hp; eauto.
Qed.

Lemma observes_settle (p : promise) (f : outcome -> promise) :
  forall Q s,
    observes step I p (fun o s' => match o with
                                   | Some o' => observes step I (f o') Q s'
                                   | None => Q None s'
                                   end) s ->
    observes step I (settle p f) Q s.
Proof.
  induction p as [o| |k IH|m k IH|u k IH|u b k IH|o k IH];
    intros Q s Hp; cbn [observes settle] in *; eauto.
  destruct Hp; eauto.
Qed.

Lemma observes_then (p : promise) (f : val -> promise) Q s :
  observes step I p (fun o s' => match o with
                                 | Some (Resolved v) => observes step I (f v) Q s'
                                 | Some (Rejected e) => Q (Some (Rejected e)) s'
                                 | None => Q None s'
                                 end) s ->
  observes step I (then_ p f) Q s.
Proof.
  intros H. apply observes_settle. eapply observes_weaken; [|exact H].
  intros [[v|e]|] s' H'; exact H'.
Qed.

Lemma observes_catch (p : promise) (f : val -> promise) Q s :
  observes step I p (fun o s' => match o with
                                 | Some (Resolved v) => Q (Some (Resolved v)) s'
                                 | Some (Rejected e) => observes step I (f e) Q s'
                                 | None => Q None s'
                                 end) s ->
  observes step I (catch_ p f) Q s.
Proof.
  intros H. apply observes_settle. eapply observes_weaken; [|exact H].
  intros [[v|e]|] s' H'; exact H'.
Qed.

Lemma observes_finally_reject (p : promise) (e : val) Q s :
  observes step I p (fun o s' => match o with
                                 | Some _ => Q (Some (Rejected e)) s'
                                 | None => Q None s'
                                 end) s ->
  observes step I (finally_ p (reject e)) Q s.
Proof.
  intros H. apply observes_settle. eapply observes_weaken; [|exact H].
  intros [o|] s' H'; exact H'.
Qed.

Lemma observes_finally_resolve (p : promise) (v : val) Q s :
  observes step I p Q s -> observes step I (finally_ p (resolve v)) Q s.
Proof.
  intros H. apply observes_settle. eapply observes_weaken; [|exact H].
  intros [o|] s' H'; exact H'.
Qed.

End Observes.

Section Quiet.

Variable S : Type.
Variable step : S -> event -> S.

Hypothesis step_fetch : forall s u, step s (EvFetch u) = s.
Hypothesis step_plain : forall s o, json o = false -> step s (EvRequest o) = s.

Variable rt : Runtime.
Variable restConfig : RestConfig.
Variable message : Message.

Let I := sameLetter message.

Let still (s : S) : option outcome -> S -> Prop := fun _ s' => s' = s.

Lemma still_getMessageBody (s : S) :
  observes step I (getMessageBody rt restConfig message) (still s) s.
Proof.
  intros r. rewrite step_fetch. destruct r as [|mail]; [reflexivity|].
  intros m Hm. split; [exact Hm | reflexivity].
Qed.

Lemma still_person (email : val) (person : promise) (s : S) :
  Rest.getPersonIdByEmail restConfig email = Normal (Some person) ->
  observes step I person (still s) s.
Proof.
  unfold Rest.getPersonIdByEmail.
  destruct (getModelPath restConfig (js "Persons")); [|discriminate].
  destruct (parseEmailAddress email); [|discriminate]. cbn [bind].
  destruct (truthy _); cbn [negb]; [|discriminate].
  intros H. apply Normal_inj in H. injection H as <-.
  intros r. now rewrite step_plain.
Qed.

Lemma still_checkSpam (personId : val) (m : Message) (s : S) :
  observes step I (Rest.checkSpamByPersonId restConfig personId m) (still s) s.
Proof.
  unfold Rest.checkSpamByPersonId.
  destruct (Rest.indexOfFound _ _); [reflexivity|].
  destruct (Rest.hasSpamHeaders _ _); [reflexivity|].
  intros r. now rewrite step_plain.
Qed.

Lemma still_timezone (personId : val) (s : S) :
  observes step I (Rest.getTimezoneOffsetByPersonId restConfig personId) (still s) s.
Proof.
  unfold Rest.getTimezoneOffsetByPersonId.
  destruct (truthy _); [|reflexivity].
  intros r. now rewrite step_plain.
Qed.

Lemma still_storeDates (timeZone : val) (s : S) :
  observes step I (Rest.storeDates rt timeZone) (still s) s.
Proof.
  intros m Hm. destruct (Rest.updateDates rt (parsedFields m) timeZone);
    cbn [bind callback observes reject]; [|reflexivity].
  split; [exact Hm | reflexivity].
Qed.

Lemma still_saveEml (issueId : val) (s : S) :
  observes step I (saveEmlAsAttachment rt restConfig message issueId) (still s) s.
Proof.
  unfold saveEmlAsAttachment. destruct (joinOriginalAsEml restConfig); [|reflexivity].
  intros r. rewrite step_fetch. destruct r as [|mail]; [reflexivity|].
  destruct (getModelPath restConfig (js "Issues")); [|reflexivity].
  intros r. now rewrite step_plain.
Qed.

Lemma still_uploads (isIssue : bool) (id : val) (next : promise) Q (s : S) :
  observes step I next Q s ->
  forall atts,
    observes step I (fold_right (saveOneAttachment rt restConfig isIssue id) next atts) Q s.
Proof.
  intros Hnext. induction atts as [|a atts IH]; [exact Hnext|].
  cbn [fold_right]. unfold saveOneAttachment at 1.
  destruct (content a); [|exact IH].
  destruct (getModelPath restConfig _); [|exact IH].
  intros r. now rewrite step_plain.
Qed.

Lemma still_saveMessageAttachments (isIssue : bool) (id : val) (s : S) :
  observes step I (saveMessageAttachments rt restConfig isIssue id) (still s) s.
Proof.
  unfold saveMessageAttachments. destruct (joinAttachments restConfig); [|reflexivity].
  intros m Hm. now apply still_uploads.
Qed.

Lemma step_move (boxName : val) (s : S) :
  observes step I (moveMessageFn boxName message)
    (fun _ s' => s' = step s (EvMove (uid message) boxName)) s.
Proof. intros r. now destruct r. Qed.

End Quiet.

Section FilingFacts.

Variables resource other : string.
Variable u : Z.
Variables sb fb : jsstring.

Let step := filing resource other u sb fb.

Lemma posted_plain (r : string) (o : request) :
  json o = false -> posted r (EvRequest o) = [].
Proof.
  intros H. unfold posted. destruct (reqBody o) as [| | | | | |[|[k v] [|]]| |];
    try reflexivity. now rewrite H.
Qed.

Lemma filing_fetch (s : Filing) (v : Z) : step s (EvFetch v) = s.
Proof. reflexivity. Qed.

Lemma filing_plain (s : Filing) (o : request) :
  json o = false -> step s (EvRequest o) = s.
Proof.
  intros H. unfold step, filing, creates. now rewrite !(posted_plain _ o H).
Qed.

Lemma filing_move_failure (s : Filing) :
  s = Untouched \/ s = Recorded -> step s (EvMove u (VStr fb)) = Filed.
Proof.
  intros [-> | ->]; unfold step, filing; rewrite Z.eqb_refl; cbn [strict_eq];
    rewrite str_eqb_refl; [reflexivity | now rewrite orb_true_r].
Qed.

Lemma filing_move_success : step Recorded (EvMove u (VStr sb)) = Filed.
Proof.
  unfold step, filing. rewrite Z.eqb_refl. cbn [strict_eq]. now rewrite str_eqb_refl.
Qed.

End FilingFacts.

Section IssueProtocol.

Variable rt : Runtime.
Variable restConfig : RestConfig.
Variable message : Message.
Variables sb fb : jsstring.

Let I := sameLetter message.
Let step := filing "ZIssue" "ZComment" (uid message) sb fb.

Let still (s : Filing) : option outcome -> Filing -> Prop := fun _ s' => s' = s.

(** Not astray, and back where it was if the promise resolved. *)
Let mid (s : Filing) : option outcome -> Filing -> Prop :=
  fun o s' => s' <> Astray /\ forall v, o = Some (Resolved v) -> s' = s.

(** Not astray, and not resolved. *)
Let over : option outcome -> Filing -> Prop :=
  fun o s' => s' <> Astray /\ forall v, o <> Some (Resolved v).

Let fin : option outcome -> Filing -> Prop := fun _ s' => s' <> Astray.

Let fetch : forall s v, step s (EvFetch v) = s :=
  filing_fetch "ZIssue" "ZComment" (uid message) sb fb.

Let plain : forall s o, json o = false -> step s (EvRequest o) = s :=
  filing_plain "ZIssue" "ZComment" (uid message) sb fb.

Lemma still_then_still (p : promise) (f : val -> promise) (s : Filing) :
  observes step I p (still s) s ->
  (forall v, observes step I (f v) (still s) s) ->
  observes step I (then_ p f) (still s) s.
Proof.
  intros Hp Hf. apply observes_then. eapply observes_weaken; [|exact Hp].
  intros [[v|e]|] s' ->; [apply Hf | reflexivity | reflexivity].
Qed.

Lemma still_catch_mid (p : promise) (g : val -> promise) (s : Filing) :
  s <> Astray ->
  observes step I p (still s) s ->
  (forall e, observes step I (g e) (mid s) s) ->
  observes step I (catch_ p g) (mid s) s.
Proof.
  intros Hs Hp Hg. apply observes_catch. eapply observes_weaken; [|exact Hp].
  intros [[v|e]|] s' ->; [now split | apply Hg | split; [exact Hs | discriminate]].
Qed.

Lemma mid_then (p : promise) (f : val -> promise) (s : Filing)
      (Q : option outcome -> Filing -> Prop) :
  (forall o s', s' <> Astray -> (forall v, o <> Some (Resolved v)) -> Q o s') ->
  observes step I p (mid s) s ->
  (forall v, observes step I (f v) Q s) ->
  observes step I (then_ p f) Q s.
Proof.
  intros HQ Hp Hf. apply observes_then. eapply observes_weaken; [|exact Hp].
  intros [[v|e]|] s' [Hs Hv].
  - rewrite (Hv v eq_refl). apply Hf.
  - apply HQ; [exact Hs | discriminate].
  - apply HQ; [exact Hs | discriminate].
Qed.

Lemma move_failure_over (wrap : promise -> promise) (s : Filing) :
  (wrap = (fun p => finally_ p (reject VUndefined))
   \/ wrap = (fun p => then_ p (fun _ => reject VUndefined))) ->
  s = Untouched \/ s = Recorded ->
  observes step I (wrap (moveMessageFn (VStr fb) message)) over s.
Proof.
  intros [-> | ->] Hs.
  - apply observes_finally_reject. eapply observes_weaken; [|apply step_move].
    intros [o|] s' ->; unfold step; rewrite (filing_move_failure _ _ _ _ _ _ Hs);
      split; discriminate.
  - apply observes_then. eapply observes_weaken; [|apply step_move].
    intros [[v|e]|] s' ->; unfold step; rewrite (filing_move_failure _ _ _ _ _ _ Hs);
      cbn [observes reject]; split; discriminate.
Qed.


Lemma recorded_createIssue (issue : val) (created : promise) :
  Rest.createIssue rt restConfig issue = Normal created ->
  observes step I created
    (fun o s' => s' = Recorded \/ (o = None /\ s' = Untouched)) Untouched.
Proof.
  unfold Rest.createIssue.
  destruct (getModelPath restConfig (js "Issues")) as [uri|]; [|discriminate].
  destruct (Rest.issueFields rt restConfig issue) as [fields|]; [|discriminate].
  cbn [bind]. intros H. apply Normal_inj in H. subst created.
  apply observes_settle.
  eapply observes_weaken with (Q := still Untouched).
  { intros [o|] s' ->; [|auto].
    intros m Hm r.
    change (step Untouched (EvRequest (Rest.postOptions restConfig uri "ZIssue"
                                         (Rest.getIssueObj restConfig (parsedFields m) fields))))
      with Recorded.
    destruct (createResponse_cases "SRQ" "Error inserting a new issue" r) as [-> | [o' ->]];
      cbn [observes]; auto. }
  apply observes_catch.
  eapply observes_weaken;
    [|apply still_then_still;
      [exact (still_timezone _ step plain restConfig message _ Untouched)
      |intros v; exact (still_storeDates _ step rt message v Untouched)]].
  intros [[v|e]|] s' ->; try reflexivity.
  exact (still_storeDates _ step rt message VUndefined Untouched).
Qed.

Lemma issueAndMove_filed (m : Message) (issue : val) (created onFailure : promise) :
  I m ->
  Rest.createIssue rt restConfig issue = Normal created ->
  observes step I onFailure over Recorded ->
  observes step I (issueAndMove rt restConfig (VStr sb) m created onFailure) fin Untouched.
Proof.
  intros Hm Hc Hko.
  rewrite (same_letter_issueAndMove rt restConfig message (VStr sb) m created onFailure Hm).
  unfold issueAndMove.
  assert (Hrec : forall o s', s' <> Astray -> (forall v, o <> Some (Resolved v)) ->
                              mid Recorded o s').
  { intros o s' Hs Ho. split; [exact Hs|]. intros v E. now destruct (Ho v). }
  apply observes_then.
  eapply observes_weaken with
    (Q := fun o s' => (s' = Untouched /\ o = None) \/ mid Recorded o s').
  { intros [[v|e]|] s' [[E1 E2] | [Hs Hv]]; try discriminate; try exact Hs.
    - rewrite (Hv v eq_refl). eapply observes_weaken; [|apply step_move].
      intros o s'' ->. unfold fin, step. now rewrite filing_move_success.
    - subst s'. discriminate. }
  apply observes_then.
  eapply observes_weaken with
    (Q := fun o s' => (s' = Untouched /\ o = None) \/ mid Recorded o s').
  { intros [[v|e]|] s' [[E1 E2] | [Hs Hv]]; try discriminate;
      try (right; split; [exact Hs | intros ? ?; discriminate]);
      try (left; split; [exact E1 | reflexivity]).
    rewrite (Hv v eq_refl). eapply observes_weaken;
      [|exact (still_saveMessageAttachments _ step plain rt restConfig message true v
                 Recorded)].
    intros o s'' ->. right. split; [discriminate | reflexivity]. }
  apply observes_then.
  eapply observes_weaken with
    (Q := fun o s' => (s' = Untouched /\ o = None) \/ mid Recorded o s').
  { intros [[v|e]|] s' [[E1 E2] | [Hs Hv]]; try discriminate;
      try (right; split; [exact Hs | intros ? ?; discriminate]);
      try (left; split; [exact E1 | reflexivity]).
    rewrite (Hv v eq_refl). eapply observes_weaken;
      [|exact (still_saveEml _ step fetch plain rt restConfig message v Recorded)].
    intros o s'' ->. right. split; [discriminate | reflexivity]. }
  apply observes_catch.
  eapply observes_weaken; [|apply (recorded_createIssue issue created Hc)].
  intros [[v|e]|] s' [-> | [E ->]]; try discriminate.
  - right. split; [discriminate | reflexivity].
  - eapply observes_weaken; [|exact Hko].
    intros o s' [Hs Ho]. right. now apply Hrec.
  - right. split; [discriminate | reflexivity].
  - left. auto.
Qed.


Lemma create_and_move_filed (m : Message) (fields : val)
      (wrap : promise -> promise) (Q : option outcome -> Filing -> Prop) :
  I m ->
  (wrap = (fun p => finally_ p (reject VUndefined))
   \/ wrap = (fun p => then_ p (fun _ => reject VUndefined))) ->
  (forall o s', s' <> Astray -> (forall v, o <> Some (Resolved v)) -> Q o s') ->
  forall (after : promise -> promise),
    (forall p, observes step I p fin Untouched -> observes step I (after p) Q Untouched) ->
    observes step I
      (callback
         (let! created := Rest.createIssue rt restConfig fields in
          Normal (after (issueAndMove rt restConfig (VStr sb) m created
                           (wrap (moveMessageFn (VStr fb) m))))))
      Q Untouched.
Proof.
  intros Hm Hwrap HQ after Hafter.
  destruct (Rest.createIssue rt restConfig fields) as [created|] eqn:Hc;
    cbn [bind callback observes reject].
  - apply Hafter. apply (issueAndMove_filed m fields created _ Hm Hc).
    rewrite (same_letter_moves message m _ Hm).
    apply move_failure_over; auto.
  - apply HQ; discriminate.
Qed.

(** The issue flow keeps to the protocol, whatever the replies. *)
Lemma issue_flow_keeps_protocol (conn : Conn) (boxName : jsstring) (p : promise) :
  doCreateIssue rt restConfig conn boxName message = Normal p ->
  getSuccessBoxName conn boxName = Normal (VStr sb) ->
  getFailureBoxName conn boxName = Normal (VStr fb) ->
  observes step I p fin Untouched.
Proof.
  intros Hp Hs Hf. unfold doCreateIssue in Hp.
  destruct (Rest.header0 (js "from") message) as [email|]; [|discriminate].
  rewrite Hs, Hf in Hp. cbn [bind] in Hp. apply Normal_inj in Hp. subst p.
  assert (Hover : forall o s', s' <> Astray -> (forall v, o <> Some (Resolved v)) ->
                               mid Untouched o s').
  { intros o s' Hs' Ho. split; [exact Hs'|]. intros v E. now destruct (Ho v). }
  apply (mid_then _ _ Untouched fin); [intros o s' H _; exact H| |].
  apply (mid_then _ _ Untouched (mid Untouched)); [exact Hover| |].
  apply still_catch_mid; [discriminate| |].
  - (* the body and the person *)
    apply still_then_still;
      [exact (still_getMessageBody _ step fetch rt restConfig message Untouched)|].
    intros v.
    destruct (Rest.getPersonIdByEmail restConfig email) as [[person|]|] eqn:E;
      cbn [bind callback observes resolve reject]; try reflexivity.
    exact (still_person _ step plain restConfig message email person Untouched E).
  - (* nobody found *)
    intros e. destruct (createSystemIssue (onPersonNotFound restConfig)).
    + intros m Hm. destruct (Rest.makeIssue m) as [issue|];
        cbn [bind callback observes reject]; [|split; discriminate].
      apply (create_and_move_filed m issue (fun p => finally_ p (reject VUndefined))
               (mid Untouched) Hm (or_introl eq_refl) Hover
               (fun p => finally_ p (reject VUndefined))).
      intros p Hp. apply observes_finally_reject. eapply observes_weaken; [|exact Hp].
      intros [o|] s' H; (split; [exact H | discriminate]).
    + eapply observes_weaken;
        [|exact (move_failure_over (fun p => finally_ p (reject VUndefined)) Untouched
                   (or_introl eq_refl) (or_introl eq_refl))].
      intros o s' [H1 H2]. now apply Hover.
  - (* the spam check *)
    intros authorId. apply observes_then, observes_catch.
    eapply observes_weaken;
      [|exact (still_checkSpam _ step plain restConfig message authorId message Untouched)].
    intros [[v|e]|] s' ->; cbn [observes resolve].
    + split; [discriminate | reflexivity].
    + eapply observes_weaken;
        [|exact (move_failure_over (fun p => finally_ p (reject VUndefined)) Untouched
                   (or_introl eq_refl) (or_introl eq_refl))].
      intros [[v|e']|] s' [H1 H2]; cbn [observes resolve];
        now apply Hover.
    + split; [discriminate | discriminate].
  - (* the issue *)
    intros id m Hm. destruct (Rest.makeIssue m) as [made|];
      cbn [bind callback observes reject]; [|discriminate].
    destruct made as [| | | | | |fields| |]; cbn [bind callback observes reject];
      try discriminate.
    apply (create_and_move_filed m _ (fun p => then_ p (fun _ => reject VUndefined))
             fin Hm (or_intror eq_refl) (fun o s' H _ => H) (fun p => p)).
    auto.
Qed.

End IssueProtocol.

Section FilingTraces.

Variables resource other : string.
Variable u : Z.
Variables sb fb : jsstring.

Let step := filing resource other u sb fb.

Lemma creates_false (r : string) (e : event) : creates r e = false -> posted r e = [].
Proof. unfold creates. now destruct (posted r e). Qed.

Lemma posted_one (r : string) (e : event) : length (posted r e) <= 1.
Proof.
  unfold posted. destruct e as [| |o]; cbn [length]; try lia.
  destruct (reqBody o) as [| | | | | |[|[k v] [|]]| |]; cbn [length]; try lia.
  destruct (json o && str_eqb k (js r)); cbn [length]; lia.
Qed.

Lemma creates_true (r : string) (e : event) : creates r e = true -> length (posted r e) = 1.
Proof.
  unfold creates. pose proof (posted_one r e) as H.
  destruct (posted r e) as [|v l]; [discriminate|]. cbn [length] in *. intros _. lia.
Qed.

Lemma posted_move (r : string) (v : Z) (b : val) : posted r (EvMove v b) = [].
Proof. reflexivity. Qed.

Lemma astray_stays (evs : list event) : fold_left step evs Astray = Astray.
Proof.
  induction evs as [|e evs IH]; [reflexivity|]. cbn [fold_left].
  replace (step Astray e) with Astray; [exact IH|].
  unfold step, filing. destruct e as [v|v b|o]; [reflexivity| |].
  - now destruct (Z.eqb v u).
  - destruct (creates other _); [reflexivity|]. now destruct (creates resource _).
Qed.

(** One event, seen from a state that is not astray afterwards. *)
Lemma filing_step (s : Filing) (e : event) (evs : list event) :
  fold_left step (e :: evs) s <> Astray ->
  fold_left step evs (step s e) <> Astray
  /\ step s e <> Astray
  /\ posted other e = []
  /\ match e with
     | EvFetch _ => step s e = s
     | EvRequest _ =>
         (posted resource e = [] /\ step s e = s)
         \/ (length (posted resource e) = 1 /\ s = Untouched /\ step s e = Recorded)
     | EvMove u' b =>
         u' = u /\ step s e = Filed
         /\ ((s = Untouched /\ b = VStr fb)
             \/ (s = Recorded /\ (b = VStr sb \/ b = VStr fb)))
     end.
Proof.
  cbn [fold_left]. intros H.
  assert (Hs : step s e <> Astray).
  { intros E. rewrite E, astray_stays in H. now apply H. }
  split; [exact H|]. split; [exact Hs|].
  unfold step, filing in *. destruct e as [v|v b|o].
  - auto.
  - split; [reflexivity|]. destruct (Z.eqb_spec v u) as [->|]; [|now destruct Hs].
    split; [reflexivity|]. destruct s; try now destruct Hs.
    + destruct (strict_eq (VStr fb) b) eqn:E; [|now destruct Hs].
      apply strict_eq_str in E. auto.
    + destruct (strict_eq (VStr sb) b) eqn:E1.
      * apply strict_eq_str in E1. auto.
      * destruct (strict_eq (VStr fb) b) eqn:E2; [|now destruct Hs].
        apply strict_eq_str in E2. auto.
  - destruct (creates other (EvRequest o)) eqn:Eo; [now destruct Hs|].
    split; [now apply creates_false|].
    destruct (creates resource (EvRequest o)) eqn:Er.
    + right. destruct s; try now destruct Hs.
      split; [now apply creates_true | auto].
    + left. split; [now apply creates_false | reflexivity].
Qed.

Lemma posts_cons (r : string) (e : event) (evs : list event) :
  posts r (e :: evs) = posted r e ++ posts r evs.
Proof. reflexivity. Qed.

Lemma filed_is_final (evs : list event) :
  fold_left step evs Filed <> Astray ->
  posts resource evs = [] /\ posts other evs = [] /\ moves evs = [].
Proof.
  induction evs as [|e evs IH]; [auto|]. intros H.
  destruct (filing_step Filed e evs H) as (Hrest & Hs & Ho & He).
  rewrite !posts_cons, Ho. destruct e as [v|v b|o].
  - rewrite He in Hrest. destruct (IH Hrest) as (H1 & H2 & H3). auto.
  - destruct He as (_ & _ & [[E _] | [E _]]); discriminate.
  - destruct He as [[Hp E] | (_ & E & _)]; [|discriminate].
    rewrite E in Hrest. rewrite Hp. destruct (IH Hrest) as (H1 & H2 & H3). auto.
Qed.

Lemma recorded_then_filed (evs : list event) :
  fold_left step evs Recorded <> Astray ->
  posts resource evs = [] /\ posts other evs = []
  /\ forall pre u' b post,
       evs = pre ++ EvMove u' b :: post ->
       u' = u /\ (b = VStr sb \/ b = VStr fb) /\ moves pre = [] /\ moves post = [].
Proof.
  induction evs as [|e evs IH]; intros H.
  - split; [reflexivity|]. split; [reflexivity|].
    intros pre u' b post E. now destruct pre.
  - destruct (filing_step Recorded e evs H) as (Hrest & Hs & Ho & He).
    rewrite !posts_cons, Ho. destruct e as [v|v b|o].
    + rewrite He in Hrest. destruct (IH Hrest) as (H1 & H2 & H3).
      split; [exact H1|]. split; [exact H2|].
      intros pre u' b post E. destruct pre as [|x pre]; [discriminate|].
      injection E as <- E. exact (H3 pre u' b post E).
    + destruct He as (-> & E & [[E' _] | [_ Hb]]); [discriminate|].
      rewrite E in Hrest. destruct (filed_is_final evs Hrest) as (H1 & H2 & H3).
      split; [exact H1|]. split; [exact H2|].
      intros pre u' b' post E'. destruct pre as [|x pre].
      * injection E' as <- <- <-. auto.
      * injection E' as <- E'. subst evs. unfold moves in H3.
        rewrite filter_app in H3. cbn [filter is_move] in H3.
        apply app_eq_nil in H3. destruct H3 as [_ H3]. discriminate.
    + destruct He as [[Hp E] | (_ & E & _)]; [|discriminate].
      rewrite E in Hrest. rewrite Hp. destruct (IH Hrest) as (H1 & H2 & H3).
      split; [exact H1|]. split; [exact H2|].
      intros pre u' b post E'. destruct pre as [|x pre]; [discriminate|].
      injection E' as <- E'. exact (H3 pre u' b post E').
Qed.

Lemma untouched_then_filed (evs : list event) :
  fold_left step evs Untouched <> Astray ->
  length (posts resource evs) <= 1 /\ posts other evs = []
  /\ forall pre u' b post,
       evs = pre ++ EvMove u' b :: post ->
       u' = u /\ moves pre = [] /\ moves post = [] /\ posts resource post = []
       /\ (b = VStr fb \/ (b = VStr sb /\ length (posts resource pre) = 1)).
Proof.
  induction evs as [|e evs IH]; intros H.
  - split; [cbn; lia|]. split; [reflexivity|].
    intros pre u' b post E. now destruct pre.
  - destruct (filing_step Untouched e evs H) as (Hrest & Hs & Ho & He).
    rewrite !posts_cons, Ho. destruct e as [v|v b|o].
    + rewrite He in Hrest. destruct (IH Hrest) as (H1 & H2 & H3).
      split; [exact H1|]. split; [exact H2|].
      intros pre u' b post E. destruct pre as [|x pre]; [discriminate|].
      injection E as <- E. exact (H3 pre u' b post E).
    + destruct He as (-> & E & [[_ Hb] | [E' _]]); [|discriminate].
      rewrite E in Hrest. destruct (filed_is_final evs Hrest) as (H1 & H2 & H3).
      split; [rewrite H1; cbn; lia|]. split; [exact H2|].
      intros pre u' b' post E'. destruct pre as [|x pre].
      * injection E' as <- <- <-. repeat split; auto.
      * injection E' as <- E'. subst evs. unfold moves in H3.
        rewrite filter_app in H3. cbn [filter is_move] in H3.
        apply app_eq_nil in H3. destruct H3 as [_ H3]. discriminate.
    + destruct He as [[Hp E] | (Hp & _ & E)].
      * rewrite E in Hrest. rewrite Hp. destruct (IH Hrest) as (H1 & H2 & H3).
        split; [exact H1|]. split; [exact H2|].
        intros pre u' b post E'. destruct pre as [|x pre]; [discriminate|].
        injection E' as <- E'.
        destruct (H3 pre u' b post E') as (G1 & G2 & G3 & G4 & G5).
        rewrite posts_cons, Hp. change (moves (EvRequest o :: pre)) with (moves pre).
        cbn [app]. repeat split; auto.
      * rewrite E in Hrest. destruct (recorded_then_filed evs Hrest) as (H1 & H2 & H3).
        split; [rewrite length_app, H1, Hp; cbn; lia|]. split; [exact H2|].
        intros pre u' b post E'. destruct pre as [|x pre]; [discriminate|].
        injection E' as <- E'.
        destruct (H3 pre u' b post E') as (G1 & G2 & G3 & G4).
        subst evs. unfold posts in H1. rewrite flat_map_app in H1.
        apply app_eq_nil in H1. destruct H1 as [H1 H1'].
        cbn [flat_map] in H1'. rewrite posted_move in H1'. cbn [app] in H1'.
        change (moves (EvRequest o :: pre)) with (moves pre).
        repeat split; auto.
        destruct G2 as [-> | ->]; [right|left]; auto.
        split; [reflexivity|]. rewrite posts_cons, length_app, Hp.
        unfold posts. rewrite H1. reflexivity.
Qed.

End FilingTraces.

Section CommentProtocol.

Variable rt : Runtime.
Variable restConfig : RestConfig.
Variable message : Message.
Variables sb fb : jsstring.

Let I := sameLetter message.
Let step := filing "ZComment" "ZIssue" (uid message) sb fb.

Let still (s : Filing) : option outcome -> Filing -> Prop := fun _ s' => s' = s.

Let fin : option outcome -> Filing -> Prop := fun _ s' => s' <> Astray.

Let fetch : forall s v, step s (EvFetch v) = s :=
  filing_fetch "ZComment" "ZIssue" (uid message) sb fb.

Let plain : forall s o, json o = false -> step s (EvRequest o) = s :=
  filing_plain "ZComment" "ZIssue" (uid message) sb fb.

Lemma commentAndMove_filed (m : Message) (comment : val) :
  I m ->
  observes step I (callback (commentAndMove rt restConfig (VStr sb) (VStr fb) m comment))
    fin Untouched.
Proof.
  intros Hm. unfold commentAndMove, Rest.createComment.
  destruct (getModelPath restConfig (js "Comments")) as [uri|];
    cbn [bind callback observes reject]; [|discriminate].
  destruct (Rest.commentFields rt restConfig comment) as [fields|];
    cbn [bind callback observes reject]; [|discriminate].
  rewrite !(same_letter_moves message m _ Hm).
  apply observes_catch, observes_then, observes_then.
  intros r.
  change (step Untouched (EvRequest (Rest.postOptions restConfig uri "ZComment"
                                       (VObj (assign [] fields)))))
    with Recorded.
  destruct (createResponse_cases "CMT" "Error inserting a new comment" r)
    as [-> | [[commentId|e] ->]]; cbn [observes].
  - discriminate.
  - eapply observes_weaken;
      [|exact (still_saveMessageAttachments _ step plain rt restConfig message false
                 commentId Recorded)].
    intros [[v|e]|] s' ->; [| |discriminate].
    + apply observes_catch. eapply observes_weaken; [|apply step_move].
      intros [[v'|e]|] s' ->; cbn [observes resolve]; unfold fin, step;
        now rewrite filing_move_success.
    + eapply observes_weaken; [|apply step_move].
      intros o s' ->. unfold fin, step.
      now rewrite (filing_move_failure "ZComment" "ZIssue" (uid message) sb fb Recorded
                     (or_intror eq_refl)).
  - eapply observes_weaken; [|apply step_move].
    intros o s' ->. unfold fin, step.
    now rewrite (filing_move_failure "ZComment" "ZIssue" (uid message) sb fb Recorded
                   (or_intror eq_refl)).
Qed.

Lemma commented_and_moved (m : Message) (comment : val) (wrap : promise -> promise)
      (Q : option outcome -> Filing -> Prop) :
  I m ->
  (forall p, observes step I p fin Untouched -> observes step I (wrap p) Q Untouched) ->
  (forall e, Q (Some (Rejected e)) Untouched) ->
  observes step I
    (callback (let! moved := commentAndMove rt restConfig (VStr sb) (VStr fb) m comment in
               Normal (wrap moved)))
    Q Untouched.
Proof.
  intros Hm Hwrap HQ. pose proof (commentAndMove_filed m comment Hm) as H.
  destruct (commentAndMove rt restConfig (VStr sb) (VStr fb) m comment) as [moved|];
    cbn [bind callback observes reject] in *; [now apply Hwrap | apply HQ].
Qed.

Lemma commentOnceFetched_filed (issue : val) :
  observes step I (commentOnceFetched rt restConfig (VStr sb) (VStr fb) issue)
    fin Untouched.
Proof.
  intros m Hm.
  destruct (Rest.header0 (js "from") m) as [email|];
    cbn [bind callback observes reject]; [|discriminate].
  destruct (prop issue (js "Id")) as [issueId|];
    cbn [bind callback observes reject]; [|discriminate].
  destruct (Rest.getPersonIdByEmail restConfig email) as [[person|]|] eqn:Hperson;
    cbn [bind callback observes reject]; try discriminate.
  rewrite !(same_letter_moves message m _ Hm).
  apply observes_finally_resolve.
  apply observes_then, observes_then, observes_then, observes_catch.
  eapply observes_weaken;
    [|exact (still_person _ step plain restConfig message email person Untouched Hperson)].
  intros [[authorId|e]|] s' ->; [| |discriminate].
  - (* the sender is known *)
    apply observes_catch, observes_then.
    eapply observes_weaken;
      [|exact (still_checkSpam _ step plain restConfig message authorId m Untouched)].
    intros [[v|e]|] s' ->; cbn [observes resolve]; [| |discriminate].
    + apply (commented_and_moved m _ (fun p => finally_ p (resolve VUndefined)) fin Hm);
        [|discriminate].
      intros p Hp. now apply observes_finally_resolve.
    + apply observes_finally_reject. eapply observes_weaken; [|apply step_move].
      intros [o|] s' ->; unfold step;
        now rewrite (filing_move_failure "ZComment" "ZIssue" (uid message) sb fb Untouched
                       (or_introl eq_refl)).
  - (* nobody found: the comment of the default author *)
    apply (commented_and_moved m _ (fun p => finally_ p (reject VUndefined))); auto;
      [|discriminate].
    intros p Hp. apply observes_finally_reject. eapply observes_weaken; [|exact Hp].
    intros [o|] s' Hs; exact Hs.
Qed.

(** The comment flow keeps to the protocol, and its promise is never
    rejected. *)
Lemma comment_flow_keeps_protocol (conn : Conn) (boxName : jsstring) (issue : val)
      (p : promise) :
  doCreateComment rt restConfig conn boxName issue message = Normal p ->
  getSuccessBoxName conn boxName = Normal (VStr sb) ->
  getFailureBoxName conn boxName = Normal (VStr fb) ->
  observes step I p (fun o s' => s' <> Astray /\ forall e, o <> Some (Rejected e)) Untouched.
Proof.
  intros Hp Hs Hf. unfold doCreateComment in Hp. rewrite Hs, Hf in Hp.
  cbn [bind] in Hp. apply Normal_inj in Hp. subst p.
  apply observes_catch, observes_then.
  eapply observes_weaken;
    [|exact (still_getMessageBody _ step fetch rt restConfig message Untouched)].
  intros [[v|e]|] s' ->; cbn [observes resolve]; try (split; discriminate).
  eapply observes_weaken; [|apply commentOnceFetched_filed].
  intros [[v'|e]|] s' Hs'; cbn [observes resolve]; split; try exact Hs'; discriminate.
Qed.

End CommentProtocol.


Lemma box_names (conn : Conn) (boxName : jsstring) :
  (exists sb fb,
      getSuccessBoxName conn boxName = Normal (VStr sb)
      /\ getFailureBoxName conn boxName = Normal (VStr fb))
  \/ (exists e, getSuccessBoxName conn boxName = Throw e).
Proof.
  unfold getSuccessBoxName, getFailureBoxName.
  destruct (lookup boxName (mailboxConfig (config conn))); eauto.
  destruct (inherited boxName); eauto.
Qed.

(** X20: whatever the servers reply, the issue flow posts one issue at
    most for a message, and never a comment. *)
Theorem issue_flow_posts_one_issue
        (rt : Runtime) (restConfig : RestConfig) (conn : Conn) (boxName : jsstring)
        (message : Message) (p : promise) (w : World) (tr : list event) :
  doCreateIssue rt restConfig conn boxName message = Normal p ->
  exists evs,
    trace (run w p message tr) = tr ++ evs
    /\ length (posts "ZIssue" evs) <= 1
    /\ posts "ZComment" evs = [].
Proof.
  intros Hp.
  destruct (box_names conn boxName) as [(sb & fb & Hs & Hf) | [e He]].
  - destruct (observes_run _ _ _ p _ Untouched w message tr
                (issue_flow_keeps_protocol rt restConfig message sb fb conn boxName p
                   Hp Hs Hf)
                (conj eq_refl eq_refl)) as (evs & Ht & HQ & _).
    exists evs. split; [exact Ht|].
    destruct (untouched_then_filed _ _ _ _ _ evs HQ) as (H1 & H2 & _). auto.
  - unfold doCreateIssue in Hp.
    destruct (Rest.header0 (js "from") message); [|discriminate].
    rewrite He in Hp. discriminate.
Qed.

(** X21: whatever the servers reply, the issue flow moves its message
    once at most; nothing is moved before and nothing is moved or posted
    after; the move goes to the failure box, or to the success box after
    the one issue has been posted. *)
Theorem issue_flow_files_after_posting
        (rt : Runtime) (restConfig : RestConfig) (conn : Conn) (boxName : jsstring)
        (message : Message) (p : promise) (successBox failureBox : val)
        (w : World) (tr : list event) :
  doCreateIssue rt restConfig conn boxName message = Normal p ->
  getSuccessBoxName conn boxName = Normal successBox ->
  getFailureBoxName conn boxName = Normal failureBox ->
  exists evs,
    trace (run w p message tr) = tr ++ evs
    /\ forall pre u b post,
         evs = pre ++ EvMove u b :: post ->
         u = uid message /\ moves pre = [] /\ moves post = []
         /\ posts "ZIssue" post = []
         /\ (b = failureBox \/ (b = successBox /\ length (posts "ZIssue" pre) = 1)).
Proof.
  intros Hp Hs Hf.
  destruct (box_names conn boxName) as [(sb & fb & Hs' & Hf') | [e He]]; [|congruence].
  assert (successBox = VStr sb) by congruence.
  assert (failureBox = VStr fb) by congruence. subst.
  destruct (observes_run _ _ _ p _ Untouched w message tr
              (issue_flow_keeps_protocol rt restConfig message sb fb conn boxName p
                 Hp Hs Hf)
              (conj eq_refl eq_refl)) as (evs & Ht & HQ & _).
  exists evs. split; [exact Ht|].
  now destruct (untouched_then_filed _ _ _ _ _ evs HQ) as (_ & _ & H).
Qed.

(** X22: whatever the servers reply, the comment flow posts one comment
    at most for a message, and never an issue. *)
Theorem comment_flow_posts_one_comment
        (rt : Runtime) (restConfig : RestConfig) (conn : Conn) (boxName : jsstring)
        (issue : val) (message : Message) (p : promise) (w : World) (tr : list event) :
  doCreateComment rt restConfig conn boxName issue message = Normal p ->
  exists evs,
    trace (run w p message tr) = tr ++ evs
    /\ length (posts "ZComment" evs) <= 1
    /\ posts "ZIssue" evs = [].
Proof.
  intros Hp.
  destruct (box_names conn boxName) as [(sb & fb & Hs & Hf) | [e He]].
  - destruct (observes_run _ _ _ p _ Untouched w message tr
                (comment_flow_keeps_protocol rt restConfig message sb fb conn boxName
                   issue p Hp Hs Hf)
                (conj eq_refl eq_refl)) as (evs & Ht & [HQ _] & _).
    exists evs. split; [exact Ht|].
    destruct (untouched_then_filed _ _ _ _ _ evs HQ) as (H1 & H2 & _). auto.
  - unfold doCreateComment in Hp. rewrite He in Hp. discriminate.
Qed.

(** X23: whatever the servers reply, the comment flow moves its message
    once at most; nothing is moved before and nothing is moved or posted
    after; the move goes to the failure box, or to the success box after
    the one comment has been posted. *)
Theorem comment_flow_files_after_posting
        (rt : Runtime) (restConfig : RestConfig) (conn : Conn) (boxName : jsstring)
        (issue : val) (message : Message) (p : promise) (successBox failureBox : val)
        (w : World) (tr : list event) :
  doCreateComment rt restConfig conn boxName issue message = Normal p ->
  getSuccessBoxName conn boxName = Normal successBox ->
  getFailureBoxName conn boxName = Normal failureBox ->
  exists evs,
    trace (run w p message tr) = tr ++ evs
    /\ forall pre u b post,
         evs = pre ++ EvMove u b :: post ->
         u = uid message /\ moves pre = [] /\ moves post = []
         /\ posts "ZComment" post = []
         /\ (b = failureBox \/ (b = successBox /\ length (posts "ZComment" pre) = 1)).
Proof.
  intros Hp Hs Hf.
  destruct (box_names conn boxName) as [(sb & fb & Hs' & Hf') | [e He]]; [|congruence].
  assert (successBox = VStr sb) by congruence.
  assert (failureBox = VStr fb) by congruence. subst.
  destruct (observes_run _ _ _ p _ Untouched w message tr
              (comment_flow_keeps_protocol rt restConfig message sb fb conn boxName
                 issue p Hp Hs Hf)
              (conj eq_refl eq_refl)) as (evs & Ht & [HQ _] & _).
  exists evs. split; [exact Ht|].
  now destruct (untouched_then_filed _ _ _ _ _ evs HQ) as (_ & _ & H).
Qed.

(** X19: once the issue named in the subject has been found,
    [processMessage] is the comment flow and nothing else: the promise of
    [doCreateComment] is never rejected, so that the [catch] which leads to
    [doCreateIssue] never fires. *)
Theorem found_issue_leads_to_a_comment_only
        (rt : Runtime) (restConfig : RestConfig) (conn : Conn) (boxName : jsstring)
        (message : Message) (p found commented : promise) (issue : val)
        (w : World) (tr : list event) :
  isRunning conn = true ->
  processMessage rt restConfig conn boxName message = Normal p ->
  Rest.getIssueFromSubject restConfig message = Normal found ->
  settled (run w found message tr) = Some (Resolved issue) ->
  doCreateComment rt restConfig conn boxName issue message = Normal commented ->
  run w p message tr = run w commented message (trace (run w found message tr))
  /\ forall e, settled (run w p message tr) <> Some (Rejected e).
Proof.
  intros Hrun Hp Hfound Hres Hc. unfold processMessage in Hp.
  rewrite Hrun, Hfound in Hp. cbn [negb bind] in Hp. apply Normal_inj in Hp. subst p.
  rewrite run_catch, run_then, Hres, Hc. cbn [callback].
  rewrite (proj1 (run_getIssueFromSubject restConfig w message found message tr Hfound)).
  assert (Hnever : forall e, settled (run w commented message
                                        (trace (run w found message tr)))
                             <> Some (Rejected e)).
  { destruct (box_names conn boxName) as [(sb & fb & Hs & Hf) | [e He]].
    - destruct (observes_run _ _ _ commented _ Untouched w message
                  (trace (run w found message tr))
                  (comment_flow_keeps_protocol rt restConfig message sb fb conn boxName
                     issue commented Hc Hs Hf)
                  (conj eq_refl eq_refl)) as (evs & _ & [_ HQ] & _).
      exact HQ.
    - unfold doCreateComment in Hc. rewrite He in Hc. discriminate. }
  destruct (settled (run w commented message (trace (run w found message tr))))
    as [[v|e]|] eqn:E; try (split; [reflexivity | rewrite E; discriminate]).
  now destruct (Hnever e).
Qed.

Lemma issue_flow_posts_one_issue_witness :
  exists p,
    doCreateIssue Config.runtime Config.restConfig Config.conn (js "INBOX")
      Scenario.request = Normal p
    /\ exists evs,
         trace (run Cases.knownSender p Scenario.request []) = [] ++ evs
         /\ length (posts "ZIssue" evs) <= 1
         /\ posts "ZComment" evs = [].
Proof.
  eexists. split; [reflexivity|].
  apply (issue_flow_posts_one_issue Config.runtime Config.restConfig Config.conn
           (js "INBOX")).
  reflexivity.
Defined.

Lemma issue_flow_files_after_posting_witness :
  exists p,
    doCreateIssue Config.runtime Config.restConfig Config.conn (js "INBOX")
      Scenario.request = Normal p
    /\ exists evs,
         trace (run Cases.knownSender p Scenario.request []) = [] ++ evs
         /\ forall pre u b post,
              evs = pre ++ EvMove u b :: post ->
              u = uid Scenario.request /\ moves pre = [] /\ moves post = []
              /\ posts "ZIssue" post = []
              /\ (b = VStr (js "INBOX/" ++ Config.unprocessed)
                  \/ (b = VStr (js "INBOX/" ++ Config.processed)
                      /\ length (posts "ZIssue" pre) = 1)).
Proof.
  eexists. split; [reflexivity|].
  apply (issue_flow_files_after_posting Config.runtime Config.restConfig Config.conn
           (js "INBOX")).
  - reflexivity.
  - reflexivity.
  - reflexivity.
Defined.

Lemma comment_flow_posts_one_comment_witness :
  exists p,
    doCreateComment Config.runtime Config.restConfig Config.conn (js "INBOX")
      Scenario.issue354 Scenario.reply = Normal p
    /\ exists evs,
         trace (run Scenario.unknownSender p Scenario.reply []) = [] ++ evs
         /\ length (posts "ZComment" evs) <= 1
         /\ posts "ZIssue" evs = [].
Proof.
  eexists. split; [reflexivity|].
  apply (comment_flow_posts_one_comment Config.runtime Config.restConfig Config.conn
           (js "INBOX") Scenario.issue354).
  reflexivity.
Defined.

Lemma comment_flow_files_after_posting_witness :
  exists p,
    doCreateComment Config.runtime Config.restConfig Config.conn (js "INBOX")
      Scenario.issue354 Scenario.reply = Normal p
    /\ exists evs,
         trace (run Scenario.unknownSender p Scenario.reply []) = [] ++ evs
         /\ forall pre u b post,
              evs = pre ++ EvMove u b :: post ->
              u = uid Scenario.reply /\ moves pre = [] /\ moves post = []
              /\ posts "ZComment" post = []
              /\ (b = VStr (js "INBOX/" ++ Config.unprocessed)
                  \/ (b = VStr (js "INBOX/" ++ Config.processed)
                      /\ length (posts "ZComment" pre) = 1)).
Proof.
  eexists. split; [reflexivity|].
  apply (comment_flow_files_after_posting Config.runtime Config.restConfig Config.conn
           (js "INBOX") Scenario.issue354).
  - reflexivity.
  - reflexivity.
  - reflexivity.
Defined.

Lemma found_issue_leads_to_a_comment_only_witness :
  exists p commented,
    processMessage Config.runtime Config.restConfig Config.conn (js "INBOX")
      Scenario.reply = Normal p
    /\ doCreateComment Config.runtime Config.restConfig Config.conn (js "INBOX")
         Scenario.issue354 Scenario.reply = Normal commented
    /\ run Cases.knownIssue p Scenario.reply []
       = run Cases.knownIssue commented Scenario.reply
           [EvRequest (Rest.issueOptions Config.restConfig
                         (js "http://192.168.102.105:16485/SM/9/rest/zIssues")
                         (js "SRQ000000000354"))]
    /\ forall e, settled (run Cases.knownIssue p Scenario.reply []) <> Some (Rejected e).
Proof.
  eexists. eexists. split; [reflexivity|]. split; [reflexivity|].
  refine (found_issue_leads_to_a_comment_only Config.runtime Config.restConfig
            Config.conn (js "INBOX") Scenario.reply _ _ _ Scenario.issue354
            Cases.knownIssue [] eq_refl eq_refl eq_refl eq_refl eq_refl).
Defined.

(* ===================================================================== *)
(** * Paths through the two flows *)
(* ===================================================================== *)

Section More.

Variable rt : Runtime.
Variable restConfig : RestConfig.
Variable w : World.

Lemma run_getMessageBody (message msg : Message) (tr : list event) (mail : Mail) :
  fetchReply w tr (uid message) = FetchMail mail ->
  run w (getMessageBody rt restConfig message) msg tr
  = {| settled := Some (Resolved (VMessage (uid msg)));
       final := withBody rt restConfig msg mail;
       trace := tr ++ [EvFetch (uid message)] |}.
Proof. intros H. cbn [getMessageBody run]. rewrite H. reflexivity. Qed.

(** X25: for a message whose From header holds an address in angle
    brackets that is not empty, so that [getPersonIdByEmail] returns a
    promise, for an issue that is an object and with the paths of the
    persons and of the comments configured: once the body has been
    fetched, the comment flow moves the message exactly once, to the
    success box or to the failure box, unless the process crashes before
    the move.  For an address without brackets, or an empty one,
    [getPersonIdByEmail] throws or returns nothing inside the [then], the
    last [catch] swallows it and nothing is moved. *)
Theorem comment_flow_moves_once_fetched
        (conn : Conn) (boxName : jsstring) (issue : val) (message : Message)
        (p : promise) (successBox failureBox : val) (mail : Mail)
        (email issueId : val) (person : promise) (uri : jsstring) (tr : list event) :
  doCreateComment rt restConfig conn boxName issue message = Normal p ->
  getSuccessBoxName conn boxName = Normal successBox ->
  getFailureBoxName conn boxName = Normal failureBox ->
  fetchReply w tr (uid message) = FetchMail mail ->
  Rest.header0 (js "from") message = Normal email ->
  prop issue (js "Id") = Normal issueId ->
  Rest.getPersonIdByEmail restConfig email = Normal (Some person) ->
  getModelPath restConfig (js "Comments") = Normal uri ->
  (settled (run w p message tr) = None /\ moves (trace (run w p message tr)) = moves tr)
  \/ moves (trace (run w p message tr)) = moves tr ++ [EvMove (uid message) successBox]
  \/ moves (trace (run w p message tr)) = moves tr ++ [EvMove (uid message) failureBox].
Proof.
  intros Hp Hs Hf Hfetch Hfrom Hid Hperson Huri.
  unfold doCreateComment in Hp. rewrite Hs, Hf in Hp. cbn [bind] in Hp.
  apply Normal_inj in Hp. subst p.
  rewrite run_catch, run_then, (run_getMessageBody message message tr mail Hfetch).
  cbn [settled final trace].
  pose proof (comment_flow_moves_once rt restConfig message successBox failureBox
                issue email issueId person uri (moves tr) Hfrom Hid Hperson Huri) as A.
  destruct (always_run (sameLetter message) _ _ (moves tr) w
              (withBody rt restConfig message mail) (tr ++ [EvFetch (uid message)])
              A (conj eq_refl eq_refl)) as [H _].
  { rewrite moves_app. cbn. apply app_nil_r. }
  cbv beta in H.
  destruct (settled (run w (commentOnceFetched rt restConfig successBox failureBox issue)
                       (withBody rt restConfig message mail)
                       (tr ++ [EvFetch (uid message)]))) as [[v|e]|] eqn:E.
  - destruct H as [[H _] | [H | H]]; [discriminate | auto | auto].
  - cbn [run resolve trace].
    destruct H as [[H _] | [H | H]]; [discriminate | auto | auto].
  - destruct H as [[_ H] | [H | H]]; auto.
Qed.


Lemma personResponse_notFound (email : val) (reply : http_reply) :
  personNotFound reply -> Rest.personResponse email reply = Rejected email.
Proof.
  destruct reply as [|statusCode body]; [reflexivity|].
  intros [-> | (result & returnCode & -> & Hrc & H)]; [reflexivity|].
  unfold Rest.personResponse. cbn [Rest.parsed bind]. rewrite Hrc. cbn [bind].
  destruct H as [H | H].
  - rewrite H. reflexivity.
  - destruct (strict_eq returnCode (VNum 0)); [|reflexivity].
    cbn [negb]. rewrite H. reflexivity.
Qed.

(** X27: with [createSystemIssue] off, a message whose From header holds
    an address in angle brackets that is not empty, and whose sender the
    lookup does not find (a count of 0, a return code other than 0, no
    JSON, no answer), is moved to the failure box and its promise is
    rejected; after the fetch and the lookup nothing else is requested, no
    issue in particular.  For the empty address [<>] there is no lookup:
    [getPersonIdByEmail] returns nothing and the flow goes on to create
    an issue. *)
Theorem unknown_sender_gets_no_issue
        (conn : Conn) (boxName : jsstring) (message : Message) (p : promise)
        (failureBox : val) (mail : Mail) (email : val) (path address : jsstring)
        (tr : list event) :
  doCreateIssue rt restConfig conn boxName message = Normal p ->
  createSystemIssue (onPersonNotFound restConfig) = false ->
  getFailureBoxName conn boxName = Normal failureBox ->
  fetchReply w tr (uid message) = FetchMail mail ->
  Rest.header0 (js "from") message = Normal email ->
  getModelPath restConfig (js "Persons") = Normal path ->
  parseEmailAddress email = Normal address ->
  address <> [] ->
  personNotFound
    (httpReply w (tr ++ [EvFetch (uid message)])
       (Rest.personOptions restConfig path address)) ->
  run w p message tr
  = {| settled := Some (Rejected VUndefined);
       final := withBody rt restConfig message mail;
       trace := tr ++ [EvFetch (uid message);
                       EvRequest (Rest.personOptions restConfig path address);
                       EvMove (uid message) failureBox] |}.
Proof.
  intros Hp Hsys Hf Hfetch Hfrom Hpath Haddr Hne Hrej.
  apply (personResponse_notFound email) in Hrej.
  unfold doCreateIssue in Hp. rewrite Hfrom, Hf, Hsys in Hp.
  destruct (getSuccessBoxName conn boxName) as [successBox|]; [|discriminate].
  cbn [bind] in Hp. apply Normal_inj in Hp. subst p.
  assert (Hperson : Rest.getPersonIdByEmail restConfig email
                    = Normal (Some (HttpRequest (Rest.personOptions restConfig path address)
                                      (fun reply => Settled (Rest.personResponse email reply))))).
  { unfold Rest.getPersonIdByEmail. rewrite Hpath, Haddr. cbn [bind].
    destruct address; [contradiction|reflexivity]. }
  rewrite run_then, run_then, run_catch, run_then,
    (run_getMessageBody message message tr mail Hfetch).
  cbn [settled final trace]. rewrite Hperson. cbn [bind callback run]. rewrite Hrej.
  cbn [settled final trace]. rewrite run_finally_reject. cbn [moveMessageFn run].
  destruct (moveError w _ (uid message) failureBox); cbn [run reject resolve settled final trace];
    now rewrite <- !app_assoc.
Qed.


(** X28: a message that carries a configured auto-reply header, from a
    sender who is known and not exempt, is moved to the failure box
    without any request beyond the lookup of the sender: no count is
    asked for, no issue is posted. *)
Theorem auto_reply_gets_no_issue
        (conn : Conn) (boxName : jsstring) (message : Message) (p : promise)
        (failureBox : val) (mail : Mail) (email personId : val) (path address : jsstring)
        (tr : list event) :
  doCreateIssue rt restConfig conn boxName message = Normal p ->
  getFailureBoxName conn boxName = Normal failureBox ->
  fetchReply w tr (uid message) = FetchMail mail ->
  Rest.header0 (js "from") message = Normal email ->
  getModelPath restConfig (js "Persons") = Normal path ->
  parseEmailAddress email = Normal address ->
  address <> [] ->
  Rest.personResponse email
    (httpReply w (tr ++ [EvFetch (uid message)])
       (Rest.personOptions restConfig path address))
  = Resolved personId ->
  Rest.indexOfFound (dontCheckAuthors (spam restConfig)) personId = false ->
  Rest.hasSpamHeaders restConfig message = true ->
  run w p message tr
  = {| settled := Some (Rejected VUndefined);
       final := withBody rt restConfig message mail;
       trace := tr ++ [EvFetch (uid message);
                       EvRequest (Rest.personOptions restConfig path address);
                       EvMove (uid message) failureBox] |}.
Proof.
  intros Hp Hf Hfetch Hfrom Hpath Haddr Hne Hres Hexempt Hspam.
  unfold doCreateIssue in Hp. rewrite Hfrom, Hf in Hp.
  destruct (getSuccessBoxName conn boxName) as [successBox|]; [|discriminate].
  cbn [bind] in Hp. apply Normal_inj in Hp. subst p.
  assert (Hperson : Rest.getPersonIdByEmail restConfig email
                    = Normal (Some (HttpRequest (Rest.personOptions restConfig path address)
                                      (fun reply => Settled (Rest.personResponse email reply))))).
  { unfold Rest.getPersonIdByEmail. rewrite Hpath, Haddr. cbn [bind].
    destruct address; [contradiction|reflexivity]. }
  rewrite run_then, run_then, run_catch, run_then,
    (run_getMessageBody message message tr mail Hfetch).
  cbn [settled final trace]. rewrite Hperson. cbn [bind callback run]. rewrite Hres.
  cbn [settled final trace]. rewrite run_then, run_catch.
  unfold Rest.checkSpamByPersonId. rewrite Hexempt, Hspam.
  cbn [run reject settled final trace]. rewrite run_finally_reject. cbn [moveMessageFn run].
  destruct (moveError w _ (uid message) failureBox); cbn [run reject resolve settled final trace];
    now rewrite <- !app_assoc.
Qed.

End More.

Section Batch.

Variable rt : Runtime.
Variable restConfig : RestConfig.
Variable conn : Conn.
Variable boxName : jsstring.

Lemma processMessage_without_subject (m : Message) :
  isRunning conn = true ->
  lookup (js "subject") (header m) = None ->
  processMessage rt restConfig conn boxName m = Throw TypeError.
Proof.
  intros Hrun Hsub. unfold processMessage, Rest.getIssueFromSubject, Rest.header0.
  now rewrite Hrun, Hsub.
Qed.

Lemma mapProcess_stops (before after : list Message) (m : Message) (e : val) :
  processMessage rt restConfig conn boxName m = Throw e ->
  Forall (fun x => exists p, processMessage rt restConfig conn boxName x = Normal p) before ->
  exists ts,
    mapProcess rt restConfig conn boxName (before ++ m :: after)
    = (ts, map Started (map uid before) ++ [Started (uid m); Uncaught (uid m)], true)
    /\ length ts = length before.
Proof.
  intros Hm. induction 1 as [|x before [p Hx] _ IH]; cbn [app mapProcess map].
  - rewrite Hm. exists []. auto.
  - rewrite Hx. destruct IH as (ts & -> & Hlen). eexists. split; [reflexivity|].
    cbn [length]. now rewrite Hlen.
Qed.

(** X29: a fetched message without a subject header makes
    [processMessage] throw inside the [map], outside any promise:
    [processMessage] has been called on the messages before it and on
    it, never on the messages after it, and no reply is processed any
    more. *)
Theorem message_without_subject_stops_the_batch
        (before after : list Message) (m : Message) (schedule : list (nat * Reply)) :
  isRunning conn = true ->
  lookup (js "subject") (header m) = None ->
  Forall (fun x => exists p, processMessage rt restConfig conn boxName x = Normal p) before ->
  crashed (dispatch rt restConfig conn boxName (before ++ m :: after) schedule) = true
  /\ journal (dispatch rt restConfig conn boxName (before ++ m :: after) schedule)
     = map Started (map uid before) ++ [Started (uid m); Uncaught (uid m)]
  /\ length (tasks (dispatch rt restConfig conn boxName (before ++ m :: after) schedule))
     = length before.
Proof.
  intros Hrun Hsub Hbefore.
  destruct (mapProcess_stops before after m TypeError
              (processMessage_without_subject m Hrun Hsub) Hbefore) as (ts & Hmap & Hlen).
  unfold dispatch.
  assert (Hstart : start rt restConfig conn boxName (before ++ m :: after)
                   = {| tasks := ts;
                        journal := map Started (map uid before)
                                   ++ [Started (uid m); Uncaught (uid m)];
                        crashed := true |}).
  { unfold start. rewrite Hmap. now rewrite app_nil_r. }
  rewrite crashed_stays; rewrite Hstart; auto.
Qed.

End Batch.


Lemma comment_flow_moves_once_fetched_witness :
  exists p,
    doCreateComment Config.runtime Config.restConfig Config.conn (js "INBOX")
      Scenario.issue354 Scenario.reply = Normal p
    /\ ((settled (run Scenario.unknownSender p Scenario.reply []) = None
         /\ moves (trace (run Scenario.unknownSender p Scenario.reply [])) = moves [])
        \/ moves (trace (run Scenario.unknownSender p Scenario.reply []))
           = moves [] ++ [EvMove (uid Scenario.reply) (VStr (js "INBOX/" ++ Config.processed))]
        \/ moves (trace (run Scenario.unknownSender p Scenario.reply []))
           = moves [] ++ [EvMove (uid Scenario.reply)
                            (VStr (js "INBOX/" ++ Config.unprocessed))]).
Proof.
  eexists. split; [reflexivity|].
  refine (comment_flow_moves_once_fetched Config.runtime Config.restConfig
            Scenario.unknownSender Config.conn (js "INBOX") Scenario.issue354
            Scenario.reply _ _ _ Scenario.replyMail (VStr (js "Bob <bob@x>"))
            (VStr (js "SRQ000000000354")) _
            (js "http://192.168.102.105:16485/SM/9/rest/zComments") []
            eq_refl eq_refl eq_refl eq_refl eq_refl eq_refl eq_refl eq_refl).
Defined.

Lemma unknown_sender_gets_no_issue_witness :
  exists p,
    doCreateIssue Config.runtime Config.restConfig Config.conn (js "INBOX")
      Scenario.request = Normal p
    /\ run Scenario.unknownSender p Scenario.request []
       = {| settled := Some (Rejected VUndefined);
            final := withBody Config.runtime Config.restConfig Scenario.request
                       Scenario.replyMail;
            trace := [] ++ [EvFetch (uid Scenario.request);
                            EvRequest (Rest.personOptions Config.restConfig
                                         (js "http://192.168.102.105:16485/SM/9/rest/zPersons")
                                         (js "alice@x"));
                            EvMove (uid Scenario.request)
                              (VStr (js "INBOX/" ++ Config.unprocessed))] |}.
Proof.
  eexists. split; [reflexivity|].
  refine (unknown_sender_gets_no_issue Config.runtime Config.restConfig
            Scenario.unknownSender Config.conn (js "INBOX") Scenario.request _
            (VStr (js "INBOX/" ++ Config.unprocessed)) Scenario.replyMail
            (VStr (js "Alice <alice@x>"))
            (js "http://192.168.102.105:16485/SM/9/rest/zPersons") (js "alice@x") []
            eq_refl eq_refl eq_refl eq_refl eq_refl eq_refl eq_refl _ _).
  - discriminate.
  - right. eexists. eexists. split; [reflexivity|]. split; [reflexivity|].
    right. reflexivity.
Defined.

Lemma auto_reply_gets_no_issue_witness :
  exists p,
    doCreateIssue Config.runtime Config.restConfig Config.conn (js "INBOX")
      Cases.autoReply = Normal p
    /\ run Cases.knownSender p Cases.autoReply []
       = {| settled := Some (Rejected VUndefined);
            final := withBody Config.runtime Config.restConfig Cases.autoReply
                       Scenario.requestMail;
            trace := [] ++ [EvFetch (uid Cases.autoReply);
                            EvRequest (Rest.personOptions Config.restConfig
                                         (js "http://192.168.102.105:16485/SM/9/rest/zPersons")
                                         (js "alice@x"));
                            EvMove (uid Cases.autoReply)
                              (VStr (js "INBOX/" ++ Config.unprocessed))] |}.
Proof.
  eexists. split; [reflexivity|].
  refine (auto_reply_gets_no_issue Config.runtime Config.restConfig
            Cases.knownSender Config.conn (js "INBOX") Cases.autoReply _
            (VStr (js "INBOX/" ++ Config.unprocessed)) Scenario.requestMail
            (VStr (js "Alice <alice@x>")) (VStr (js "PRS000000000042"))
            (js "http://192.168.102.105:16485/SM/9/rest/zPersons") (js "alice@x") []
            eq_refl eq_refl eq_refl eq_refl eq_refl eq_refl _ eq_refl eq_refl eq_refl).
  discriminate.
Defined.

Lemma message_without_subject_stops_the_batch_witness :
  crashed (dispatch Config.runtime Config.restConfig Config.conn (js "INBOX")
             ([Scenario.request] ++ Cases.untitled :: [Scenario.reply]) Scenario.arrivals)
  = true
  /\ journal (dispatch Config.runtime Config.restConfig Config.conn (js "INBOX")
                ([Scenario.request] ++ Cases.untitled :: [Scenario.reply])
                Scenario.arrivals)
     = map Started (map uid [Scenario.request])
       ++ [Started (uid Cases.untitled); Uncaught (uid Cases.untitled)]
  /\ length (tasks (dispatch Config.runtime Config.restConfig Config.conn (js "INBOX")
                      ([Scenario.request] ++ Cases.untitled :: [Scenario.reply])
                      Scenario.arrivals))
     = length [Scenario.request].
Proof.
  apply (message_without_subject_stops_the_batch Config.runtime Config.restConfig
           Config.conn (js "INBOX") [Scenario.request] [Scenario.reply] Cases.untitled
           Scenario.arrivals).
  - reflexivity.
  - reflexivity.
  - repeat constructor. eexists. reflexivity.
Defined.

Lemma issue_flow_moves_once_witness :
  exists p,
    doCreateIssue Config.runtime Config.restConfig Config.conn (js "INBOX")
      Scenario.request = Normal p
    /\ ((settled (run Cases.knownSender p Scenario.request []) = None
         /\ moves (trace (run Cases.knownSender p Scenario.request [])) = moves [])
        \/ moves (trace (run Cases.knownSender p Scenario.request []))
           = moves [] ++ [EvMove (uid Scenario.request)
                            (VStr (js "INBOX/" ++ Config.processed))]
        \/ moves (trace (run Cases.knownSender p Scenario.request []))
           = moves [] ++ [EvMove (uid Scenario.request)
                            (VStr (js "INBOX/" ++ Config.unprocessed))]).
Proof.
  eexists. split; [reflexivity|].
  refine (issue_flow_moves_once Config.runtime Config.restConfig Scenario.request
            (VStr (js "INBOX/" ++ Config.processed))
            (VStr (js "INBOX/" ++ Config.unprocessed))
            Config.conn (js "INBOX") _ (VStr (js "Printer broken"))
            (js "http://192.168.102.105:16485/SM/9/rest/zIssues")
            Cases.knownSender [] eq_refl eq_refl eq_refl eq_refl eq_refl).
Defined.

Lemma issue_flow_moves_to_failure_when_fetch_fails_witness :
  exists p,
    doCreateIssue Config.runtime Config.restConfig Config.conn (js "INBOX")
      Scenario.request = Normal p
    /\ trace (run Scenario.fetchFails p Scenario.request [])
       = [] ++ [EvFetch (uid Scenario.request);
                EvMove (uid Scenario.request) (VStr (js "INBOX/" ++ Config.unprocessed))].
Proof.
  eexists. split; [reflexivity|].
  refine (issue_flow_moves_to_failure_when_fetch_fails Config.runtime Config.restConfig
            Config.conn (js "INBOX") Scenario.request Scenario.fetchFails [] _
            (VStr (js "INBOX/" ++ Config.unprocessed))
            eq_refl eq_refl eq_refl eq_refl).
Defined.


(* ===================================================================== *)
(** * A sender without angle brackets *)
(* ===================================================================== *)

Section BareSender.

Variable rt : Runtime.
Variable restConfig : RestConfig.
Variable w : World.

(** X30: in the comment flow a message whose From header has no part in
    angle brackets is left where it is: [parseEmailAddress] throws inside
    the [then] that follows the fetch, the last [catch] turns the
    rejection into a resolution, and after the fetch nothing is requested
    and nothing is moved. *)
Theorem comment_flow_drops_a_sender_without_brackets
        (conn : Conn) (boxName : jsstring) (issue : val) (message : Message)
        (p : promise) (mail : Mail) (email : val) (tr : list event) :
  doCreateComment rt restConfig conn boxName issue message = Normal p ->
  fetchReply w tr (uid message) = FetchMail mail ->
  Rest.header0 (js "from") message = Normal email ->
  match0 angleRe (to_string email) = None ->
  run w p message tr
  = {| settled := Some (Resolved VUndefined);
       final := withBody rt restConfig message mail;
       trace := tr ++ [EvFetch (uid message)] |}.
Proof.
  intros Hp Hfetch Hfrom Hbare.
  unfold doCreateComment in Hp.
  destruct (getSuccessBoxName conn boxName) as [successBox|]; [|discriminate].
  destruct (getFailureBoxName conn boxName) as [failureBox|]; [|discriminate].
  cbn [bind] in Hp. apply Normal_inj in Hp. subst p.
  rewrite run_catch, run_then, (run_getMessageBody rt restConfig w message message tr mail Hfetch).
  cbn [settled final trace]. unfold commentOnceFetched. cbn [run].
  rewrite header0_withBody, Hfrom. cbn [bind].
  assert (E : Rest.getPersonIdByEmail restConfig email = Throw TypeError
              \/ exists e, getModelPath restConfig (js "Persons") = Throw e).
  { unfold Rest.getPersonIdByEmail.
    destruct (getModelPath restConfig (js "Persons")) as [path|e]; [|right; eauto].
    left. cbn [bind]. unfold parseEmailAddress. rewrite Hbare. reflexivity. }
  destruct (prop issue (js "Id")) as [issueId|e]; cbn [bind callback run reject settled final trace];
    [|reflexivity].
  destruct E as [E | [e E]].
  - rewrite E. reflexivity.
  - unfold Rest.getPersonIdByEmail. rewrite E. reflexivity.
Qed.

End BareSender.

Lemma comment_flow_drops_a_sender_without_brackets_witness :
  exists p,
    doCreateComment Config.runtime Config.restConfig Config.conn (js "INBOX")
      Scenario.issue354 Cases.bareSender = Normal p
    /\ run Scenario.unknownSender p Cases.bareSender []
       = {| settled := Some (Resolved VUndefined);
            final := withBody Config.runtime Config.restConfig Cases.bareSender
                       Scenario.replyMail;
            trace := [] ++ [EvFetch (uid Cases.bareSender)] |}.
Proof.
  eexists. split; [reflexivity|].
  refine (@comment_flow_drops_a_sender_without_brackets Config.runtime Config.restConfig
            Scenario.unknownSender Config.conn (js "INBOX") Scenario.issue354
            Cases.bareSender _ Scenario.replyMail (VStr (js "bob@x")) []
            eq_refl eq_refl eq_refl eq_refl).
Defined.
